(** * Lobo AI Studio: the canvas compositor, the task runner and the history list

    A shallow embedding of the parts of [src/App.tsx] that carry logic:

    - [createExpansionCanvas] (lines 109-154): the geometry of the padded
      canvas used before outpainting;
    - [runAI] (lines 583-625): the bounded retry loop around a generation task;
    - [addToHistory] (lines 418-428) and the handlers that call it;
    - the polling loop of [handleAnimateImage] (lines 565-571).

    JavaScript numbers are IEEE 754 binary64.  The geometry is written once
    over an abstract arithmetic ([JsNumber]) and read at two instances:
    [float] (Rocq's primitive binary64, the value an engine computes) and
    [Q] (exact rationals, the arithmetic the formulas are stated in).  What
    is proved of every image is proved of the [float] instance, from the
    specification of the primitive operations. *)

From Stdlib Require Import ZArith QArith Floats Uint63.
From Stdlib Require Import String Ascii List Bool Lia Lqa Arith.
From ExtLib Require Import Structures.Monad.
Import ListNotations.

Set Implicit Arguments.

Close Scope Q_scope.
Open Scope Z_scope.

(** ** Strings *)

Module Str.

Local Open Scope string_scope.

(** [s.startsWith(p)]. *)
Fixpoint startsWith (p s : string) : bool :=
  match p, s with
  | EmptyString, _ => true
  | String _ _, EmptyString => false
  | String a p', String b s' => Ascii.eqb a b && startsWith p' s'
  end.

(** [s.includes(p)]: [p] occurs in [s] at some position. *)
Fixpoint includes (p s : string) : bool :=
  startsWith p s ||
  match s with
  | EmptyString => false
  | String _ s' => includes p s'
  end.

(** Upper-casing of the letters a-z; every other byte is kept.  This is the
    canonicalisation a regular expression with the [i] flag applies to the
    ASCII range (a character outside it never folds onto an ASCII one). *)
Definition upcase (c : ascii) : ascii :=
  let n := nat_of_ascii c in
  if (97 <=? n)%nat && (n <=? 122)%nat then ascii_of_nat (n - 32) else c.

Fixpoint toUpper (s : string) : string :=
  match s with
  | EmptyString => EmptyString
  | String c s' => String (upcase c) (toUpper s')
  end.

(** [/lit/i.test(s)] for a pattern [lit] made of literal characters. *)
Definition testLiteralIgnoreCase (lit s : string) : bool :=
  includes (toUpper lit) (toUpper s).

(** [s.split(sep)] for a one-character separator. *)
Fixpoint splitAcc (sep : ascii) (acc s : string) : list string :=
  match s with
  | EmptyString => [acc]
  | String c s' =>
      if Ascii.eqb c sep then acc :: splitAcc sep "" s'
      else splitAcc sep (acc ++ String c "") s'
  end.

Definition split (sep : ascii) (s : string) : list string := splitAcc sep "" s.

(** [Number(s)] on a string of decimal digits ([Number("")] is [0]); [None]
    stands for every other string, whose conversion is not needed here. *)
Definition digit (c : ascii) : option Z :=
  let n := nat_of_ascii c in
  if (48 <=? n)%nat && (n <=? 57)%nat then Some (Z.of_nat (n - 48)) else None.

Fixpoint NumberAcc (acc : Z) (s : string) : option Z :=
  match s with
  | EmptyString => Some acc
  | String c s' =>
      match digit c with
      | Some d => NumberAcc (10 * acc + d)%Z s'
      | None => None
      end
  end.

Definition Number (s : string) : option Z := NumberAcc 0 s.

(** [String(n)] / template interpolation of a non-negative integer. *)
Definition digitChar (d : Z) : ascii := ascii_of_nat (48 + Z.to_nat d).

Fixpoint showDigits (fuel : nat) (n : Z) (acc : string) : string :=
  match fuel with
  | O => acc
  | S fuel' =>
      let acc' := String (digitChar (n mod 10)%Z) acc in
      if (n <? 10)%Z then acc' else showDigits fuel' (n / 10)%Z acc'
  end.

Definition showInt (n : Z) : string := showDigits (S (Z.to_nat (Z.log2 n))) n "".

(** Interpolation of the number [n / 1000] for an integer [0 <= n]: the
    quotient, then the thousandths without their trailing zeros.  (This is the
    shortest decimal that reads back as the same binary64 while it has at most
    15 significant digits.) *)
Definition showDiv1000 (n : Z) : string :=
  let whole := showInt (n / 1000) in
  let r := n mod 1000 in
  let d1 := String (digitChar (r / 100)) "" in
  let d2 := String (digitChar (r / 10 mod 10)) "" in
  let d3 := String (digitChar (r mod 10)) "" in
  if (r =? 0)%Z then whole
  else if (r mod 100 =? 0)%Z then whole ++ "." ++ d1
  else if (r mod 10 =? 0)%Z then whole ++ "." ++ d1 ++ d2
  else whole ++ "." ++ d1 ++ d2 ++ d3.

End Str.

(** ** The canvas compositor *)

Module Compositor.

(** [type AspectRatio = '1:1' | '3:4' | '4:3' | '16:9' | '9:16'] *)
Inductive AspectRatio := R1_1 | R3_4 | R4_3 | R16_9 | R9_16.

Definition ASPECT_RATIOS : list AspectRatio := [R1_1; R3_4; R4_3; R16_9; R9_16].

(** The string literal each member of the union is. *)
Definition literal (r : AspectRatio) : string :=
  match r with
  | R1_1 => "1:1" | R3_4 => "3:4" | R4_3 => "4:3"
  | R16_9 => "16:9" | R9_16 => "9:16"
  end.

(** [const [w, h] = targetRatioStr.split(':').map(Number)].  The last branch
    is not reached by a member of [AspectRatio] ([splitRatio_table]). *)
Definition splitRatio (targetRatioStr : AspectRatio) : Z * Z :=
  match List.map Str.Number (Str.split ":" (literal targetRatioStr)) with
  | Some w :: Some h :: _ => (w, h)
  | _ => (0, 0)
  end.

(** The arithmetic of JavaScript numbers used by the compositor. *)
Class JsNumber (num : Type) := {
  ofInt : Z -> num;          (* an integer-valued number: img.width, 0, 2 *)
  mul : num -> num -> num;   (* a * b *)
  div : num -> num -> num;   (* a / b *)
  sub : num -> num -> num;   (* a - b *)
  gtb : num -> num -> bool   (* a > b *)
}.

(** What lines 123-136 leave in the four local variables. *)
Record Canvas (num : Type) := {
  canvasWidth : num;
  canvasHeight : num;
  offsetX : num;
  offsetY : num
}.

Section Generic.
Context {num : Type} `{JsNumber num}.

(** [const targetRatio = w / h] (line 112). *)
Definition targetRatio (targetRatioStr : AspectRatio) : num :=
  let '(w, h) := splitRatio targetRatioStr in
  div (ofInt w) (ofInt h).

(** [const imgRatio = img.width / img.height] (line 124). *)
Definition imgRatio (imgWidth imgHeight : Z) : num :=
  div (ofInt imgWidth) (ofInt imgHeight).

(** Lines 111-112 and 123-136 of [createExpansionCanvas]; [imgWidth] and
    [imgHeight] are [img.width] and [img.height] of the decoded file.  The
    rasterisation (lines 138-147) is the browser's and is not modelled. *)
Definition createExpansionCanvas
    (imgWidth imgHeight : Z) (targetRatioStr : AspectRatio) : Canvas num :=
  let targetRatio := targetRatio targetRatioStr in
  let imgRatio := imgRatio imgWidth imgHeight in
  if gtb targetRatio imgRatio then (* wider than image *)
    let canvasHeight := ofInt imgHeight in
    let canvasWidth := mul (ofInt imgHeight) targetRatio in
    let offsetY := ofInt 0 in
    let offsetX := div (sub canvasWidth (ofInt imgWidth)) (ofInt 2) in
    {| canvasWidth := canvasWidth; canvasHeight := canvasHeight;
       offsetX := offsetX; offsetY := offsetY |}
  else (* taller than image *)
    let canvasWidth := ofInt imgWidth in
    let canvasHeight := div (ofInt imgWidth) targetRatio in
    let offsetX := ofInt 0 in
    let offsetY := div (sub canvasHeight (ofInt imgHeight)) (ofInt 2) in
    {| canvasWidth := canvasWidth; canvasHeight := canvasHeight;
       offsetX := offsetX; offsetY := offsetY |}.
End Generic.

(** Binary64, as the engine computes.  [of_uint63] is exact below [2^53];
    image dimensions are unsigned 32-bit integers. *)
#[export] Instance JsNumber_float : JsNumber float := {
  ofInt z := PrimFloat.of_uint63 (Uint63.of_Z z);
  mul := PrimFloat.mul;
  div := PrimFloat.div;
  sub := PrimFloat.sub;
  gtb a b := PrimFloat.ltb b a
}.

(** Exact rational arithmetic. *)
#[export] Instance JsNumber_Q : JsNumber Q := {
  ofInt := inject_Z;
  mul := Qmult;
  div := Qdiv;
  sub := Qminus;
  gtb a b := negb (Qle_bool a b)
}.

(** [canvas.width = canvasWidth] (lines 138-139): the attribute is an
    unsigned long, so the assignment keeps the integer part of the number. *)
Definition canvasAttribute (x : Q) : Z := Z.quot (Qnum x) (Zpos (Qden x)).

(** The integer part of a binary64 value; 0 for NaN and the infinities. *)
Definition integerPart (x : float) : Z :=
  match Prim2SF x with
  | S754_finite s m e =>
      let magnitude := if 0 <=? e then Zpos m * 2 ^ e else Zpos m / 2 ^ (- e) in
      if s then - magnitude else magnitude
  | _ => 0
  end.

(** The conversion of a number to an [unsigned long]. *)
Definition toUnsignedLong (x : float) : Z := integerPart x mod 2 ^ 32.

(** [canvas.width = x] and [canvas.height = x] on the binary64 value the code
    holds.  The attribute is an [unsigned long] that reflects a content
    attribute: the number is converted, and the attribute keeps a value up to
    2147483647 and takes its default above that. *)
Definition reflectedSize (default : Z) (x : float) : Z :=
  let n := toUnsignedLong x in
  if n <=? 2147483647 then n else default.

(** The canvas element after lines 138-139; 300 and 150 are the defaults of a
    canvas. *)
Record CanvasElement := { elementWidth : Z; elementHeight : Z }.

Definition canvasElement (c : Canvas float) : CanvasElement :=
  {| elementWidth := reflectedSize 300 (canvasWidth c);
     elementHeight := reflectedSize 150 (canvasHeight c) |}.

(** [ctx.drawImage(img, offsetX, offsetY)] (line 141) puts the image, at its
    own size, with its top left corner at the offsets.  The test that the
    image drawn there lies inside the canvas element. *)
Definition drawnInside (e : CanvasElement) (c : Canvas float) (W H : Z) : bool :=
  (W <=? elementWidth e) && (H <=? elementHeight e)
  && (PrimFloat.leb 0 (offsetX c) && PrimFloat.leb 0 (offsetY c)
      && PrimFloat.leb (offsetX c + ofInt W) (ofInt (elementWidth e))
      && PrimFloat.leb (offsetY c + ofInt H) (ofInt (elementHeight e)))%float.

End Compositor.

(** ** Binary64 numbers as the exact numbers they stand for *)

Module Binary64.

Import Compositor.

(** The number a float stands for, times [2^1074]: an integer for every
    finite binary64 value. *)
Definition value (x : spec_float) : Z :=
  match x with
  | S754_finite s m e => (if s then -1 else 1) * (Zpos m * 2 ^ (e + 1074))
  | _ => 0
  end.

(** Zero or a positive finite value. *)
Definition nonneg (x : spec_float) : bool :=
  match x with
  | S754_zero _ => true
  | S754_finite false _ _ => true
  | _ => false
  end.

(** A float of the format that is not negative. *)
Definition good (x : spec_float) : Prop :=
  valid_binary x = true /\ nonneg x = true.

(** A float that is valid, not negative, and normal when it is not zero. *)
Definition ok (x : spec_float) : Prop :=
  valid_binary x = true
  /\ match x with
     | S754_zero _ => True
     | S754_finite false m _ => Zpos (digits2_pos m) = 53
     | _ => False
     end.

(** What rounding does to the exact number [x]: the result [r] is a float
    between the floats around [x]. *)
Definition rounds (x : Z) (r : spec_float) : Prop :=
  ok r
  /\ (forall g, good g -> value g <= x -> value g <= value r)
  /\ (forall g, good g -> x <= value g -> value r <= value g).

(** Rounding the rational [N / D], in units of [2^-1074]. *)
Definition roundsQ (N D : Z) (r : spec_float) : Prop :=
  ok r
  /\ (forall g, good g -> value g * D <= N -> value g <= value r)
  /\ (forall g, good g -> N <= value g * D -> value r <= value g).

(** Bits were lost in a shift to the right. *)
Definition inexact (mrs : shr_record) : bool := shr_r mrs || shr_s mrs.

(** The units: [B] is 1 and [U] is [2^-53]. *)
Definition B : Z := 2 ^ 1074.

Definition U : Z := 2 ^ 1021.

Definition fvalue (x : float) : Z := value (Prim2SF x).

Definition fok (x : float) : Prop := ok (Prim2SF x).

(** The magnitudes the compositor works with: from [2^-64] to [2^64]. *)
Definition window (v : Z) : Prop := 2 ^ 1010 <= v < 2 ^ 1138.

(** The float just below a target ratio. *)
Definition ratioBelow (t : AspectRatio) : float :=
  next_down (targetRatio (num := float) t).

(** What an axis of the canvas satisfies: the computed size [cs] holds the
    source of [S] pixels placed at the offset [o], the size [n] the element
    keeps is at least [S] and less than one pixel below [cs], and the offset
    is exactly half of the padding. *)
Definition axisHolds (S : Z) (cs o : float) (n : Z) : Prop :=
  PrimFloat.leb (ofInt (num := float) S) cs = true
  /\ PrimFloat.leb 0 o = true
  /\ PrimFloat.leb (o + ofInt (num := float) S) cs = true
  /\ S <= n
  /\ PrimFloat.leb (ofInt (num := float) n) cs = true
  /\ PrimFloat.ltb cs (ofInt (num := float) (n + 1)) = true
  /\ fvalue o * 2 = fvalue cs - S * B.

End Binary64.

(** ** The data model *)

(** [enum AiTool] *)
Inductive AiTool :=
| CREATOR_EDITOR | WATERMARK_REMOVER | QUALITY_IMPROVER | IMAGE_EXPANDER
| STYLE_CLONER | CHARACTER_CLONER | IMAGE_ANIMATOR.

(** The result kind, ['image' | 'video']. *)
Inductive ResultType := image | video.

(** A [File] chosen by the user; [type] is its MIME type. *)
Module File.
Record File := { name : string; type : string }.
End File.

(** A [new Date()]: the clock read when the object is made. *)
Module Date.
Record Date := { getTime : Z; toLocaleString_ptBR : string }.
End Date.

(** [type HistoryItem] (lines 30-37). *)
Module HistoryItem.
Record HistoryItem := {
  id : string;
  type : ResultType;
  url : string;
  prompt : string;
  tool : AiTool;
  timestamp : string
}.
End HistoryItem.

(** [const VIDEO_GENERATION_MESSAGES] (lines 17-24). *)
Definition VIDEO_GENERATION_MESSAGES : list string := [
  "Iniciando o processo de animação...";
  "Analisando a imagem e o prompt...";
  "Gerando os quadros iniciais do vídeo...";
  "Renderizando a sequência de animação...";
  "Aplicando pós-processamento e refinamentos...";
  "Finalizando o vídeo, isso pode levar alguns minutos..."
]%string.

(** ** The remote service, as the handlers see it *)

Module GenAI.

Record InlineData := { data : string; mimeType : string }.

(** A part of a request or of a response. *)
Record Part := { text : option string; inlineData : option InlineData }.

Definition textPart (t : string) : Part :=
  {| text := Some t; inlineData := None |}.

Definition inlinePart (d m : string) : Part :=
  {| text := None; inlineData := Some {| data := d; mimeType := m |} |}.

(** The [content] of a candidate; the SDK declares [parts] optional. *)
Record Content := { parts : option (list Part) }.

(** A candidate; the SDK declares [content] optional, and a candidate that
    was stopped before it produced anything comes without it. *)
Record Candidate := { content : option Content }.

Record GenerateContentResponse := { candidates : option (list Candidate) }.

Record GenerateContentParameters := { model : string; contents : list Part }.

Record Image := { imageBytes : string; imageMimeType : string }.

Record GenerateVideosParameters := {
  videoModel : string;
  prompt : string;
  image : option Image;
  numberOfVideos : Z
}.

(** A video operation: [done] and
    [response?.generatedVideos?.[0]?.video?.uri]. *)
Record Operation := { done : bool; uri : option string }.

End GenAI.

(** ** The component: what a handler reads and what it writes *)

Module App.

Import Compositor.
Local Open Scope string_scope.
Local Open Scope list_scope.

(** The values a handler closes over: the environment's credential and the
    [useState] values of the render in which the handler was created.  No
    modelled handler writes them. *)
Record Render := {
  API_KEY : option string;          (* process.env.API_KEY *)
  tool : AiTool;
  prompt : string;
  sourceImage : option File.File;
  aspectRatio : AspectRatio
}.

(** The [useState] cells the modelled handlers write. *)
Record State := {
  resultImage : option string;
  resultVideoUrl : option string;
  isLoading : bool;
  loadingMessage : string;
  error : string;
  history : list HistoryItem.HistoryItem
}.

(** The state of the first render (lines 338-344). *)
Definition initialState : State := {|
  resultImage := None; resultVideoUrl := None; isLoading := false;
  loadingMessage := ""; error := ""; history := []
|}.

Definition setResultImage (v : option string) (s : State) : State :=
  {| resultImage := v; resultVideoUrl := resultVideoUrl s;
     isLoading := isLoading s; loadingMessage := loadingMessage s;
     error := error s; history := history s |}.

Definition setResultVideoUrl (v : option string) (s : State) : State :=
  {| resultImage := resultImage s; resultVideoUrl := v;
     isLoading := isLoading s; loadingMessage := loadingMessage s;
     error := error s; history := history s |}.

Definition setIsLoading (v : bool) (s : State) : State :=
  {| resultImage := resultImage s; resultVideoUrl := resultVideoUrl s;
     isLoading := v; loadingMessage := loadingMessage s;
     error := error s; history := history s |}.

Definition setLoadingMessage (v : string) (s : State) : State :=
  {| resultImage := resultImage s; resultVideoUrl := resultVideoUrl s;
     isLoading := isLoading s; loadingMessage := v;
     error := error s; history := history s |}.

Definition setError (v : string) (s : State) : State :=
  {| resultImage := resultImage s; resultVideoUrl := resultVideoUrl s;
     isLoading := isLoading s; loadingMessage := loadingMessage s;
     error := v; history := history s |}.

(** [setHistory(prev => f(prev))]. *)
Definition setHistory (f : list HistoryItem.HistoryItem -> list HistoryItem.HistoryItem)
    (s : State) : State :=
  {| resultImage := resultImage s; resultVideoUrl := resultVideoUrl s;
     isLoading := isLoading s; loadingMessage := loadingMessage s;
     error := error s; history := f (history s) |}.

(** Truthiness of a string that may be absent: [undefined] and [''] are falsy. *)
Definition truthy (v : option string) : bool :=
  match v with
  | None => false
  | Some s => negb (String.eqb s "")
  end.

(** The SDK client. *)
Inductive GoogleGenAI := Client (apiKey : string).

(** [const ai = useMemo(...)] (lines 349-355): [null] without a key. *)
Definition ai (r : Render) : option GoogleGenAI :=
  match API_KEY r with
  | Some k => if String.eqb k "" then None else Some (Client k)
  | None => None
  end.

(** [addToHistory] (lines 418-428).  [d1] and [d2] are the two [new Date()]
    objects it makes; [prompt] and [tool] are those of the handler's render. *)
Definition newItem (r : Render) (d1 d2 : Date.Date)
    (resultUrl : string) (resultType : ResultType) : HistoryItem.HistoryItem :=
  {| HistoryItem.id := Str.showInt (Date.getTime d1);
     HistoryItem.type := resultType;
     HistoryItem.url := resultUrl;
     HistoryItem.prompt := prompt r;
     HistoryItem.tool := tool r;
     HistoryItem.timestamp := Date.toLocaleString_ptBR d2 |}.

Definition addToHistory (r : Render) (d1 d2 : Date.Date)
    (resultUrl : string) (resultType : ResultType) (s : State) : State :=
  let newItem := newItem r d1 d2 resultUrl resultType in
  setHistory (fun prev => newItem :: prev) s.

(** A browser session: the state after the items [made] were created, oldest
    first.  A successful generation calls [addToHistory]; every other event
    of the component leaves the history cell alone ([setHistory] has no
    other caller). *)
Inductive Session : list HistoryItem.HistoryItem -> State -> Prop :=
| Session_start : Session [] initialState
| Session_generation : forall made s r d1 d2 resultUrl resultType,
    Session made s ->
    Session (made ++ [newItem r d1 d2 resultUrl resultType])
            (addToHistory r d1 d2 resultUrl resultType s)
| Session_other : forall made s s',
    Session made s -> history s' = history s -> Session made s'.

(** ** Asynchronous code *)

(** A thrown value and [e instanceof Error ? e.message : String(e)]. *)
Inductive Thrown :=
| ErrorObject (message : string)
| OtherValue (asString : string).

Definition errorMessage (e : Thrown) : string :=
  match e with
  | ErrorObject message => message
  | OtherValue asString => asString
  end.

(** What a handler does besides writing the state, in order. *)
Inductive Effect :=
| LoadingMessage (message : string)   (* a setLoadingMessage of the handler *)
| SetTimeout (ms : Z)                 (* await new Promise(r => setTimeout(r, ms)) *)
| PollOperation (poll : nat).         (* await ai.operations.getVideosOperation(..) *)

(** An [async] computation started in a state: [None] when its promise never
    settles; otherwise the rejection ([inl]) or the value ([inr]), the state
    it leaves and the effects it had. *)
Definition Async (A : Type) : Type :=
  State -> option ((Thrown + A) * State * list Effect).

Definition Async_ret {A} (a : A) : Async A :=
  fun s => Some (inr a, s, []).

Definition Async_bind {A B} (c : Async A) (k : A -> Async B) : Async B :=
  fun s =>
    match c s with
    | None => None
    | Some (inl e, s1, t1) => Some (inl e, s1, t1)
    | Some (inr a, s1, t1) =>
        match k a s1 with
        | None => None
        | Some (r, s2, t2) => Some (r, s2, t1 ++ t2)
        end
    end.

#[export] Instance Monad_Async : Monad Async :=
  {| ret := @Async_ret; bind := @Async_bind |}.

(** [throw e]. *)
Definition throw {A} (e : Thrown) : Async A :=
  fun s => Some (inl e, s, []).

(** [await p] for a promise of the environment that settles as [r]. *)
Definition await {A} (r : Thrown + A) : Async A :=
  fun s => Some (r, s, []).

(** A promise that stays pending. *)
Definition pending {A} : Async A := fun _ => None.

(** A state setter called by a handler. *)
Definition set (f : State -> State) : Async unit :=
  fun s => Some (inr tt, f s, []).

Definition effect (e : Effect) : Async unit :=
  fun s => Some (inr tt, s, [e]).

(** A task handed to [runAI]: [task k] is its [k]-th call (from 0). *)
Definition Task : Type := nat -> Async unit.

(** A task that adds to the history at most one item, of its render, in
    front, and only in a call that resolves. *)
Definition keepsHistoryInOrder (r : Render) (task : Task) : Prop :=
  forall k s res s' effects,
    task k s = Some (res, s', effects) ->
    match res with
    | inl _ => history s' = history s
    | inr _ =>
        history s' = history s
        \/ exists d1 d2 resultUrl resultType,
             history s' = newItem r d1 d2 resultUrl resultType :: history s
    end.

(** ** The task runner *)

(** What [runAI] does, in order. *)
Inductive Event :=
| Attempt (attempt : nat)                      (* await task() *)
| TaskEffect (e : Effect)                      (* an effect of the running task *)
| ConsoleError (attemptNo : nat) (e : Thrown)  (* console.error(..) in the catch *)
| Progress (message : string)                  (* setLoadingMessage in the catch *)
| Backoff (ms : Z).                            (* the awaited setTimeout(resolve, delay) *)

(** [errorMessage.includes('429') || /RESOURCE_EXHAUSTED/i.test(errorMessage)] *)
Definition isRateLimitError (errorMessage : string) : bool :=
  Str.includes "429" errorMessage
  || Str.testLiteralIgnoreCase "RESOURCE_EXHAUSTED" errorMessage.

Definition quotaMessage : string :=
  "Cota de Uso Excedida. A API gratuita tem um limite de solicitações por minuto. Tentamos algumas vezes, mas o erro persiste. Por favor, aguarde um pouco antes de tentar novamente.".

Definition genericMessage (errorMessage : string) : string :=
  ("Ocorreu um erro: " ++ errorMessage)%string.

Definition retryMessage (delay : Z) : string :=
  ("Limite de API atingido. Tentando novamente em "
     ++ Str.showDiv1000 delay ++ "s...")%string.

Section Runner.

(** [const maxRetries = 2; const initialDelay = 2000] in the source. *)
Variable maxRetries : nat.
Variable initialDelay : Z.

(** The [for] loop of [runAI] (lines 597-624) over the values [attempt] is
    still to take.  The empty list is the loop condition failing. *)
Fixpoint attemptLoop (task : Task) (attempts : list nat) (s : State)
  : option (State * list Event) :=
  match attempts with
  | [] => Some (s, [])
  | attempt :: later =>
      match task attempt s with
      | None => None
      | Some (inr _, s1, effects) =>
          (* Success *)
          Some (setIsLoading false s1, Attempt attempt :: map TaskEffect effects)
      | Some (inl e, s1, effects) =>
          let errorMessage := errorMessage e in
          let isRateLimitError := isRateLimitError errorMessage in
          let sofar :=
            Attempt attempt :: map TaskEffect effects
              ++ [ConsoleError (attempt + 1) e] in
          if isRateLimitError && (attempt <? maxRetries)%nat then
            let delay := initialDelay * 2 ^ Z.of_nat attempt in
            let s2 := setLoadingMessage (retryMessage delay) s1 in
            match attemptLoop task later s2 with
            | None => None
            | Some (s3, events) =>
                Some (s3, sofar ++ [Progress (retryMessage delay); Backoff delay] ++ events)
            end
          else
            (* Final attempt failed or it's a different error *)
            let s2 :=
              if isRateLimitError then setError quotaMessage s1
              else setError (genericMessage errorMessage) s1 in
            Some (setIsLoading false s2, sofar)
      end
  end.

(** [for (let attempt = 0; attempt <= maxRetries; attempt++)] *)
Definition runLoop (task : Task) (s : State) : option (State * list Event) :=
  attemptLoop task (seq 0 (S maxRetries)) s.

End Runner.

(** [runAI] (lines 583-625). *)
Definition runAI (r : Render) (task : Task) (message : string) (s : State)
  : option (State * list Event) :=
  match ai r with
  | None =>
      Some (setError "API não inicializada. Verifique se a chave de API está configurada." s, [])
  | Some _ =>
      let s := setIsLoading true s in
      let s := setLoadingMessage message s in
      let s := setError "" s in
      let s := setResultImage None s in
      let s := setResultVideoUrl None s in
      runLoop 2 2000 task s
  end.

(** Projections of a run. *)
Definition attemptsOf (events : list Event) : list nat :=
  flat_map (fun ev => match ev with Attempt k => [k] | _ => [] end) events.

Definition backoffsOf (events : list Event) : list Z :=
  flat_map (fun ev => match ev with Backoff ms => [ms] | _ => [] end) events.

Definition progressOf (events : list Event) : list string :=
  flat_map (fun ev => match ev with Progress m => [m] | _ => [] end) events.

(** The attempts, progress messages and waits of a run, in their order. *)
Definition scheduleOf (events : list Event) : list Event :=
  filter (fun ev => match ev with
                    | Attempt _ | Progress _ | Backoff _ => true
                    | _ => false
                    end) events.

(** [count] retries from attempt [first] on, as the loop schedules them: the
    attempt, the progress message for its delay, the wait. *)
Definition retries (initialDelay : Z) (first count : nat) : list Event :=
  flat_map (fun attempt =>
              let delay := initialDelay * 2 ^ Z.of_nat attempt in
              [Attempt attempt; Progress (retryMessage delay); Backoff delay])
           (seq first count).


(** ** The handlers *)

Import MonadNotation.
Local Open Scope monad_scope.

(** What one call of a handler meets outside the component: the browser's
    file reader, decoder and canvas, the remote service and the clock. *)
Record Services := {
  fileToBase64 : File.File -> Thrown + string;
  (* FileReader and Image of createExpansionCanvas: [None] when the image
     never loads, a rejection from reader.onerror, or (img.width, img.height) *)
  decodeImage : File.File -> option (Thrown + (Z * Z));
  canvasContext : bool;                        (* canvas.getContext('2d') is not null *)
  toDataURL : File.File -> Canvas float -> string;  (* payload of canvas.toDataURL(type) *)
  generateContent :
    GenAI.GenerateContentParameters -> Thrown + GenAI.GenerateContentResponse;
  generateVideos : GenAI.GenerateVideosParameters -> Thrown + GenAI.Operation;
  getVideosOperation : nat -> Thrown + GenAI.Operation;  (* the reply to the i-th poll *)
  dataUrlToBlob : string -> Thrown + string;   (* fetch(url) then res.blob() *)
  createObjectURL : string -> string;
  (* the message of the TypeError the engine throws when the named property
     is read from undefined; its wording differs between engines *)
  typeErrorMessage : string -> string;
  date1 : Date.Date;
  date2 : Date.Date
}.

(** The promise [createExpansionCanvas] returns (lines 109-154). *)
Definition createExpansionCanvasPromise (io : Services)
    (imageFile : File.File) (targetRatioStr : AspectRatio) : Async (string * string) :=
  match decodeImage io imageFile with
  | None => pending
  | Some (inl e) => throw e
  | Some (inr (width, height)) =>
      if canvasContext io then
        let canvas := createExpansionCanvas (num := float) width height targetRatioStr in
        ret (toDataURL io imageFile canvas, File.type imageFile)
      else throw (ErrorObject "Could not get canvas context")
  end.

(** [response.candidates?.[0]?.content.parts.find(p => p.inlineData)] and then
    [imagePart?.inlineData] (lines 471-472 and 496-497).  The two [?.] stop
    the chain with [undefined] when there are no candidates; behind them
    [.content.parts.find] is an ordinary member access, which throws a
    TypeError when the first candidate has no [content], or its content no
    [parts].  A TypeError is an [Error]; [inr None] is [undefined]. *)
Definition findInlineData (io : Services) (response : GenAI.GenerateContentResponse)
  : Thrown + option GenAI.InlineData :=
  match GenAI.candidates response with
  | Some (candidate :: _) =>
      match GenAI.content candidate with
      | None => inl (ErrorObject (typeErrorMessage io "parts"))
      | Some content =>
          match GenAI.parts content with
          | None => inl (ErrorObject (typeErrorMessage io "find"))
          | Some parts =>
              match find (fun p => match GenAI.inlineData p with
                                   | Some _ => true
                                   | None => false
                                   end) parts with
              | Some imagePart => inr (GenAI.inlineData imagePart)
              | None => inr None
              end
          end
      end
  | _ => inr None
  end.

Definition dataUrl (d : GenAI.InlineData) : string :=
  ("data:" ++ GenAI.mimeType d ++ ";base64," ++ GenAI.data d)%string.

(** [processImageWithPrompt] (lines 463-479). *)
Definition processImageWithPrompt (r : Render) (io : nat -> Services)
    (modelPrompt : string) : Task := fun k =>
  match ai r, sourceImage r with
  | Some _, Some sourceImage =>
      data <- await (fileToBase64 (io k) sourceImage) ;;
      response <- await (generateContent (io k)
        {| GenAI.model := "gemini-2.5-flash-image-preview";
           GenAI.contents := [GenAI.textPart modelPrompt;
                              GenAI.inlinePart data (File.type sourceImage)] |}) ;;
      inlineData <- await (findInlineData (io k) response) ;;
      match inlineData with
      | Some inlineData =>
          let imageUrl := dataUrl inlineData in
          set (setResultImage (Some imageUrl)) ;;
          set (addToHistory r (date1 (io k)) (date2 (io k)) imageUrl image)
      | None => throw (ErrorObject "A IA não retornou uma imagem editada.")
      end
  | _, _ => ret tt
  end.

(** The double quote of the template strings. *)
Definition dq : string := String (ascii_of_nat 34) "".

(** [prompt || fallback] *)
Definition orElse (p fallback : string) : string :=
  if String.eqb p "" then fallback else p.

(** The [detailedPrompt] of [handleImageExpander] (line 489). *)
Definition expansionPrompt (prompt : string) : string :=
  ("Sua tarefa é um 'outpainting' fotorrealista e contextual. A imagem fornecida é um recorte de uma cena maior. Sua missão é preencher as áreas em branco, estendendo a cena original com coesão absoluta. A transição entre o original e o gerado deve ser invisível. Mantenha rigorosamente a mesma iluminação, textura, profundidade de campo, estilo e, crucialmente, a consistência de perspectiva e escala. O resultado deve ser uma imagem única e expansiva, com realismo impecável. Contexto para a expansão: "
     ++ dq ++ orElse prompt "expanda a cena de forma lógica e natural" ++ dq)%string.

(** [handleImageExpander] (lines 484-502). *)
Definition handleImageExpander (r : Render) (io : nat -> Services) : Task := fun k =>
  match ai r, sourceImage r with
  | Some _, Some sourceImage =>
      '(base64, mimeType) <-
        createExpansionCanvasPromise (io k) sourceImage (aspectRatio r) ;;
      let detailedPrompt := expansionPrompt (prompt r) in
      response <- await (generateContent (io k)
        {| GenAI.model := "gemini-2.5-flash-image-preview";
           GenAI.contents := [GenAI.textPart detailedPrompt;
                              GenAI.inlinePart base64 mimeType] |}) ;;
      inlineData <- await (findInlineData (io k) response) ;;
      match inlineData with
      | Some inlineData =>
          let imageUrl := dataUrl inlineData in
          set (setResultImage (Some imageUrl)) ;;
          set (addToHistory r (date1 (io k)) (date2 (io k)) imageUrl image)
      | None => set (setError "Não foi possível expandir a imagem.")
      end
  | _, _ => ret tt
  end.


Definition handleQualityImprover (r : Render) (io : nat -> Services) : Task :=
  processImageWithPrompt r io "Realize um aprimoramento de imagem de nível de estúdio (upscale 2x). Sua missão é a reconstrução de textura e o aprimoramento de micro-contraste. Use IA para inferir e gerar detalhes fotorrealistas que foram perdidos. Aumente a nitidez de forma inteligente, focando nas bordas sem criar halos. Aplique redução de ruído que distinga entre ruído e textura fina. Otimize a gama de cores e o balanço de branco para um resultado profissional e vibrante. A imagem final deve ter clareza e detalhes impecáveis, como se fosse de uma fonte de resolução nativa superior.".

(** A [setLoadingMessage] of a handler: written to the state and observed. *)
Definition showLoadingMessage (m : string) : Async unit :=
  set (setLoadingMessage m) ;; effect (LoadingMessage m).

(** [VIDEO_GENERATION_MESSAGES[messageIndex % VIDEO_GENERATION_MESSAGES.length]] *)
Definition videoMessage (messageIndex : nat) : string :=
  nth (messageIndex mod length VIDEO_GENERATION_MESSAGES) VIDEO_GENERATION_MESSAGES "".

(** The [while (!operation.done)] loop of [handleAnimateImage] (lines 565-571).
    The source has no bound on it; [fuel] is how many polls the model follows,
    and [pending] is the answer when the operation is still not done then. *)
Fixpoint pollLoop (fuel : nat) (io : Services)
    (operation : GenAI.Operation) (messageIndex : nat) : Async GenAI.Operation :=
  if GenAI.done operation then ret operation
  else
    match fuel with
    | O => pending
    | S fuel' =>
        showLoadingMessage (videoMessage messageIndex) ;;
        effect (SetTimeout 10000) ;;
        effect (PollOperation messageIndex) ;;
        operation' <- await (getVideosOperation io messageIndex) ;;
        pollLoop fuel' io operation' (S messageIndex)
    end.

(** [handleAnimateImage] (lines 544-581). *)
Definition handleAnimateImage (fuel : nat) (r : Render) (io : nat -> Services)
  : Task := fun k =>
  match ai r with
  | None => ret tt
  | Some _ =>
      if truthy (API_KEY r) then
        let apiKey := match API_KEY r with Some key => key | None => "" end in
        imagePayload <-
          match sourceImage r with
          | Some sourceImage =>
              bytes <- await (fileToBase64 (io k) sourceImage) ;;
              ret (Some {| GenAI.imageBytes := bytes;
                           GenAI.imageMimeType := File.type sourceImage |})
          | None => ret None
          end ;;
        let finalPrompt :=
          ("Crie uma animação de vídeo cinematográfica de alta fidelidade. Se uma imagem for fornecida, anime-a com movimentos sutis e realistas ('live photo' effect), respeitando a física da cena e a profundidade (efeito paralaxe). Se não houver imagem, gere o vídeo. Incorpore movimentos de câmera suaves (como um leve pan ou dolly zoom) para adicionar dinamismo. Foque em animações de partículas (poeira, luz) para aumentar a atmosfera. O resultado deve ser um clipe de vídeo com movimentos fluidos e iluminação dinâmica. Prompt do usuário: "
            ++ dq ++ orElse (prompt r) "Anime esta imagem com um movimento sutil e cinematográfico." ++ dq)%string in
        operation <- await (generateVideos (io k)
          {| GenAI.videoModel := "veo-2.0-generate-001";
             GenAI.prompt := finalPrompt;
             GenAI.image := imagePayload;
             GenAI.numberOfVideos := 1 |}) ;;
        operation <- pollLoop fuel (io k) operation 0 ;;
        let downloadLink := GenAI.uri operation in
        if truthy downloadLink then
          let link := match downloadLink with Some u => u | None => "" end in
          let videoUrl := (link ++ "&key=" ++ apiKey)%string in
          blob <- await (dataUrlToBlob (io k) videoUrl) ;;
          let blobUrl := createObjectURL (io k) blob in
          set (setResultVideoUrl (Some blobUrl)) ;;
          set (addToHistory r (date1 (io k)) (date2 (io k)) blobUrl video)
        else set (setError "Falha ao gerar o vídeo.")
      else set (setError "Chave de API não encontrada.")
  end.

End App.

(** ** Sample inputs *)

Module Samples.

Import Compositor App.
Local Open Scope string_scope.

Definition photo : File.File := {| File.name := "photo.png"; File.type := "image/png" |}.

(** A render of the expander with a key, an image and no prompt. *)
Definition render : Render := {|
  API_KEY := Some "key"; tool := IMAGE_EXPANDER; prompt := "";
  sourceImage := Some photo; aspectRatio := R16_9
|}.

(** The same render without a key. *)
Definition renderNoKey : Render := {|
  API_KEY := None; tool := IMAGE_EXPANDER; prompt := "";
  sourceImage := Some photo; aspectRatio := R16_9
|}.


(** A task that always fails with a rate-limit error. *)
Definition alwaysRateLimited : Task :=
  fun _ => throw (ErrorObject "429 RESOURCE_EXHAUSTED").

(** A task that always fails with another error. *)
Definition alwaysBroken : Task :=
  fun _ => throw (ErrorObject "Failed to fetch").

(** A task that is rate-limited twice and then succeeds. *)
Definition twiceRateLimited : Task :=
  fun k => if (k <? 2)%nat then throw (ErrorObject "429 RESOURCE_EXHAUSTED") else ret tt.

Definition noon : Date.Date :=
  {| Date.getTime := 1700000000000; Date.toLocaleString_ptBR := "14/11/2023, 19:13:20" |}.

(** A response whose only part is text: no image. *)
Definition textOnly : GenAI.GenerateContentResponse :=
  {| GenAI.candidates :=
       Some [ {| GenAI.content :=
                   Some {| GenAI.parts := Some [GenAI.textPart "Desculpe."] |} |} ] |}.


(** A response whose first candidate has a content without parts. *)
Definition noParts : GenAI.GenerateContentResponse :=
  {| GenAI.candidates :=
       Some [ {| GenAI.content := Some {| GenAI.parts := None |} |} ] |}.

(** A response without candidates. *)
Definition noCandidates : GenAI.GenerateContentResponse :=
  {| GenAI.candidates := None |}.

(** The wording of V8 for a property read from undefined. *)
Definition v8TypeErrorMessage (property : string) : string :=
  "Cannot read properties of undefined (reading '" ++ property ++ "')".

(** A response with an image part. *)
Definition withImage : GenAI.GenerateContentResponse :=
  {| GenAI.candidates :=
       Some [ {| GenAI.content :=
                   Some {| GenAI.parts :=
                             Some [GenAI.textPart "Pronto.";
                                   GenAI.inlinePart "iVBORw0KGgo" "image/png"] |} |} ] |}.

(** A service that answers every content request with [response] and whose
    video operation is done at the [polls]-th poll. *)
Definition service (response : GenAI.GenerateContentResponse) (polls : nat)
  : nat -> Services := fun _ => {|
  fileToBase64 := fun _ => inr "QUJD";
  decodeImage := fun _ => Some (inr (400, 400));
  canvasContext := true;
  toDataURL := fun _ _ => "REVG";
  generateContent := fun _ => inr response;
  generateVideos := fun _ =>
    inr {| GenAI.done := (polls =? 0)%nat; GenAI.uri := Some "https://video/1?alt=media" |};
  getVideosOperation := fun i =>
    inr {| GenAI.done := (polls <=? S i)%nat; GenAI.uri := Some "https://video/1?alt=media" |};
  dataUrlToBlob := fun u => inr u;
  createObjectURL := fun b => "blob:" ++ b;
  typeErrorMessage := v8TypeErrorMessage;
  date1 := noon;
  date2 := noon
|}.


End Samples.

(** ** More of the string functions the component uses *)

Module JsString.

Local Open Scope string_scope.

(** [s.indexOf(c)] for a one-character [c]: its first position, or -1. *)
Fixpoint indexOf (c : ascii) (s : string) : Z :=
  match s with
  | EmptyString => -1
  | String a s' =>
      if Ascii.eqb a c then 0
      else let i := indexOf c s' in if (i <? 0)%Z then -1 else (i + 1)%Z
  end.

(** [s.substring(start, end)]: each argument is clamped to [0, s.length] and
    the two are swapped when [start] is the larger. *)
Definition substring (start finish : Z) (s : string) : string :=
  let len := Z.of_nat (String.length s) in
  let intStart := Z.min (Z.max start 0) len in
  let intEnd := Z.min (Z.max finish 0) len in
  let from := Z.min intStart intEnd in
  let to := Z.max intStart intEnd in
  String.substring (Z.to_nat from) (Z.to_nat (to - from)) s.

(** [s.replace(/c/g, d)] for one-character [c] and [d]. *)
Fixpoint replaceAll (c d : ascii) (s : string) : string :=
  match s with
  | EmptyString => EmptyString
  | String a s' => String (if Ascii.eqb a c then d else a) (replaceAll c d s')
  end.

(** [c] occurs in [s]. *)
Fixpoint occurs (c : ascii) (s : string) : bool :=
  match s with
  | EmptyString => false
  | String a s' => Ascii.eqb a c || occurs c s'
  end.

(** [s.endsWith(p)]. *)
Definition endsWith (p s : string) : bool :=
  let n := String.length s in
  let m := String.length p in
  (m <=? n)%nat && String.eqb (String.substring (n - m) m s) p.

End JsString.

(** ** Data URLs and file names *)

Module DataUrl.

Local Open Scope string_scope.

(** [dataUrlToMimeType] (lines 100-102). *)
Definition dataUrlToMimeType (dataUrl : string) : string :=
  JsString.substring (JsString.indexOf ":" dataUrl + 1)
                     (JsString.indexOf ";" dataUrl) dataUrl.

(** [dataUrl.split(',')[1]], the value [fileToBase64] resolves with (line 96)
    and the payload [createExpansionCanvas] returns (line 145); [None] is
    [undefined], when the string has no comma. *)
Definition payload (dataUrl : string) : option string :=
  nth_error (Str.split "," dataUrl) 1.

(** [blob.type.split('/')[1] || 'png'] (line 381). *)
Definition reuseExtension (blobType : string) : string :=
  match nth_error (Str.split "/" blobType) 1 with
  | Some subtype => if String.eqb subtype "" then "png" else subtype
  | None => "png"
  end.

(** The name of the file [handleHistoryReuse] makes (line 381). *)
Definition reuseFileName (item : HistoryItem.HistoryItem) (blobType : string)
  : string :=
  "history-item-" ++ HistoryItem.id item ++ "." ++ reuseExtension blobType.

(** The values of [enum AiTool] (lines 5-13). *)
Definition toolName (t : AiTool) : string :=
  match t with
  | CREATOR_EDITOR => "Criador & Editor"
  | WATERMARK_REMOVER => "Remover Marca d'Água"
  | QUALITY_IMPROVER => "Melhorar Qualidade (2x)"
  | IMAGE_EXPANDER => "Expandir Imagem"
  | STYLE_CLONER => "Clonador de Estilo"
  | CHARACTER_CLONER => "Clonador de Personagem"
  | IMAGE_ANIMATOR => "Animar Imagem"
  end.

(** [const TOOLS = Object.values(AiTool)] (line 15). *)
Definition TOOLS : list AiTool :=
  [CREATOR_EDITOR; WATERMARK_REMOVER; QUALITY_IMPROVER; IMAGE_EXPANDER;
   STYLE_CLONER; CHARACTER_CLONER; IMAGE_ANIMATOR].

(** The [a.download] of [handleHistoryDownload] (line 398). *)
Definition downloadName (item : HistoryItem.HistoryItem) : string :=
  JsString.replaceAll " " "_" (toolName (HistoryItem.tool item))
  ++ "-" ++ HistoryItem.id item ++ "."
  ++ match HistoryItem.type item with image => "png" | video => "mp4" end.

End DataUrl.

(** * Properties *)

(** ** The canvas compositor *)

Section CompositorFacts.

Import Compositor.

(** The five literals split into these width and height parts. *)
Lemma splitRatio_table :
  map splitRatio ASPECT_RATIOS = [(1, 1); (3, 4); (4, 3); (16, 9); (9, 16)].
Proof. reflexivity. Qed.

Lemma targetRatio_table :
  map (targetRatio (num := Q)) ASPECT_RATIOS
  = [1 # 1; 3 # 4; 4 # 3; 16 # 9; 9 # 16]%Q.
Proof. reflexivity. Qed.

Lemma ASPECT_RATIOS_complete : forall t : AspectRatio, In t ASPECT_RATIOS.
Proof. intros []; simpl; tauto. Qed.

(** C1. For a source image of positive width and height and each of the five
    target ratios, [createExpansionCanvas] leaves: when the target ratio [R]
    is greater than [width / height], the source height as canvas height,
    [height * R] as canvas width, vertical offset 0 and horizontal offset
    [(canvasWidth - width) / 2]; otherwise the source width as canvas width,
    [width / R] as canvas height, horizontal offset 0 and vertical offset
    [(canvasHeight - height) / 2].  This holds in either arithmetic. *)
Theorem createExpansionCanvas_formulas :
  forall (num : Type) (arith : JsNumber num)
         (sourceWidth sourceHeight : Z) (t : AspectRatio),
    0 < sourceWidth -> 0 < sourceHeight ->
    let R := targetRatio t in
    let c := createExpansionCanvas sourceWidth sourceHeight t in
    if gtb R (div (ofInt sourceWidth) (ofInt sourceHeight)) then
      canvasHeight c = ofInt sourceHeight
      /\ canvasWidth c = mul (ofInt sourceHeight) R
      /\ offsetY c = ofInt 0
      /\ offsetX c = div (sub (canvasWidth c) (ofInt sourceWidth)) (ofInt 2)
    else
      canvasWidth c = ofInt sourceWidth
      /\ canvasHeight c = div (ofInt sourceWidth) R
      /\ offsetX c = ofInt 0
      /\ offsetY c = div (sub (canvasHeight c) (ofInt sourceHeight)) (ofInt 2).
Proof.
  intros num arith W H t _ _ R c. subst R c.
  unfold createExpansionCanvas, imgRatio.
  destruct (gtb (targetRatio t) (div (ofInt W) (ofInt H)));
    cbn [canvasWidth canvasHeight offsetX offsetY]; repeat split.
Qed.

Lemma createExpansionCanvas_formulas_witness :
  let c := createExpansionCanvas (num := float) 400 400 R16_9 in
  canvasHeight c = 400%float
  /\ canvasWidth c = (400 * (16 / 9))%float
  /\ offsetY c = 0%float
  /\ offsetX c = ((canvasWidth c - 400) / 2)%float.
Proof.
  exact (@createExpansionCanvas_formulas float JsNumber_float 400 400 R16_9
           (eq_refl : 0 < 400) (eq_refl : 0 < 400)).
Defined.

(** The comparison and the ratio, read in exact arithmetic. *)
Lemma Q_gtb_true (a b : Q) : gtb a b = true <-> (b < a)%Q.
Proof.
  simpl. rewrite negb_true_iff. split; intro Hab.
  - apply Qnot_le_lt. intro Hle. apply Qle_bool_iff in Hle. congruence.
  - destruct (Qle_bool a b) eqn:E; [|reflexivity].
    apply Qle_bool_iff in E. apply Qle_not_lt in E. contradiction.
Qed.

Lemma Q_gtb_false (a b : Q) : gtb a b = false <-> (a <= b)%Q.
Proof. simpl. rewrite negb_false_iff. apply Qle_bool_iff. Qed.

Lemma inject_Z_pos (z : Z) : 0 < z -> (0 < inject_Z z)%Q.
Proof. intro Hz. unfold Qlt. simpl. lia. Qed.

Lemma imgRatio_lt (W H : Z) (R : Q) :
  0 < H -> (imgRatio W H < R)%Q <-> (inject_Z W < R * inject_Z H)%Q.
Proof.
  intros HH. unfold imgRatio. simpl.
  pose proof (inject_Z_pos HH) as Hpos.
  assert (~ inject_Z H == 0)%Q as Hnz by lra.
  split; intro Hlt.
  - setoid_replace (inject_Z W) with (inject_Z W / inject_Z H * inject_Z H)%Q
      by (field; assumption).
    apply Qmult_lt_r; assumption.
  - apply Qlt_shift_div_r; assumption.
Qed.

Lemma imgRatio_ge (W H : Z) (R : Q) :
  0 < H -> (R <= imgRatio W H)%Q <-> (R * inject_Z H <= inject_Z W)%Q.
Proof.
  intros HH. split; intro Hle; apply Qnot_lt_le; intro Hc.
  - apply (imgRatio_lt W R HH) in Hc. lra.
  - apply (imgRatio_lt W R HH) in Hc. lra.
Qed.

Lemma targetRatio_pos (t : AspectRatio) : (0 < targetRatio (num := Q) t)%Q.
Proof. destruct t; reflexivity. Qed.

(** Half of a non-negative margin is a margin on both sides. *)
Lemma centred (w x : Q) :
  (w <= x)%Q -> (0 <= (x - w) / 2)%Q /\ ((x - w) / 2 + w <= x)%Q.
Proof.
  intros Hwx. unfold Qdiv. change (/ 2)%Q with (1 # 2)%Q. split; lra.
Qed.

(** The two branches in exact arithmetic, with the comparison as the order
    of [Q]. *)
Lemma createExpansionCanvas_exact (W H : Z) (t : AspectRatio) :
  0 < W -> 0 < H ->
  let R := targetRatio (num := Q) t in
  let c := createExpansionCanvas (num := Q) W H t in
  ((inject_Z W / inject_Z H < R)%Q ->
     canvasHeight c = inject_Z H /\ canvasWidth c = (inject_Z H * R)%Q
     /\ offsetY c = 0%Q /\ offsetX c = ((canvasWidth c - inject_Z W) / 2)%Q)
  /\ ((R <= inject_Z W / inject_Z H)%Q ->
     canvasWidth c = inject_Z W /\ canvasHeight c = (inject_Z W / R)%Q
     /\ offsetX c = 0%Q /\ offsetY c = ((canvasHeight c - inject_Z H) / 2)%Q).
Proof.
  intros _ _ R c. subst R c. unfold createExpansionCanvas, imgRatio.
  cbn [div ofInt JsNumber_Q].
  split; intro Hcmp.
  - apply Q_gtb_true in Hcmp. rewrite Hcmp. repeat split.
  - apply Q_gtb_false in Hcmp. rewrite Hcmp. repeat split.
Qed.

(** The integer part of a number that is at least an integer is at least
    that integer. *)
Lemma canvasAttribute_ge (z : Z) (x : Q) :
  0 <= z -> (inject_Z z <= x)%Q -> z <= canvasAttribute x.
Proof.
  intros Hz Hle. unfold canvasAttribute. destruct x as [n d].
  unfold Qle in Hle. simpl in *.
  apply Z.quot_le_lower_bound; lia.
Qed.

(** In exact arithmetic the four computed numbers contain the source placed
    at the offsets: the canvas is at least as wide and as high as the source
    (and so is the integer part of either size), both offsets are
    non-negative, and [offsetX + width <= canvasWidth] and
    [offsetY + height <= canvasHeight]. *)
Lemma createExpansionCanvas_exact_contains_image :
  forall (sourceWidth sourceHeight : Z) (t : AspectRatio),
    0 < sourceWidth -> 0 < sourceHeight ->
    let c := createExpansionCanvas (num := Q) sourceWidth sourceHeight t in
    (inject_Z sourceWidth <= canvasWidth c)%Q
    /\ (inject_Z sourceHeight <= canvasHeight c)%Q
    /\ (0 <= offsetX c)%Q
    /\ (0 <= offsetY c)%Q
    /\ (offsetX c + inject_Z sourceWidth <= canvasWidth c)%Q
    /\ (offsetY c + inject_Z sourceHeight <= canvasHeight c)%Q
    /\ sourceWidth <= canvasAttribute (canvasWidth c)
    /\ sourceHeight <= canvasAttribute (canvasHeight c).
Proof.
  intros W H t HW HH c.
  enough ((inject_Z W <= canvasWidth c)%Q
          /\ (inject_Z H <= canvasHeight c)%Q
          /\ (0 <= offsetX c)%Q
          /\ (0 <= offsetY c)%Q
          /\ (offsetX c + inject_Z W <= canvasWidth c)%Q
          /\ (offsetY c + inject_Z H <= canvasHeight c)%Q) as Hgeometry.
  { destruct Hgeometry as (Hw & Hh & Hrest). repeat split; try tauto.
    - apply canvasAttribute_ge; [lia | exact Hw].
    - apply canvasAttribute_ge; [lia | exact Hh]. }
  subst c. unfold createExpansionCanvas.
  pose proof (inject_Z_pos HH) as HposH.
  pose proof (targetRatio_pos t) as HposR.
  destruct (gtb (targetRatio t) (imgRatio W H)) eqn:E;
    cbn [canvasWidth canvasHeight offsetX offsetY mul div sub ofInt JsNumber_Q].
  - (* wider than image *)
    apply Q_gtb_true in E. apply (imgRatio_lt W (targetRatio t) HH) in E.
    assert (inject_Z W <= inject_Z H * targetRatio t)%Q as Hfit by lra.
    destruct (centred Hfit) as [Hoff Hend].
    change (inject_Z 0) with 0%Q. change (inject_Z 2) with 2%Q.
    repeat split; try assumption; lra.
  - (* taller than image *)
    apply Q_gtb_false in E. apply (imgRatio_ge W (targetRatio t) HH) in E.
    assert (inject_Z H <= inject_Z W / targetRatio t)%Q as Hfit.
    { apply Qle_shift_div_l; [assumption | lra]. }
    destruct (centred Hfit) as [Hoff Hend].
    change (inject_Z 0) with 0%Q. change (inject_Z 2) with 2%Q.
    repeat split; try assumption; lra.
Qed.

(** The integer part is the floor of a number that is not negative. *)
Lemma canvasAttribute_floor (x : Q) :
  (0 <= x)%Q ->
  (inject_Z (canvasAttribute x) <= x)%Q
  /\ (x < inject_Z (canvasAttribute x) + 1)%Q.
Proof.
  destruct x as [n d]. unfold canvasAttribute, Qle, Qlt. simpl. intro Hn.
  rewrite Z.mul_1_r in Hn.
  rewrite Z.quot_div_nonneg by lia.
  pose proof (Z.mul_div_le n (Zpos d) ltac:(lia)).
  pose proof (Z.mul_succ_div_gt n (Zpos d) ltac:(lia)).
  split; nia.
Qed.

(** Which sizes are affected, in exact arithmetic: a source of [z] pixels
    centred on an axis of computed length [x >= z] ends inside the integer
    part of [x] unless the pad [x - z] is positive and less than one pixel. *)
Lemma centred_inside_integer_part (z : Z) (x : Q) :
  0 <= z -> (inject_Z z <= x)%Q ->
  (((x - inject_Z z) / 2 + inject_Z z <= inject_Z (canvasAttribute x))%Q
   <-> ~ (inject_Z z < x < inject_Z z + 1)%Q).
Proof.
  intros Hz Hle.
  assert (0 <= x)%Q as Hx.
  { apply Qle_trans with (inject_Z z); [|exact Hle].
    change 0%Q with (inject_Z 0). rewrite <- Zle_Qle. exact Hz. }
  destruct (canvasAttribute_floor Hx) as [Hlo Hhi].
  assert (z <= canvasAttribute x) as Hq.
  { apply Z.lt_succ_r. rewrite Zlt_Qlt. unfold Z.succ. rewrite inject_Z_plus.
    change (inject_Z 1) with 1%Q. lra. }
  unfold Qdiv. change (/ 2)%Q with (1 # 2)%Q.
  destruct (Z.eq_dec z (canvasAttribute x)) as [Heq | Hne].
  - rewrite <- Heq in *. split; intro Hc; [lra|].
    destruct (Qlt_le_dec (inject_Z z) x) as [Hlt | Hge]; [|lra].
    exfalso. apply Hc. split; assumption.
  - assert (z + 1 <= canvasAttribute x) as Hstep by lia.
    rewrite Zle_Qle, inject_Z_plus in Hstep. change (inject_Z 1) with 1%Q in Hstep.
    split; intro Hc; lra.
Qed.

(** Those comparisons are on the computed numbers.  The integer height the
    canvas element keeps can be a fraction of a pixel short of them: a
    1000x1333 source at 3:4 gets canvasHeight 4000/3 and offsetY 1/6, and the
    element keeps a height of 1333. *)
Remark canvasAttribute_fraction_short :
  let c := createExpansionCanvas (num := Q) 1000 1333 R3_4 in
  (canvasHeight c == 4000 # 3)%Q
  /\ (offsetY c == 1 # 6)%Q
  /\ canvasAttribute (canvasHeight c) = 1333
  /\ (inject_Z (canvasAttribute (canvasHeight c)) < offsetY c + 1333)%Q.
Proof. cbv zeta. repeat split. Qed.

(** The integer part of the binary64 sizes: the canvas element of the
    400x400 source at 16:9 is 711 by 400; a size from 2147483648 on is
    replaced by the default, and the conversion wraps at 4294967296. *)
Example canvasElement_samples :
  canvasElement (createExpansionCanvas (num := float) 400 400 R16_9)
  = {| elementWidth := 711; elementHeight := 400 |}
  /\ reflectedSize 150 0x1p+31 = 150
  /\ reflectedSize 150 0x1p+32 = 0
  /\ reflectedSize 150 nan = 0.
Proof. vm_compute. repeat split. Qed.

(** C10, refuted as stated.  A 1000x1333 source at 3:4 takes the
    second branch: the canvas width is 1000 and the canvas height is
    1000 / 0.75 = 1333.33..., so the vertical offset is 0.1666...  The canvas
    element keeps the integer part of the height, 1333, which is the height
    of the source: the source, drawn at the positive offset, ends below the
    canvas, and [offsetY + sourceHeight <= canvas.height] is false.  The same
    happens to a 1366x768 source at 16:9 (canvas height 768.375, kept as 768,
    offset 0.1875).  The widths and the horizontal offsets are as claimed. *)
Theorem createExpansionCanvas_source_overhangs_canvas :
  (let c := createExpansionCanvas (num := float) 1000 1333 R3_4 in
   let e := canvasElement c in
   c = {| canvasWidth := 1000%float;
          canvasHeight := 0x1.4d55555555555p+10%float;
          offsetX := 0%float;
          offsetY := 0x1.5555555555p-3%float |}
   /\ e = {| elementWidth := 1000; elementHeight := 1333 |}
   /\ (PrimFloat.ltb 1333 (canvasHeight c) && PrimFloat.ltb (canvasHeight c) 1334
       && PrimFloat.ltb 0 (offsetY c))%float = true
   /\ PrimFloat.leb (offsetY c + 1333) (ofInt (elementHeight e)) = false
   /\ drawnInside e c 1000 1333 = false)
  /\ (let c := createExpansionCanvas (num := float) 1366 768 R16_9 in
      let e := canvasElement c in
      c = {| canvasWidth := 1366%float;
             canvasHeight := 768.375%float;
             offsetX := 0%float;
             offsetY := 0.1875%float |}
      /\ e = {| elementWidth := 1366; elementHeight := 768 |}
      /\ PrimFloat.leb (offsetY c + 768) (ofInt (elementHeight e)) = false
      /\ drawnInside e c 1366 768 = false).
Proof. vm_compute. repeat split. Qed.

(** C5, refuted as stated: for a 400x400 source and 16:9 the computed canvas
    width is not 712 and the horizontal offset is not (712 - 400) / 2, in
    exact arithmetic and in binary64, and the integer kept by the canvas
    width attribute is not 712 either. *)
Lemma expand_400_square_to_16_9_is_not_712 :
  let c := createExpansionCanvas (num := Q) 400 400 R16_9 in
  let f := createExpansionCanvas (num := float) 400 400 R16_9 in
  ~ (canvasWidth c == 712)%Q
  /\ ~ (offsetX c == (712 - 400) / 2)%Q
  /\ PrimFloat.eqb (canvasWidth f) 712 = false
  /\ PrimFloat.eqb (offsetX f) ((712 - 400) / 2) = false
  /\ canvasAttribute (canvasWidth c) <> 712.
Proof.
  cbv zeta. repeat split; try reflexivity; try discriminate.
Qed.

(** C5, as the code has it: a 400x400 source expanded to 16:9 gets canvas
    width 400 * 16/9 = 6400/9 (about 711.11, strictly between 711 and 712,
    with no rounding up; the canvas width attribute keeps 711), canvas
    height 400, horizontal offset (6400/9 - 400) / 2 = 1400/9 (about 155.56)
    and vertical offset 0.  The binary64 values are given as well. *)
Theorem expand_400_square_to_16_9 :
  let c := createExpansionCanvas (num := Q) 400 400 R16_9 in
  let f := createExpansionCanvas (num := float) 400 400 R16_9 in
  (canvasWidth c == 6400 # 9)%Q
  /\ (711 < canvasWidth c < 712)%Q
  /\ canvasAttribute (canvasWidth c) = 711
  /\ (canvasHeight c == 400)%Q
  /\ (offsetX c == (canvasWidth c - 400) / 2)%Q
  /\ (offsetX c == 1400 # 9)%Q
  /\ (offsetY c == 0)%Q
  /\ f = {| canvasWidth := 0x1.638e38e38e38ep+9%float;
            canvasHeight := 400%float;
            offsetX := 0x1.371c71c71c71cp+7%float;
            offsetY := 0%float |}
  /\ (PrimFloat.ltb 711 (canvasWidth f) && PrimFloat.ltb (canvasWidth f) 712
      && PrimFloat.ltb 155 (offsetX f) && PrimFloat.ltb (offsetX f) 156)%float
     = true.
Proof.
  cbv zeta. repeat split.
Qed.

End CompositorFacts.

(** ** Binary64 arithmetic of the compositor

    The primitive operations are specified by the functions of [SpecFloat];
    this section derives from them what the geometry needs: the result of an
    operation lies between the floats around the exact result. *)

Unset Implicit Arguments.

Section Binary64Facts.

Import Compositor Binary64.

#[local] Abbreviation fexp := (SpecFloat.fexp prec emax).
#[local] Abbreviation bounded := (SpecFloat.bounded prec emax).
#[local] Abbreviation binary_round_aux := (SpecFloat.binary_round_aux prec emax).
(** ** Powers of two *)

Lemma pow2_pos (n : Z) : 0 <= n -> 0 < 2 ^ n.
Proof. intro Hn. apply Z.pow_pos_nonneg; lia. Qed.

Lemma pow2_add (a b : Z) : 0 <= a -> 0 <= b -> 2 ^ (a + b) = 2 ^ a * 2 ^ b.
Proof. intros Ha Hb. apply Z.pow_add_r; assumption. Qed.

Lemma pow2_le (a b : Z) : 0 <= a <= b -> 2 ^ a <= 2 ^ b.
Proof. intro Hab. apply Z.pow_le_mono_r; lia. Qed.

Lemma pow2_lt (a b : Z) : 0 <= a < b -> 2 ^ a < 2 ^ b.
Proof. intro Hab. apply Z.pow_lt_mono_r; lia. Qed.

(** ** The number of binary digits *)

Lemma digits2_pos_bounds (p : positive) :
  2 ^ (Zpos (digits2_pos p) - 1) <= Zpos p < 2 ^ Zpos (digits2_pos p).
Proof.
  induction p as [p IH | p IH |]; cbn [digits2_pos].
  - rewrite Pos2Z.inj_succ.
    replace (Z.succ (Zpos (digits2_pos p)) - 1) with (Z.succ (Zpos (digits2_pos p) - 1)) by lia.
    rewrite !Z.pow_succ_r by lia. lia.
  - rewrite Pos2Z.inj_succ.
    replace (Z.succ (Zpos (digits2_pos p)) - 1) with (Z.succ (Zpos (digits2_pos p) - 1)) by lia.
    rewrite !Z.pow_succ_r by lia. lia.
  - cbn. lia.
Qed.

Lemma digits2_pos_unique (p : positive) (k : Z) :
  2 ^ (k - 1) <= Zpos p < 2 ^ k -> Zpos (digits2_pos p) = k.
Proof.
  intros [Hlo Hhi]. pose proof (digits2_pos_bounds p) as [Dlo Dhi].
  assert (0 < k) as Hk.
  { destruct (Z.le_gt_cases k 0) as [Hle|]; [|assumption].
    exfalso. destruct (Z.eq_dec k 0) as [->|Hne].
    - cbn in Hhi. lia.
    - rewrite Z.pow_neg_r in Hhi by lia. lia. }
  destruct (Z.lt_trichotomy (Zpos (digits2_pos p)) k) as [Hlt | [Heq | Hgt]].
  - exfalso. assert (2 ^ Zpos (digits2_pos p) <= 2 ^ (k - 1)) by (apply pow2_le; lia). lia.
  - exact Heq.
  - exfalso. assert (2 ^ k <= 2 ^ (Zpos (digits2_pos p) - 1)) by (apply pow2_le; lia). lia.
Qed.

(** ** Shifting right *)

Lemma iter_pos_nat {A : Type} (f : A -> A) (p : positive) (x : A) :
  iter_pos f p x = Nat.iter (Pos.to_nat p) f x.
Proof.
  revert x. induction p as [p IH | p IH |]; intro x; cbn [iter_pos].
  - rewrite !IH. rewrite Pos2Nat.inj_xI, Nat.iter_succ_r.
    replace (2 * Pos.to_nat p)%nat with (Pos.to_nat p + Pos.to_nat p)%nat by lia.
    rewrite Nat.iter_add. reflexivity.
  - rewrite !IH. rewrite Pos2Nat.inj_xO.
    replace (2 * Pos.to_nat p)%nat with (Pos.to_nat p + Pos.to_nat p)%nat by lia.
    rewrite Nat.iter_add. reflexivity.
  - reflexivity.
Qed.

Lemma shr_1_m (mrs : shr_record) :
  0 <= shr_m mrs -> shr_m (shr_1 mrs) = shr_m mrs / 2.
Proof.
  destruct mrs as [m r s]. cbn [shr_m shr_1]. intro Hm.
  destruct m as [|[p|p|]|p]; cbn [shr_m]; try lia; try reflexivity.
  - rewrite Pos2Z.inj_xI. apply Z.div_unique with (r := 1); lia.
  - rewrite Pos2Z.inj_xO. apply Z.div_unique with (r := 0); lia.
Qed.

Lemma shr_1_inexact (mrs : shr_record) :
  0 <= shr_m mrs -> inexact mrs = false -> shr_m mrs mod 2 = 0 ->
  inexact (shr_1 mrs) = false.
Proof.
  destruct mrs as [m r s]. unfold inexact. cbn [shr_m shr_r shr_s shr_1].
  intros Hm Hrs Heven.
  destruct m as [|[p|p|]|p]; cbn [shr_r shr_s]; try lia; try (rewrite Hrs; reflexivity).
  - rewrite Pos2Z.inj_xI in Heven. exfalso.
    rewrite Z.add_comm, Z.mul_comm, Z.mod_add in Heven by lia. cbn in Heven. lia.
  - cbn in Heven. lia.
Qed.

Lemma shr_iter_m (n : nat) (mrs : shr_record) :
  0 <= shr_m mrs ->
  shr_m (Nat.iter n shr_1 mrs) = shr_m mrs / 2 ^ Z.of_nat n.
Proof.
  intro Hm. induction n as [|n IH].
  - cbn. rewrite Z.div_1_r. reflexivity.
  - rewrite Nat.iter_succ. rewrite shr_1_m.
    + rewrite IH, Nat2Z.inj_succ, Z.pow_succ_r by lia.
      rewrite Z.div_div by (try lia; apply pow2_pos; lia).
      f_equal. lia.
    + rewrite IH. apply Z.div_pos; [lia | apply pow2_pos; lia].
Qed.

Lemma shr_iter_exact (n : nat) (mrs : shr_record) :
  0 <= shr_m mrs -> inexact mrs = false ->
  shr_m mrs mod 2 ^ Z.of_nat n = 0 ->
  inexact (Nat.iter n shr_1 mrs) = false.
Proof.
  intros Hm Hrs. induction n as [|n IH]; intro Hmod.
  - exact Hrs.
  - rewrite Nat.iter_succ.
    rewrite Nat2Z.inj_succ, Z.pow_succ_r in Hmod by lia.
    pose proof (pow2_pos (Z.of_nat n) ltac:(lia)) as Hpos.
    assert (shr_m mrs = 2 * 2 ^ Z.of_nat n * (shr_m mrs / (2 * 2 ^ Z.of_nat n))) as Hdiv.
    { apply Z.div_exact; lia. }
    set (k := shr_m mrs / (2 * 2 ^ Z.of_nat n)) in *.
    apply shr_1_inexact.
    + rewrite shr_iter_m by assumption. apply Z.div_pos; lia.
    + apply IH. rewrite Hdiv.
      replace (2 * 2 ^ Z.of_nat n * k) with ((2 * k) * 2 ^ Z.of_nat n) by ring.
      apply Z.mod_mul. lia.
    + rewrite shr_iter_m by assumption. rewrite Hdiv.
      replace (2 * 2 ^ Z.of_nat n * k) with ((2 * k) * 2 ^ Z.of_nat n) by ring.
      rewrite Z.div_mul by lia.
      rewrite Z.mul_comm. apply Z.mod_mul. lia.
Qed.


(** ** Rounding *)

Lemma fexp_normal (z : Z) : -1074 <= z - 53 -> fexp z = z - 53.
Proof. intro Hz. unfold SpecFloat.fexp, SpecFloat.emin, prec, emax. lia. Qed.

Lemma shr_m_of_loc (m : Z) (l : location) : shr_m (shr_record_of_loc m l) = m.
Proof. destruct l as [|[]]; reflexivity. Qed.

Lemma round_nearest_even_bounds (mrs : shr_record) :
  let m1 := round_nearest_even (shr_m mrs) (loc_of_shr_record mrs) in
  shr_m mrs <= m1 <= shr_m mrs + 1 /\ (inexact mrs = false -> m1 = shr_m mrs).
Proof.
  destruct mrs as [m [] []]; unfold inexact; cbn; try destruct (Z.even m);
    repeat split; try lia; try discriminate.
Qed.

Lemma shr_normal (p : positive) (ex : Z) (l : location) :
  let d := Zpos (digits2_pos p) in
  53 <= d -> -1074 <= ex + (d - 53) ->
  exists mrs,
    shr_fexp prec emax (Zpos p) ex l = (mrs, ex + (d - 53))
    /\ shr_m mrs = Zpos p / 2 ^ (d - 53)
    /\ (l = loc_Exact -> Zpos p mod 2 ^ (d - 53) = 0 -> inexact mrs = false).
Proof.
  intros d Hd Hlo. unfold shr_fexp. cbn [Zdigits2]. fold d.
  rewrite fexp_normal by lia.
  replace (d + ex - 53 - ex) with (d - 53) by lia.
  destruct (d - 53) as [|n|n] eqn:Hn; try lia; unfold shr.
  - eexists. split; [f_equal; lia|]. rewrite shr_m_of_loc. split.
    + cbn. rewrite Z.div_1_r. reflexivity.
    + intros -> _. reflexivity.
  - rewrite iter_pos_nat. eexists. split; [reflexivity|].
    rewrite <- (positive_nat_Z n). split.
    + rewrite shr_iter_m; rewrite shr_m_of_loc; [reflexivity | lia].
    + intros -> Hmod.
      apply shr_iter_exact; cbn [shr_m shr_record_of_loc];
        first [lia | reflexivity | exact Hmod].
Qed.

Lemma binary_round_aux_spec (s : bool) (p : positive) (ex : Z) (l : location) :
  let d := Zpos (digits2_pos p) in
  53 <= d -> -1074 <= ex + (d - 53) -> ex + (d - 53) <= 970 ->
  exists m e,
    binary_round_aux s (Zpos p) ex l = S754_finite s m e
    /\ bounded m e = true
    /\ Zpos (digits2_pos m) = 53
    /\ ex + (d - 53) <= e
    /\ Zpos p / 2 ^ (d - 53) <= Zpos m * 2 ^ (e - (ex + (d - 53)))
         <= Zpos p / 2 ^ (d - 53) + 1
    /\ (l = loc_Exact -> Zpos p mod 2 ^ (d - 53) = 0 ->
        Zpos m * 2 ^ (e - (ex + (d - 53))) = Zpos p / 2 ^ (d - 53)).
Proof.
  intros d Hd Hlo Hhi.
  destruct (shr_normal p ex l Hd Hlo) as (mrs & Hshr & Hm & Hexact). fold d in Hshr, Hm, Hexact.
  set (n := d - 53) in *. set (T := Zpos p / 2 ^ n) in *.
  assert (2 ^ 52 <= T < 2 ^ 53) as HT.
  { pose proof (digits2_pos_bounds p) as [Dlo Dhi]. fold d in Dlo, Dhi.
    pose proof (pow2_pos n ltac:(lia)) as Hpos.
    replace (d - 1) with (52 + n) in Dlo by lia.
    replace d with (53 + n) in Dhi by lia.
    rewrite pow2_add in Dlo, Dhi by lia.
    unfold T. split.
    - apply Z.div_le_lower_bound; lia.
    - apply Z.div_lt_upper_bound; lia. }
  unfold SpecFloat.binary_round_aux. rewrite Hshr.
  pose proof (round_nearest_even_bounds mrs) as [Hm1 Hm1e]. cbv zeta in Hm1, Hm1e.
  set (m1 := round_nearest_even (shr_m mrs) (loc_of_shr_record mrs)) in *.
  rewrite Hm in Hm1, Hm1e.
  destruct (Z.eq_dec m1 (2 ^ 53)) as [Hcarry | Hnocarry].
  - (* the mantissa rounds up to 2^53 *)
    rewrite Hcarry. unfold shr_fexp.
    change (Zdigits2 (2 ^ 53)) with 54.
    rewrite fexp_normal by lia.
    replace (54 + (ex + n) - 53 - (ex + n)) with 1 by lia.
    cbn [shr iter_pos shr_record_of_loc]. 
    change (shr_1 {| shr_m := 2 ^ 53; shr_r := false; shr_s := false |})
      with {| shr_m := 2 ^ 52; shr_r := false; shr_s := false |}.
    cbn [shr_m]. change (2 ^ 52) with (Zpos 4503599627370496).
    cbv iota beta.
    assert ((ex + n + 1 <=? emax - prec) = true) as ->
      by (apply Z.leb_le; unfold emax, prec; lia).
    exists 4503599627370496%positive, (ex + n + 1). split; [reflexivity|].
    split.
    { unfold SpecFloat.bounded, canonical_mantissa.
      change (Zpos (digits2_pos 4503599627370496)) with 53.
      rewrite fexp_normal by lia.
      apply andb_true_intro. split; [apply Z.eqb_eq; lia | apply Z.leb_le; unfold emax, prec; lia]. }
    split; [reflexivity|]. split; [lia|].
    replace (ex + n + 1 - (ex + n)) with 1 by lia.
    change (Zpos 4503599627370496 * 2 ^ 1) with (2 ^ 53).
    split; [lia|]. intros Hl Hmod. specialize (Hexact Hl Hmod). specialize (Hm1e Hexact). lia.
  - assert (2 ^ 52 <= m1 < 2 ^ 53) as Hm1r by lia.
    destruct m1 as [|pm|pm] eqn:Em1; try lia.
    assert (Zpos (digits2_pos pm) = 53) as Hdig by (apply digits2_pos_unique; exact Hm1r).
    unfold shr_fexp. cbn [Zdigits2]. rewrite Hdig.
    rewrite fexp_normal by lia.
    replace (53 + (ex + n) - 53 - (ex + n)) with 0 by lia.
    cbn [shr shr_record_of_loc shr_m]. cbv iota beta.
    assert ((ex + n <=? emax - prec) = true) as ->
      by (apply Z.leb_le; unfold emax, prec; lia).
    exists pm, (ex + n). split; [reflexivity|].
    split.
    { unfold SpecFloat.bounded, canonical_mantissa. rewrite Hdig.
      rewrite fexp_normal by lia.
      apply andb_true_intro. split; [apply Z.eqb_eq; lia | apply Z.leb_le; unfold emax, prec; lia]. }
    split; [exact Hdig|]. split; [lia|].
    replace (ex + n - (ex + n)) with 0 by lia. rewrite Z.mul_1_r.
    split; [lia|]. intros Hl Hmod. apply Hm1e. apply Hexact; assumption.
Qed.


(** ** Values *)

Lemma bounded_inv (m : positive) (e : Z) :
  bounded m e = true ->
  -1074 <= e <= 971 /\ Zpos (digits2_pos m) <= 53
  /\ (Zpos (digits2_pos m) = 53 \/ e = -1074).
Proof.
  unfold SpecFloat.bounded, canonical_mantissa, SpecFloat.fexp, SpecFloat.emin, prec, emax.
  intro Hb. apply andb_prop in Hb as [Hc He].
  apply Z.eqb_eq in Hc. apply Z.leb_le in He. lia.
Qed.

Lemma value_finite (m : positive) (e : Z) :
  value (S754_finite false m e) = Zpos m * 2 ^ (e + 1074).
Proof. cbn [value]. lia. Qed.

Lemma good_value_nonneg (g : spec_float) : good g -> 0 <= value g.
Proof.
  intros [Hv Hn]. destruct g as [s|s| |[] m e]; try discriminate; cbn [value]; lia.
Qed.

(** A valid float below the next point of a grid of step [2^e1] on which
    the floats of that binade lie is at most the point before it. *)
Lemma grid_lower (g : spec_float) (T e1 : Z) :
  good g -> 2 ^ 52 <= T -> -1074 <= e1 ->
  value g < (T + 1) * 2 ^ (e1 + 1074) -> value g <= T * 2 ^ (e1 + 1074).
Proof.
  intros [Hv Hn] HT He1 Hlt.
  pose proof (pow2_pos (e1 + 1074) ltac:(lia)) as HX.
  destruct g as [s|s| |[] m e]; try discriminate; cbn [value] in *; try nia.
  apply bounded_inv in Hv as (He & Hd & Hnorm).
  rewrite ?Z.mul_1_l in *.
  destruct (Z.le_gt_cases e1 e) as [Hle | Hgt].
  - replace (e + 1074) with ((e - e1) + (e1 + 1074)) in * by lia.
    rewrite (pow2_add (e - e1) (e1 + 1074)) in * by lia.
    pose proof (pow2_pos (e - e1) ltac:(lia)) as HG.
    set (X := 2 ^ (e1 + 1074)) in *. set (G := Zpos m * 2 ^ (e - e1)).
    assert (G < T + 1).
    { apply Z.mul_lt_mono_pos_r with X; [exact HX|]. subst G.
      rewrite <- Z.mul_assoc. exact Hlt. }
    replace (Zpos m * (2 ^ (e - e1) * X)) with (G * X) by (subst G; ring).
    apply Z.mul_le_mono_nonneg_r; lia.
  - pose proof (digits2_pos_bounds m) as [_ Hm].
    assert (Zpos m < 2 ^ 53) as Hm53.
    { eapply Z.lt_le_trans; [exact Hm|]. apply pow2_le. lia. }
    assert (2 ^ (e + 1074) * 2 <= 2 ^ (e1 + 1074)) as Hstep.
    { replace (e1 + 1074) with ((e + 1074) + (e1 - e)) by lia.
      rewrite (pow2_add (e + 1074) (e1 - e)) by lia.
      pose proof (pow2_pos (e + 1074) ltac:(lia)).
      assert (2 ^ 1 <= 2 ^ (e1 - e)) by (apply pow2_le; lia).
      change (2 ^ 1) with 2 in *. nia. }
    pose proof (pow2_pos (e + 1074) ltac:(lia)) as HY.
    set (X := 2 ^ (e1 + 1074)) in *. set (Y := 2 ^ (e + 1074)) in *.
    change (2 ^ 53) with (2 ^ 52 * 2) in Hm53.
    nia.
Qed.

Lemma grid_upper (g : spec_float) (T e1 : Z) :
  good g -> 2 ^ 52 <= T -> -1074 <= e1 ->
  T * 2 ^ (e1 + 1074) < value g -> (T + 1) * 2 ^ (e1 + 1074) <= value g.
Proof.
  intros [Hv Hn] HT He1 Hlt.
  pose proof (pow2_pos (e1 + 1074) ltac:(lia)) as HX.
  destruct g as [s|s| |[] m e]; try discriminate; cbn [value] in *; try nia.
  apply bounded_inv in Hv as (He & Hd & Hnorm).
  rewrite ?Z.mul_1_l in *.
  destruct (Z.le_gt_cases e1 e) as [Hle | Hgt].
  - replace (e + 1074) with ((e - e1) + (e1 + 1074)) in * by lia.
    rewrite (pow2_add (e - e1) (e1 + 1074)) in * by lia.
    pose proof (pow2_pos (e - e1) ltac:(lia)) as HG.
    set (X := 2 ^ (e1 + 1074)) in *. set (G := Zpos m * 2 ^ (e - e1)).
    assert (T < G).
    { apply Z.mul_lt_mono_pos_r with X; [exact HX|]. subst G.
      rewrite <- Z.mul_assoc. exact Hlt. }
    replace (Zpos m * (2 ^ (e - e1) * X)) with (G * X) by (subst G; ring).
    apply Z.mul_le_mono_nonneg_r; lia.
  - exfalso.
    pose proof (digits2_pos_bounds m) as [_ Hm].
    assert (Zpos m < 2 ^ 53) as Hm53.
    { eapply Z.lt_le_trans; [exact Hm|]. apply pow2_le. lia. }
    assert (2 ^ (e + 1074) * 2 <= 2 ^ (e1 + 1074)) as Hstep.
    { replace (e1 + 1074) with ((e + 1074) + (e1 - e)) by lia.
      rewrite (pow2_add (e + 1074) (e1 - e)) by lia.
      pose proof (pow2_pos (e + 1074) ltac:(lia)).
      assert (2 ^ 1 <= 2 ^ (e1 - e)) by (apply pow2_le; lia).
      change (2 ^ 1) with 2 in *. nia. }
    pose proof (pow2_pos (e + 1074) ltac:(lia)) as HY.
    set (X := 2 ^ (e1 + 1074)) in *. set (Y := 2 ^ (e + 1074)) in *.
    change (2 ^ 53) with (2 ^ 52 * 2) in Hm53.
    nia.
Qed.


(** ** Rounding an integer mantissa *)

Lemma mantissa_floor_bounds (p : positive) :
  let d := Zpos (digits2_pos p) in
  53 <= d -> 2 ^ 52 <= Zpos p / 2 ^ (d - 53) < 2 ^ 53.
Proof.
  intros d Hd.
  pose proof (digits2_pos_bounds p) as [Dlo Dhi]. fold d in Dlo, Dhi.
  pose proof (pow2_pos (d - 53) ltac:(lia)) as Hpos.
  assert (2 ^ 52 * 2 ^ (d - 53) <= Zpos p) as Dlo'.
  { rewrite <- pow2_add by lia. replace (52 + (d - 53)) with (d - 1) by lia. exact Dlo. }
  assert (Zpos p < 2 ^ 53 * 2 ^ (d - 53)) as Dhi'.
  { rewrite <- pow2_add by lia. replace (53 + (d - 53)) with d by lia. exact Dhi. }
  split.
  - apply Z.div_le_lower_bound; lia.
  - apply Z.div_lt_upper_bound; lia.
Qed.

Lemma ok_good (x : spec_float) : ok x -> good x.
Proof.
  intros [Hv Hn]. split; [exact Hv|].
  destruct x as [s|s| |[] m e]; try contradiction; reflexivity.
Qed.

Lemma rounds_exact (x : Z) (r g : spec_float) :
  rounds x r -> good g -> value g = x -> value r = x.
Proof.
  intros (Hok & Hlo & Hhi) Hg Hx.
  pose proof (Hlo g Hg ltac:(lia)). pose proof (Hhi g Hg ltac:(lia)). lia.
Qed.

Lemma round_exact (p : positive) (ex : Z) :
  let d := Zpos (digits2_pos p) in
  53 <= d -> -1074 <= ex -> ex + (d - 53) <= 970 ->
  exists m e,
    binary_round_aux false (Zpos p) ex loc_Exact = S754_finite false m e
    /\ rounds (Zpos p * 2 ^ (ex + 1074)) (S754_finite false m e)
    /\ (Zpos p mod 2 ^ (d - 53) = 0 ->
        value (S754_finite false m e) = Zpos p * 2 ^ (ex + 1074)).
Proof.
  intros d Hd Hex Hhi.
  destruct (binary_round_aux_spec false p ex loc_Exact Hd ltac:(fold d; lia) Hhi)
    as (m & e & Hres & Hb & Hdig & Hee & Hu & Hexact).
  fold d in Hee, Hu, Hexact.
  pose proof (mantissa_floor_bounds p Hd) as HT. cbv zeta in HT. fold d in HT.
  set (n := d - 53) in *. set (T := Zpos p / 2 ^ n) in *.
  pose proof (pow2_pos n ltac:(lia)) as HN.
  pose proof (pow2_pos (ex + 1074) ltac:(lia)) as HY.
  assert (value (S754_finite false m e)
          = Zpos m * 2 ^ (e - (ex + n)) * 2 ^ (ex + n + 1074)) as Hval.
  { rewrite value_finite.
    replace (e + 1074) with ((e - (ex + n)) + (ex + n + 1074)) by lia.
    rewrite (pow2_add (e - (ex + n)) (ex + n + 1074)) by lia. ring. }
  assert (2 ^ (ex + n + 1074) = 2 ^ n * 2 ^ (ex + 1074)) as HX.
  { replace (ex + n + 1074) with (n + (ex + 1074)) by lia.
    apply pow2_add; lia. }
  pose proof (Z.div_mod (Zpos p) (2 ^ n) ltac:(lia)) as Hdm. fold T in Hdm.
  pose proof (Z.mod_pos_bound (Zpos p) (2 ^ n) HN) as Hr.
  set (u := Zpos m * 2 ^ (e - (ex + n))) in *.
  set (r := Zpos p mod 2 ^ n) in *.
  exists m, e. split; [exact Hres|]. split; [|].
  - split; [split; [exact Hb | exact Hdig]|]. split.
    + intros g Hg Hle. rewrite Hval.
      apply Z.le_trans with (T * 2 ^ (ex + n + 1074)).
      * apply grid_lower; try assumption; try lia.
        all: rewrite HX; nia.
      * apply Z.mul_le_mono_nonneg_r; [rewrite HX; nia | lia].
    + intros g Hg Hge. rewrite Hval.
      destruct (Z.eq_dec r 0) as [Hr0 | Hrpos].
      * rewrite (Hexact eq_refl Hr0). rewrite HX. nia.
      * apply Z.le_trans with ((T + 1) * 2 ^ (ex + n + 1074)).
        -- apply Z.mul_le_mono_nonneg_r; [rewrite HX; nia | lia].
        -- apply grid_upper; try assumption; try lia.
           all: rewrite HX; nia.
  - intro Hr0. rewrite Hval, (Hexact eq_refl Hr0), HX. nia.
Qed.

Lemma iter_xO_value (p k : positive) :
  Zpos (Pos.iter xO p k) = Zpos p * 2 ^ Zpos k.
Proof.
  induction k as [|k IH] using Pos.peano_ind.
  - cbn. lia.
  - rewrite Pos.iter_succ, Pos2Z.inj_xO, IH, Pos2Z.inj_succ, Z.pow_succ_r by lia.
    ring.
Qed.

Lemma shl_align_fst (m : positive) (e ez : Z) :
  ez <= e -> Zpos (fst (shl_align m e ez)) = Zpos m * 2 ^ (e - ez)
             /\ snd (shl_align m e ez) = ez.
Proof.
  intro Hle. unfold shl_align.
  destruct (ez - e) as [|k|k] eqn:Hk; cbn [fst snd]; try lia.
  - replace (e - ez) with 0 by lia. cbn. lia.
  - rewrite iter_xO_value. replace (e - ez) with (Zpos k) by lia. lia.
Qed.

Lemma binary_round_exact (p : positive) (ex : Z) :
  let d := Zpos (digits2_pos p) in
  -1074 <= ex -> -1074 <= ex + (d - 53) <= 970 ->
  exists m e,
    binary_round prec emax false p ex = S754_finite false m e
    /\ rounds (Zpos p * 2 ^ (ex + 1074)) (S754_finite false m e)
    /\ (d <= 53 -> value (S754_finite false m e) = Zpos p * 2 ^ (ex + 1074)).
Proof.
  intros d Hex Hrange. unfold binary_round. fold d.
  rewrite fexp_normal by lia.
  destruct (Z.le_gt_cases 53 d) as [Hbig | Hsmall].
  - (* no shift to the left *)
    assert (shl_align p ex (d + ex - 53) = (p, ex)) as ->.
    { unfold shl_align. destruct (d + ex - 53 - ex) eqn:Hk; try reflexivity. lia. }
    destruct (round_exact p ex Hbig Hex ltac:(fold d; lia)) as (m & e & Hres & Hr & Hexact).
    exists m, e. split; [exact Hres|]. split; [exact Hr|].
    intro Hd53. apply Hexact. fold d. replace (d - 53) with 0 by lia.
    apply Z.mod_1_r.
  - destruct (shl_align_fst p ex (d + ex - 53) ltac:(lia)) as [Hfst Hsnd].
    destruct (shl_align p ex (d + ex - 53)) as [mz ez]. cbn [fst snd] in Hfst, Hsnd.
    subst ez.
    replace (ex - (d + ex - 53)) with (53 - d) in Hfst by lia.
    pose proof (digits2_pos_bounds p) as [Dlo Dhi]. fold d in Dlo, Dhi.
    pose proof (pow2_pos (53 - d) ltac:(lia)) as Hk.
    assert (Zpos (digits2_pos mz) = 53) as Hdz.
    { apply digits2_pos_unique. rewrite Hfst. split.
      - replace (53 - 1) with ((d - 1) + (53 - d)) by lia.
        rewrite (pow2_add (d - 1) (53 - d)) by (pose proof (Pos2Z.is_pos (digits2_pos p)); lia).
        nia.
      - replace 53 with (d + (53 - d)) at 2 by lia.
        rewrite (pow2_add d (53 - d)) by (pose proof (Pos2Z.is_pos (digits2_pos p)); lia).
        nia. }
    destruct (round_exact mz (d + ex - 53) ltac:(lia) ltac:(lia) ltac:(lia))
      as (m & e & Hres & Hr & Hexact).
    rewrite Hdz in Hexact.
    assert (Zpos mz * 2 ^ (d + ex - 53 + 1074) = Zpos p * 2 ^ (ex + 1074)) as Hsame.
    { rewrite Hfst.
      replace (ex + 1074) with ((53 - d) + (d + ex - 53 + 1074)) by lia.
      rewrite (pow2_add (53 - d) (d + ex - 53 + 1074)) by lia. ring. }
    rewrite Hsame in Hr, Hexact.
    exists m, e. split; [exact Hres|]. split; [exact Hr|].
    intros _. apply Hexact. apply Z.mod_1_r.
Qed.


Lemma digits_le (p : positive) (k : Z) :
  0 <= k -> Zpos p < 2 ^ k -> Zpos (digits2_pos p) <= k.
Proof.
  intros Hk Hlt. pose proof (digits2_pos_bounds p) as [Dlo _].
  destruct (Z.le_gt_cases (Zpos (digits2_pos p)) k) as [|Hgt]; [assumption|].
  exfalso. assert (2 ^ k <= 2 ^ (Zpos (digits2_pos p) - 1)) by (apply pow2_le; lia). lia.
Qed.

Lemma digits_ge (p : positive) (k : Z) :
  2 ^ (k - 1) <= Zpos p -> k <= Zpos (digits2_pos p).
Proof.
  intros Hle. pose proof (digits2_pos_bounds p) as [_ Dhi].
  destruct (Z.le_gt_cases k (Zpos (digits2_pos p))) as [|Hgt]; [assumption|].
  exfalso.
  assert (2 ^ Zpos (digits2_pos p) <= 2 ^ (k - 1)) by (apply pow2_le; lia). lia.
Qed.

Lemma ok_finite_inv (m : positive) (e : Z) :
  ok (S754_finite false m e) ->
  -1074 <= e <= 971 /\ 2 ^ 52 <= Zpos m < 2 ^ 53 /\ bounded m e = true.
Proof.
  intros [Hv Hd]. cbn in Hv. split; [apply bounded_inv in Hv; lia|].
  split; [|exact Hv].
  pose proof (digits2_pos_bounds m) as Hb. rewrite Hd in Hb. exact Hb.
Qed.

(** ** Comparison *)

Lemma value_lt_of_exponent (m1 m2 : positive) (e1 e2 : Z) :
  bounded m1 e1 = true -> bounded m2 e2 = true -> e1 < e2 ->
  Zpos m1 * 2 ^ (e1 + 1074) < Zpos m2 * 2 ^ (e2 + 1074).
Proof.
  intros H1 H2 Hlt.
  apply bounded_inv in H1 as (He1 & Hd1 & _).
  apply bounded_inv in H2 as (He2 & Hd2 & Hn2).
  assert (Zpos (digits2_pos m2) = 53) as Hd by lia.
  pose proof (digits2_pos_bounds m2) as [Hlo _]. rewrite Hd in Hlo.
  pose proof (digits2_pos_bounds m1) as [_ Hhi].
  assert (Zpos m1 < 2 ^ 53) as Hm1.
  { eapply Z.lt_le_trans; [exact Hhi | apply pow2_le; lia]. }
  pose proof (pow2_pos (e1 + 1074) ltac:(lia)) as HY.
  assert (2 ^ (e1 + 1074) * 2 <= 2 ^ (e2 + 1074)) as Hstep.
  { replace (e2 + 1074) with ((e1 + 1074) + (e2 - e1)) by lia.
    rewrite (pow2_add (e1 + 1074) (e2 - e1)) by lia.
    assert (2 ^ 1 <= 2 ^ (e2 - e1)) by (apply pow2_le; lia).
    change (2 ^ 1) with 2 in *. nia. }
  change (2 ^ 53) with (2 ^ 52 * 2) in Hm1. change (53 - 1) with 52 in Hlo.
  set (Y1 := 2 ^ (e1 + 1074)) in *. set (Y2 := 2 ^ (e2 + 1074)) in *.
  nia.
Qed.

Lemma SFcompare_value (g1 g2 : spec_float) :
  good g1 -> good g2 -> SFcompare g1 g2 = Some (value g1 ?= value g2).
Proof.
  intros [Hv1 Hn1] [Hv2 Hn2].
  destruct g1 as [s1|s1| |[] m1 e1]; try discriminate;
    destruct g2 as [s2|s2| |[] m2 e2]; try discriminate;
    cbn [SFcompare]; rewrite ?value_finite.
  - reflexivity.
  - cbn [value]. cbn in Hv2. apply bounded_inv in Hv2.
    pose proof (pow2_pos (e2 + 1074) ltac:(lia)).
    f_equal. symmetry. apply Z.compare_lt_iff. nia.
  - cbn [value]. cbn in Hv1. apply bounded_inv in Hv1.
    pose proof (pow2_pos (e1 + 1074) ltac:(lia)).
    f_equal. symmetry. apply Z.compare_gt_iff. nia.
  - cbn in Hv1, Hv2. f_equal.
    destruct (Z.compare_spec e1 e2) as [Heq | Hlt | Hgt].
    + subst e2. apply bounded_inv in Hv1.
      pose proof (pow2_pos (e1 + 1074) ltac:(lia)) as HY.
      change (Pos.compare_cont Eq m1 m2) with (Zpos m1 ?= Zpos m2).
      apply Zmult_compare_compat_r. apply Z.lt_gt. exact HY.
    + symmetry. apply Z.compare_lt_iff. apply value_lt_of_exponent; assumption.
    + symmetry. apply Z.compare_gt_iff. apply value_lt_of_exponent; assumption.
Qed.

Lemma SFleb_value (g1 g2 : spec_float) :
  good g1 -> good g2 -> SFleb g1 g2 = (value g1 <=? value g2).
Proof.
  intros H1 H2. unfold SFleb. rewrite (SFcompare_value g1 g2 H1 H2).
  unfold Z.leb. destruct (value g1 ?= value g2); reflexivity.
Qed.

Lemma SFltb_value (g1 g2 : spec_float) :
  good g1 -> good g2 -> SFltb g1 g2 = (value g1 <? value g2).
Proof.
  intros H1 H2. unfold SFltb. rewrite (SFcompare_value g1 g2 H1 H2).
  unfold Z.ltb. destruct (value g1 ?= value g2); reflexivity.
Qed.


(** ** The operations *)

Lemma rounds_roundsQ (x D : Z) (r : spec_float) :
  0 < D -> rounds x r -> roundsQ (x * D) D r.
Proof.
  intros HD (Hok & Hlo & Hhi). split; [exact Hok|]. split; intros g Hg Hle.
  - apply Hlo; [exact Hg|]. apply Z.mul_le_mono_pos_r with D; assumption.
  - apply Hhi; [exact Hg|]. apply Z.mul_le_mono_pos_r with D; assumption.
Qed.

Lemma roundsQ_exact (N D : Z) (r g : spec_float) :
  roundsQ N D r -> good g -> value g * D = N -> value r = value g.
Proof.
  intros (Hok & Hlo & Hhi) Hg Hx.
  pose proof (Hlo g Hg ltac:(lia)). pose proof (Hhi g Hg ltac:(lia)). lia.
Qed.

Lemma rounds_zero (s : bool) : rounds 0 (S754_zero s).
Proof.
  split; [split; [reflexivity | exact I]|]. split; intros g Hg Hle; cbn [value]; [exact Hle|].
  apply good_value_nonneg. exact Hg.
Qed.

(** [of_uint63] of an integer below [2^53] is that integer. *)
Lemma binary_normalize_integer (z : Z) :
  0 <= z < 2 ^ 53 ->
  ok (binary_normalize prec emax z 0 false)
  /\ value (binary_normalize prec emax z 0 false) = z * 2 ^ 1074.
Proof.
  intros Hz. destruct z as [|p|p]; try lia.
  - cbn [binary_normalize value]. split; [split; [reflexivity | exact I] | reflexivity].
  - cbn [binary_normalize].
    pose proof (digits_le p 53 ltac:(lia) ltac:(lia)) as Hd.
    pose proof (Pos2Z.is_pos (digits2_pos p)) as Hd0.
    destruct (binary_round_exact p 0 ltac:(lia) ltac:(lia))
      as (m & e & Hres & (Hok & _) & Hexact).
    rewrite Hres. split; [exact Hok|]. rewrite (Hexact Hd). reflexivity.
Qed.

Lemma SFmul_rounds (ma mb : positive) (ea eb : Z) :
  ok (S754_finite false ma ea) -> ok (S754_finite false mb eb) ->
  -1074 <= ea + eb -> ea + eb + 53 <= 970 ->
  roundsQ (value (S754_finite false ma ea) * value (S754_finite false mb eb))
          (2 ^ 1074)
          (SFmul prec emax (S754_finite false ma ea) (S754_finite false mb eb)).
Proof.
  intros Ha Hb Hlo Hhi.
  apply ok_finite_inv in Ha as (Hea & Hma & _).
  apply ok_finite_inv in Hb as (Heb & Hmb & _).
  cbn [SFmul xorb]. rewrite !value_finite.
  assert (2 ^ 104 <= Zpos (ma * mb) < 2 ^ 106) as Hp.
  { rewrite Pos2Z.inj_mul.
    change (2 ^ 104) with (2 ^ 52 * 2 ^ 52). change (2 ^ 106) with (2 ^ 53 * 2 ^ 53).
    nia. }
  pose proof (digits_ge (ma * mb) 105 ltac:(change (105 - 1) with 104; lia)) as Hd1.
  pose proof (digits_le (ma * mb) 106 ltac:(lia) ltac:(lia)) as Hd2.
  destruct (round_exact (ma * mb) (ea + eb) ltac:(lia) Hlo ltac:(lia))
    as (m & e & Hres & Hr & _).
  rewrite Hres.
  pose proof (pow2_pos 1074 ltac:(lia)) as HB.
  replace (Zpos ma * 2 ^ (ea + 1074) * (Zpos mb * 2 ^ (eb + 1074)))
    with (Zpos (ma * mb) * 2 ^ (ea + eb + 1074) * 2 ^ 1074).
  - apply rounds_roundsQ; assumption.
  - rewrite Pos2Z.inj_mul.
    assert (2 ^ (ea + eb + 1074) * 2 ^ 1074 = 2 ^ (ea + 1074) * 2 ^ (eb + 1074)) as Hpow.
    { rewrite <- !pow2_add by lia. f_equal. lia. }
    rewrite <- Z.mul_assoc, Hpow. ring.
Qed.

Lemma SFsub_rounds (ma mb : positive) (ea eb : Z) :
  let a := S754_finite false ma ea in
  let b := S754_finite false mb eb in
  ok a -> ok b -> ea <= 970 ->
  value a = value b \/ 2 ^ 53 <= value a - value b ->
  rounds (value a - value b) (SFsub prec emax a b).
Proof.
  intros a b Ha Hb Hea970 Hdiff. subst a b.
  apply ok_finite_inv in Ha as (Hea & Hma & _).
  apply ok_finite_inv in Hb as (Heb & Hmb & _).
  rewrite !value_finite in *. cbn [SFsub cond_Zopp].
  set (ez := Z.min ea eb).
  destruct (shl_align_fst ma ea ez ltac:(lia)) as [HA _].
  destruct (shl_align_fst mb eb ez ltac:(lia)) as [HB _].
  rewrite HA, HB.
  pose proof (pow2_pos (ez + 1074) ltac:(lia)) as HY.
  pose proof (pow2_pos (ea - ez) ltac:(lia)) as HPa.
  pose proof (pow2_pos (eb - ez) ltac:(lia)) as HPb.
  assert (2 ^ (ea + 1074) = 2 ^ (ea - ez) * 2 ^ (ez + 1074)) as Hsa.
  { rewrite <- pow2_add by lia. f_equal. lia. }
  assert (2 ^ (eb + 1074) = 2 ^ (eb - ez) * 2 ^ (ez + 1074)) as Hsb.
  { rewrite <- pow2_add by lia. f_equal. lia. }
  rewrite Hsa, Hsb in *.
  set (A := Zpos ma * 2 ^ (ea - ez)) in *. set (B := Zpos mb * 2 ^ (eb - ez)) in *.
  set (Y := 2 ^ (ez + 1074)) in *.
  assert (Zpos ma * (2 ^ (ea - ez) * Y) - Zpos mb * (2 ^ (eb - ez) * Y)
          = (A - B) * Y) as Hval by (subst A B; ring).
  rewrite Hval.
  assert (A < 2 ^ 53 * 2 ^ (ea - ez)) as HAhi by (subst A; nia).
  destruct (A - B) as [|p|p] eqn:HD.
  - cbn [binary_normalize]. rewrite Z.mul_0_l. apply rounds_zero.
  - cbn [binary_normalize].
    assert (Zpos (digits2_pos p) <= 53 + (ea - ez)) as Hd.
    { apply digits_le; [lia|]. rewrite (pow2_add 53 (ea - ez)) by lia. nia. }
    assert (54 <= Zpos (digits2_pos p) + (ez + 1074)) as Hd'.
    { destruct Hdiff as [Heq | Hbig]; [nia|].
      pose proof (digits2_pos_bounds p) as [_ Dhi].
      pose proof (Pos2Z.is_pos (digits2_pos p)) as Hd0.
      assert (2 ^ 53 < 2 ^ (Zpos (digits2_pos p) + (ez + 1074))) as Hpow.
      { rewrite (pow2_add (Zpos (digits2_pos p)) (ez + 1074)) by lia.
        fold Y. nia. }
      apply Z.pow_lt_mono_r_iff in Hpow; lia. }
    destruct (binary_round_exact p ez ltac:(lia) ltac:(lia)) as (m & e & Hres & Hr & _).
    rewrite Hres. exact Hr.
  - exfalso. destruct Hdiff as [Heq | Hbig]; nia.
Qed.

Lemma SFadd_rounds (a : spec_float) (mb : positive) (eb : Z) :
  let b := S754_finite false mb eb in
  ok a -> ok b ->
  (forall ma ea, a = S754_finite false ma ea -> ea <= 969) -> eb <= 969 ->
  rounds (value a + value b) (SFadd prec emax a b).
Proof.
  intros b Ha Hb Hea969 Heb969. subst b.
  destruct a as [s|s| |[] ma ea]; try (exfalso; destruct Ha as [_ F]; exact F).
  - (* 0 + b *)
    cbn [SFadd value]. rewrite Z.add_0_l. split; [exact Hb|].
    split; intros g Hg Hle; exact Hle.
  - specialize (Hea969 ma ea eq_refl).
    apply ok_finite_inv in Ha as (Hea & Hma & _).
    apply ok_finite_inv in Hb as (Heb & Hmb & _).
    rewrite !value_finite in *. cbn [SFadd cond_Zopp].
    set (ez := Z.min ea eb).
    destruct (shl_align_fst ma ea ez ltac:(lia)) as [HA _].
    destruct (shl_align_fst mb eb ez ltac:(lia)) as [HB _].
    rewrite HA, HB.
    pose proof (pow2_pos (ez + 1074) ltac:(lia)) as HY.
    pose proof (pow2_pos (ea - ez) ltac:(lia)) as HPa.
    pose proof (pow2_pos (eb - ez) ltac:(lia)) as HPb.
    assert (2 ^ (ea + 1074) = 2 ^ (ea - ez) * 2 ^ (ez + 1074)) as Hsa.
    { rewrite <- pow2_add by lia. f_equal. lia. }
    assert (2 ^ (eb + 1074) = 2 ^ (eb - ez) * 2 ^ (ez + 1074)) as Hsb.
    { rewrite <- pow2_add by lia. f_equal. lia. }
    rewrite Hsa, Hsb in *.
    set (A := Zpos ma * 2 ^ (ea - ez)) in *. set (B := Zpos mb * 2 ^ (eb - ez)) in *.
    set (Y := 2 ^ (ez + 1074)) in *.
    assert (Zpos ma * (2 ^ (ea - ez) * Y) + Zpos mb * (2 ^ (eb - ez) * Y)
            = (A + B) * Y) as Hval by (subst A B; ring).
    rewrite Hval.
    set (em := Z.max ea eb).
    assert (2 ^ (ea - ez) <= 2 ^ (em - ez)) as Hpa by (apply pow2_le; lia).
    assert (2 ^ (eb - ez) <= 2 ^ (em - ez)) as Hpb by (apply pow2_le; lia).
    assert (2 ^ 52 <= A + B < 2 ^ 54 * 2 ^ (em - ez)) as HAB.
    { subst A B. change (2 ^ 54) with (2 ^ 53 + 2 ^ 53). nia. }
    destruct (A + B) as [|p|p] eqn:HD; try lia.
    cbn [binary_normalize].
    assert (Zpos (digits2_pos p) <= 54 + (em - ez)) as Hd.
    { apply digits_le; [lia|]. rewrite (pow2_add 54 (em - ez)) by lia. lia. }
    pose proof (digits_ge p 53 ltac:(change (53 - 1) with 52; lia)) as Hd'.
    destruct (binary_round_exact p ez ltac:(lia) ltac:(lia)) as (m & e & Hres & Hr & _).
    rewrite Hres. exact Hr.
Qed.


Lemma new_location_exact (nb : Z) : new_location nb 0 = loc_Exact.
Proof.
  unfold new_location, new_location_even, new_location_odd.
  destruct (Z.even nb); reflexivity.
Qed.

Lemma SFdiv_rounds (m1 m2 : positive) (e1 e2 : Z) :
  let a := S754_finite false m1 e1 in
  let b := S754_finite false m2 e2 in
  ok a -> ok b -> -1074 <= e1 - e2 - 53 -> e1 - e2 - 52 <= 970 ->
  roundsQ (value a * 2 ^ 1074) (value b) (SFdiv prec emax a b).
Proof.
  intros a b Ha Hb Hlo Hhi. subst a b.
  pose proof Ha as [_ Hd1]. pose proof Hb as [_ Hd2].
  apply ok_finite_inv in Ha as (He1 & Hm1 & _).
  apply ok_finite_inv in Hb as (He2 & Hm2 & _).
  rewrite !value_finite.
  unfold SFdiv, SFdiv_core_binary. cbn [Zdigits2 xorb]. rewrite Hd1, Hd2.
  replace (53 + e1 - (53 + e2)) with (e1 - e2) by lia.
  rewrite fexp_normal by lia.
  rewrite Z.min_l by lia.
  replace (e1 - e2 - (e1 - e2 - 53)) with 53 by lia.
  cbv iota.
  rewrite Z.shiftl_mul_pow2 by lia.
  set (m' := Zpos m1 * 2 ^ 53).
  pose proof (Z_div_mod m' (Zpos m2) ltac:(lia)) as Hdm.
  destruct (Z.div_eucl m' (Zpos m2)) as [q r]. destruct Hdm as [Hdm Hr].
  assert (2 ^ 52 <= q < 2 ^ 54) as Hq.
  { subst m'. change (2 ^ 54) with (2 * 2 ^ 53). split; nia. }
  destruct q as [|pq|pq]; try lia.
  pose proof (digits_ge pq 53 ltac:(change (53 - 1) with 52; lia)) as Hdq1.
  pose proof (digits_le pq 54 ltac:(lia) ltac:(lia)) as Hdq2.
  destruct (binary_round_aux_spec false pq (e1 - e2 - 53) (new_location (Zpos m2) r)
              Hdq1 ltac:(lia) ltac:(lia))
    as (m & e & Hres & Hbd & Hdig & Hee & Hu & Hexact).
  rewrite Hres.
  pose proof (mantissa_floor_bounds pq Hdq1) as HT. cbv zeta in HT.
  set (n := Zpos (digits2_pos pq) - 53) in *.
  set (T := Zpos pq / 2 ^ n) in *.
  set (e' := e1 - e2 - 53) in *.
  pose proof (pow2_pos n ltac:(lia)) as HN.
  pose proof (pow2_pos (e' + 1074) ltac:(lia)) as HP.
  pose proof (pow2_pos (e2 + 1074) ltac:(lia)) as HE2.
  assert (value (S754_finite false m e)
          = Zpos m * 2 ^ (e - (e' + n)) * 2 ^ (e' + n + 1074)) as Hval.
  { rewrite value_finite.
    replace (e + 1074) with ((e - (e' + n)) + (e' + n + 1074)) by lia.
    rewrite (pow2_add (e - (e' + n)) (e' + n + 1074)) by lia. ring. }
  assert (2 ^ (e' + n + 1074) = 2 ^ n * 2 ^ (e' + 1074)) as HX.
  { replace (e' + n + 1074) with (n + (e' + 1074)) by lia. apply pow2_add; lia. }
  assert (Zpos m1 * 2 ^ (e1 + 1074) * 2 ^ 1074
          = m' * 2 ^ (e' + 1074) * 2 ^ (e2 + 1074)) as Hnum.
  { subst m'. rewrite <- !Z.mul_assoc. f_equal.
    rewrite <- !pow2_add by lia. f_equal. lia. }
  rewrite Hnum.
  pose proof (Z.div_mod (Zpos pq) (2 ^ n) ltac:(lia)) as Hqdm. fold T in Hqdm.
  pose proof (Z.mod_pos_bound (Zpos pq) (2 ^ n) HN) as Hrho.
  set (u := Zpos m * 2 ^ (e - (e' + n))) in *.
  set (rho := Zpos pq mod 2 ^ n) in *.
  set (P := 2 ^ (e' + 1074)) in *. set (E2 := 2 ^ (e2 + 1074)) in *.
  set (N := 2 ^ n) in *.
  split; [split; [exact Hbd | exact Hdig]|]. split.
  - intros g Hg Hle. rewrite Hval.
    assert (value g * Zpos m2 <= m' * P) as Hle'.
    { apply Z.mul_le_mono_pos_r with E2; [exact HE2|]. 
      replace (value g * Zpos m2 * E2) with (value g * (Zpos m2 * E2)) by ring.
      exact Hle. }
    apply Z.le_trans with (T * 2 ^ (e' + n + 1074)).
    + apply grid_lower; try assumption; try lia.
      rewrite HX. fold N P.
      apply Z.mul_lt_mono_pos_r with (Zpos m2); [lia|].
      apply Z.le_lt_trans with (m' * P); [exact Hle'|].
      assert (m' < (T + 1) * N * Zpos m2) as Hm' by nia.
      replace ((T + 1) * (N * P) * Zpos m2) with ((T + 1) * N * Zpos m2 * P) by ring.
      apply Z.mul_lt_mono_pos_r; assumption.
    + apply Z.mul_le_mono_nonneg_r; [rewrite HX; fold N P; nia | lia].
  - intros g Hg Hge. rewrite Hval.
    assert (m' * P <= value g * Zpos m2) as Hge'.
    { apply Z.mul_le_mono_pos_r with E2; [exact HE2|]. 
      replace (value g * Zpos m2 * E2) with (value g * (Zpos m2 * E2)) by ring.
      exact Hge. }
    destruct (Z.eq_dec r 0) as [Hr0 | Hrpos];
      [destruct (Z.eq_dec rho 0) as [Hrho0 | Hrhopos]|].
    + (* the quotient is exact and on the grid *)
      subst r. rewrite new_location_exact in Hexact.
      rewrite (Hexact eq_refl Hrho0). rewrite HX. fold N P.
      apply Z.mul_le_mono_pos_r with (Zpos m2); [lia|].
      apply Z.le_trans with (m' * P); [|exact Hge'].
      assert (m' = T * N * Zpos m2) as -> by nia.
      apply Z.eq_le_incl. ring.
    + apply Z.le_trans with ((T + 1) * 2 ^ (e' + n + 1074)).
      * apply Z.mul_le_mono_nonneg_r; [rewrite HX; fold N P; nia | lia].
      * apply grid_upper; try assumption; try lia.
        rewrite HX. fold N P.
        apply Z.mul_lt_mono_pos_r with (Zpos m2); [lia|].
        apply Z.lt_le_trans with (m' * P); [|exact Hge'].
        assert (T * N * Zpos m2 < m') as Hm' by nia.
        replace (T * (N * P) * Zpos m2) with (T * N * Zpos m2 * P) by ring.
        apply Z.mul_lt_mono_pos_r; assumption.
    + apply Z.le_trans with ((T + 1) * 2 ^ (e' + n + 1074)).
      * apply Z.mul_le_mono_nonneg_r; [rewrite HX; fold N P; nia | lia].
      * apply grid_upper; try assumption; try lia.
        rewrite HX. fold N P.
        apply Z.mul_lt_mono_pos_r with (Zpos m2); [lia|].
        apply Z.lt_le_trans with (m' * P); [|exact Hge'].
        assert (T * N * Zpos m2 < m') as Hm' by nia.
        replace (T * (N * P) * Zpos m2) with (T * N * Zpos m2 * P) by ring.
        apply Z.mul_lt_mono_pos_r; assumption.
Qed.

(** *** The operations on primitive floats *)

Lemma B_pos : 0 < B.
Proof. unfold B. apply pow2_pos. lia. Qed.

Lemma ok_pos_inv (x : spec_float) :
  ok x -> 0 < value x -> exists m e, x = S754_finite false m e.
Proof.
  intros [_ Hx] Hpos. destruct x as [s|s| |[] m e]; try contradiction.
  - cbn in Hpos. lia.
  - exists m, e. reflexivity.
Qed.

Lemma window_exponent (m : positive) (e : Z) :
  ok (S754_finite false m e) -> window (value (S754_finite false m e)) ->
  -116 <= e <= 11.
Proof.
  intros Hok [Hlo Hhi]. apply ok_finite_inv in Hok as (He & Hm & _).
  rewrite value_finite in *.
  pose proof (pow2_pos (e + 1074) ltac:(lia)) as HY.
  split.
  - destruct (Z.le_gt_cases (-116) e) as [|Hlt]; [assumption|]. exfalso.
    assert (2 ^ (e + 1074) <= 2 ^ 957) by (apply pow2_le; lia).
    assert (Zpos m * 2 ^ (e + 1074) < 2 ^ 53 * 2 ^ 957) by nia.
    change (2 ^ 53 * 2 ^ 957) with (2 ^ 1010) in *. lia.
  - destruct (Z.le_gt_cases e 11) as [|Hgt]; [assumption|]. exfalso.
    assert (2 ^ 1086 <= 2 ^ (e + 1074)) by (apply pow2_le; lia).
    assert (2 ^ 52 * 2 ^ 1086 <= Zpos m * 2 ^ (e + 1074)) by nia.
    change (2 ^ 52 * 2 ^ 1086) with (2 ^ 1138) in *. lia.
Qed.


Lemma window_pos (v : Z) : window v -> 0 < v.
Proof. intros [Hlo _]. pose proof (pow2_pos 1010 ltac:(lia)). lia. Qed.

Lemma fmul_rounds (x y : float) :
  fok x -> fok y -> window (fvalue x) -> window (fvalue y) ->
  roundsQ (fvalue x * fvalue y) B (Prim2SF (x * y)).
Proof.
  unfold fok, fvalue. intros Hx Hy Wx Wy. rewrite FloatAxioms.mul_spec. unfold SF64mul.
  destruct (ok_pos_inv _ Hx (window_pos _ Wx)) as (ma & ea & Ea).
  destruct (ok_pos_inv _ Hy (window_pos _ Wy)) as (mb & eb & Eb).
  rewrite Ea, Eb in *.
  pose proof (window_exponent _ _ Hx Wx). pose proof (window_exponent _ _ Hy Wy).
  apply SFmul_rounds; try assumption; lia.
Qed.

Lemma fdiv_rounds (x y : float) :
  fok x -> fok y -> window (fvalue x) -> window (fvalue y) ->
  roundsQ (fvalue x * B) (fvalue y) (Prim2SF (x / y)).
Proof.
  unfold fok, fvalue. intros Hx Hy Wx Wy. rewrite FloatAxioms.div_spec. unfold SF64div.
  destruct (ok_pos_inv _ Hx (window_pos _ Wx)) as (ma & ea & Ea).
  destruct (ok_pos_inv _ Hy (window_pos _ Wy)) as (mb & eb & Eb).
  rewrite Ea, Eb in *.
  pose proof (window_exponent _ _ Hx Wx). pose proof (window_exponent _ _ Hy Wy).
  apply SFdiv_rounds; try assumption; lia.
Qed.

Lemma fdiv_zero (x y : float) :
  fok x -> fvalue x = 0 -> fok y -> window (fvalue y) ->
  fok (x / y) /\ fvalue (x / y) = 0.
Proof.
  unfold fok, fvalue. intros Hx Vx Hy Wy. rewrite FloatAxioms.div_spec. unfold SF64div.
  destruct (ok_pos_inv _ Hy (window_pos _ Wy)) as (mb & eb & Eb). rewrite Eb.
  destruct (Prim2SF x) as [s|s| |[] m e]; try (exfalso; destruct Hx as [_ F]; exact F).
  - cbn. split; [split; [reflexivity | exact I] | reflexivity].
  - exfalso. apply ok_finite_inv in Hx as (He & Hm & _). rewrite value_finite in Vx.
    pose proof (pow2_pos (e + 1074) ltac:(lia)). nia.
Qed.

Lemma fsub_rounds (x y : float) :
  fok x -> fok y -> window (fvalue x) -> window (fvalue y) ->
  fvalue x = fvalue y \/ 2 ^ 53 <= fvalue x - fvalue y ->
  rounds (fvalue x - fvalue y) (Prim2SF (x - y)).
Proof.
  unfold fok, fvalue. intros Hx Hy Wx Wy Hdiff. rewrite FloatAxioms.sub_spec. unfold SF64sub.
  destruct (ok_pos_inv _ Hx (window_pos _ Wx)) as (ma & ea & Ea).
  destruct (ok_pos_inv _ Hy (window_pos _ Wy)) as (mb & eb & Eb).
  rewrite Ea, Eb in *.
  pose proof (window_exponent _ _ Hx Wx). pose proof (window_exponent _ _ Hy Wy).
  apply SFsub_rounds; try assumption; lia.
Qed.

Lemma fadd_rounds (x y : float) :
  fok x -> fvalue x = 0 \/ window (fvalue x) -> fok y -> window (fvalue y) ->
  rounds (fvalue x + fvalue y) (Prim2SF (x + y)).
Proof.
  unfold fok, fvalue. intros Hx Wx Hy Wy. rewrite FloatAxioms.add_spec. unfold SF64add.
  destruct (ok_pos_inv _ Hy (window_pos _ Wy)) as (mb & eb & Eb).
  rewrite Eb in *.
  pose proof (window_exponent _ _ Hy Wy).
  apply SFadd_rounds; try assumption; try lia.
  intros ma ea Ea. rewrite Ea in *.
  destruct Wx as [V0 | Wx].
  - exfalso. apply ok_finite_inv in Hx as (He & Hm & _). rewrite value_finite in V0.
    pose proof (pow2_pos (ea + 1074) ltac:(lia)). nia.
  - pose proof (window_exponent _ _ Hx Wx). lia.
Qed.

Lemma fleb_value (x y : float) :
  fok x -> fok y -> PrimFloat.leb x y = (fvalue x <=? fvalue y).
Proof.
  intros Hx Hy. rewrite FloatAxioms.leb_spec. apply SFleb_value; apply ok_good; assumption.
Qed.

Lemma fltb_value (x y : float) :
  fok x -> fok y -> PrimFloat.ltb x y = (fvalue x <? fvalue y).
Proof.
  intros Hx Hy. rewrite FloatAxioms.ltb_spec. apply SFltb_value; apply ok_good; assumption.
Qed.

Lemma ofInt_value (z : Z) :
  0 <= z < 2 ^ 53 ->
  fok (ofInt (num := float) z) /\ fvalue (ofInt (num := float) z) = z * B.
Proof.
  intro Hz. unfold fok, fvalue. cbn [ofInt JsNumber_float].
  rewrite of_uint63_spec, Uint63.of_Z_spec.
  rewrite Z.mod_small by (unfold wB; cbn; lia).
  apply binary_normalize_integer. exact Hz.
Qed.


Lemma representable (k : positive) (j : Z) :
  Zpos k < 2 ^ 53 -> -1000 <= j <= 900 ->
  exists g, ok g /\ value g = Zpos k * 2 ^ (j + 1074).
Proof.
  intros Hk Hj.
  pose proof (digits_le k 53 ltac:(lia) Hk) as Hd.
  pose proof (Pos2Z.is_pos (digits2_pos k)) as Hd0.
  destruct (binary_round_exact k j ltac:(lia) ltac:(lia))
    as (m & e & _ & (Hok & _) & Hexact).
  exists (S754_finite false m e). split; [exact Hok | exact (Hexact Hd)].
Qed.

Lemma half_ok (m : positive) (e : Z) :
  ok (S754_finite false m e) -> -1073 <= e ->
  ok (S754_finite false m (e - 1))
  /\ value (S754_finite false m (e - 1)) * 2 = value (S754_finite false m e).
Proof.
  intros Hok He. pose proof Hok as [_ Hd].
  apply ok_finite_inv in Hok as (Her & Hm & _). split.
  - split; [|exact Hd]. cbn. unfold SpecFloat.bounded, canonical_mantissa.
    rewrite Hd, fexp_normal by lia.
    apply andb_true_intro. split; [apply Z.eqb_eq; lia | apply Z.leb_le; unfold emax, prec; lia].
  - rewrite !value_finite.
    replace (e + 1074) with ((e - 1 + 1074) + 1) by lia.
    rewrite (pow2_add (e - 1 + 1074) 1) by lia. change (2 ^ 1) with 2. ring.
Qed.

Lemma fzero : fok 0%float /\ fvalue 0%float = 0.
Proof. split; [split; [reflexivity | exact I] | reflexivity]. Qed.

(** The padded axis: a source of [S] pixels and a computed size [cs] that is
    at least [S].  The difference and its half are computed exactly, and the
    source placed at the offset ends inside the computed size. *)
Lemma padded_axis (S : Z) (cs : float) :
  1 <= S < 2 ^ 32 -> fok cs -> S * B <= fvalue cs <= 2 ^ 33 * B ->
  let s := ofInt (num := float) S in
  let o := ((cs - s) / ofInt (num := float) 2)%float in
  fok o /\ fvalue o * 2 = fvalue cs - S * B
  /\ PrimFloat.leb s cs = true
  /\ PrimFloat.leb 0 o = true
  /\ PrimFloat.leb (o + s) cs = true.
Proof.
  intros HS Hcs Hrange s o.
  destruct (ofInt_value S ltac:(lia)) as [Hs Vs]. fold s in Hs, Vs.
  destruct (ofInt_value 2 ltac:(lia)) as [H2 V2].
  destruct fzero as [H0 V0].
  assert (window (fvalue s)) as Ws by (rewrite Vs; unfold window, B; lia).
  assert (window (fvalue cs)) as Wcs by (unfold window, B in *; lia).
  assert (window (fvalue (ofInt (num := float) 2))) as W2
    by (rewrite V2; unfold window, B; lia).
  (* the representation of [cs] *)
  pose proof Hcs as Hcs'. unfold fok in Hcs'. unfold fvalue in Hrange, Wcs.
  destruct (ok_pos_inv _ Hcs' (window_pos _ Wcs)) as (m & e & Ecs).
  rewrite Ecs in Hcs', Hrange, Wcs.
  pose proof (ok_finite_inv _ _ Hcs') as (He & Hm & _).
  rewrite value_finite in Hrange.
  assert (-52 <= e <= -19) as Hexp.
  { unfold B in Hrange. split.
    - destruct (Z.le_gt_cases (-52) e) as [|Hlt]; [assumption|]. exfalso.
      assert (2 ^ (e + 1074) <= 2 ^ 1021) by (apply pow2_le; lia).
      assert (Zpos m * 2 ^ (e + 1074) < 2 ^ 53 * 2 ^ 1021) by nia.
      change (2 ^ 53 * 2 ^ 1021) with (2 ^ 1074) in *. lia.
    - destruct (Z.le_gt_cases e (-19)) as [|Hgt]; [assumption|]. exfalso.
      assert (2 ^ 1056 <= 2 ^ (e + 1074)) by (apply pow2_le; lia).
      assert (2 ^ 52 * 2 ^ 1056 <= Zpos m * 2 ^ (e + 1074)) by nia.
      change (2 ^ 52 * 2 ^ 1056) with (2 ^ 1108) in *.
      assert (S * 2 ^ 1074 < 2 ^ 32 * 2 ^ 1074) by lia.
      change (2 ^ 33 * 2 ^ 1074) with (2 ^ 1107) in *.
      assert (2 ^ 1107 < 2 ^ 1108) by (apply pow2_lt; lia). lia. }
  assert (B = 2 ^ (- e) * 2 ^ (e + 1074)) as HB.
  { unfold B. rewrite <- pow2_add by lia. f_equal. lia. }
  pose proof (pow2_pos (e + 1074) ltac:(lia)) as HY.
  pose proof (pow2_pos (- e) ltac:(lia)) as HE.
  set (Y := 2 ^ (e + 1074)) in *.
  set (D := Zpos m - S * 2 ^ (- e)).
  assert (fvalue cs - S * B = D * Y) as Hdiff.
  { unfold fvalue. rewrite Ecs, value_finite, HB. fold Y. subst D. ring. }
  assert (0 <= D < 2 ^ 53) as HD.
  { subst D. rewrite HB in Hrange. split; [|nia].
    assert (S * 2 ^ (- e) <= Zpos m); [|lia].
    apply Z.mul_le_mono_pos_r with Y; [exact HY|]. lia. }
  (* the subtraction *)
  assert (rounds (fvalue cs - fvalue s) (Prim2SF (cs - s))) as Hsub.
  { apply fsub_rounds; try assumption.
    - unfold fvalue. rewrite Ecs. exact Wcs.
    - rewrite Vs, Hdiff. destruct (Z.eq_dec D 0) as [-> | HDpos]; [left; lia | right].
      assert (2 ^ 53 <= Y) by (apply pow2_le; lia). nia. }
  rewrite Vs, Hdiff in Hsub.
  destruct (Z.eq_dec D 0) as [HD0 | HDpos].
  - (* no padding at all *)
    rewrite HD0, Z.mul_0_l in Hsub, Hdiff.
    assert (fvalue (cs - s) = 0) as Vd.
    { apply (rounds_exact 0 _ (S754_zero false) Hsub).
      - split; reflexivity.
      - reflexivity. }
    destruct Hsub as (Hd & _).
    destruct (fdiv_zero (cs - s) (ofInt (num := float) 2) Hd Vd H2 W2) as [Ho Vo].
    fold o in Ho, Vo.
    assert (rounds (fvalue o + fvalue s) (Prim2SF (o + s))) as Hadd
      by (apply fadd_rounds; try assumption; left; exact Vo).
    rewrite Vo, Z.add_0_l in Hadd.
    assert (fvalue (o + s) = fvalue s) as Vsum.
    { apply (rounds_exact (fvalue s) _ (Prim2SF s) Hadd); [apply ok_good; exact Hs | reflexivity]. }
    destruct Hadd as (Hsum & _).
    split; [exact Ho|]. split; [lia|].
    rewrite !fleb_value by assumption. rewrite Vsum, Vs, Vo, V0.
    repeat split; apply Z.leb_le; lia.
  - destruct D as [|k|k] eqn:ED; try lia.
    destruct (representable k e ltac:(lia) ltac:(lia)) as (g & Hg & Vg).
    fold Y in Vg.
    assert (fvalue (cs - s) = Zpos k * Y) as Vd
      by (apply (rounds_exact _ _ g Hsub); [apply ok_good; exact Hg | exact Vg]).
    destruct Hsub as (Hd & _).
    assert (window (fvalue (cs - s))) as Wd.
    { rewrite Vd. unfold window. split.
      - assert (2 ^ 1010 <= Y) by (apply pow2_le; lia). nia.
      - assert (Y <= 2 ^ 1055) by (apply pow2_le; lia).
        assert (Zpos k * Y < 2 ^ 53 * 2 ^ 1055) by nia.
        change (2 ^ 53 * 2 ^ 1055) with (2 ^ 1108) in *.
        assert (2 ^ 1108 < 2 ^ 1138) by (apply pow2_lt; lia). lia. }
    assert (roundsQ (fvalue (cs - s) * B) (fvalue (ofInt (num := float) 2))
              (Prim2SF o)) as Hdiv by (apply fdiv_rounds; assumption).
    pose proof Hd as Hd'. unfold fok in Hd'. unfold fvalue in Wd.
    destruct (ok_pos_inv _ Hd' (window_pos _ Wd)) as (md & ed & Ed).
    rewrite Ed in Hd', Wd.
    pose proof (window_exponent _ _ Hd' Wd) as Hed.
    destruct (half_ok md ed Hd' ltac:(lia)) as [Hh Vh].
    assert (fvalue o * 2 = fvalue (cs - s)) as Vo.
    { assert (value (Prim2SF o) = value (S754_finite false md (ed - 1))) as Hvg.
      { apply (roundsQ_exact _ _ _ _ Hdiv (ok_good _ Hh)).
        rewrite V2. unfold fvalue. rewrite Ed, <- Vh. ring. }
      unfold fvalue. rewrite Hvg, Ed. exact Vh. }
    destruct Hdiv as (Ho & _).
    assert (window (fvalue o)) as Wo.
    { unfold window.
      assert (2 ^ 1011 <= fvalue o * 2 < 2 ^ 1108) as Hbounds.
      { rewrite Vo, Vd.
        assert (2 ^ 1011 <= Y) by (apply pow2_le; lia).
        assert (Y <= 2 ^ 1055) by (apply pow2_le; lia).
        change (2 ^ 1108) with (2 ^ 53 * 2 ^ 1055). nia. }
      change (2 ^ 1011) with (2 ^ 1010 * 2) in Hbounds.
      assert (2 ^ 1108 < 2 ^ 1138) by (apply pow2_lt; lia). lia. }
    assert (rounds (fvalue o + fvalue s) (Prim2SF (o + s))) as Hadd
      by (apply fadd_rounds; try assumption; right; exact Wo).
    destruct Hadd as (Hsum & _ & Hup).
    specialize (Hup (Prim2SF cs) (ok_good _ Hcs)).
    split; [exact Ho|]. split; [rewrite Vo, Vd, Hdiff; reflexivity|].
    rewrite !fleb_value by assumption. rewrite Vs, V0.
    change (value (Prim2SF (o + s))) with (fvalue (o + s)) in Hup.
    change (value (Prim2SF cs)) with (fvalue cs) in Hup.
    assert (0 <= fvalue o) by (apply good_value_nonneg, ok_good; exact Ho).
    rewrite Vs in Hup.
    repeat split; apply Z.leb_le; lia.
Qed.


Lemma B_U : B = 2 ^ 53 * U.
Proof. reflexivity. Qed.

Lemma U_pos : 0 < U.
Proof. unfold U. apply pow2_pos. lia. Qed.

(** The five ratios as binary64 values, in units of [2^-53]: none is above
    the ratio it stands for, and no quotient of two image dimensions lies
    strictly between a ratio and the float just below it. *)
Lemma ratio_facts (t : AspectRatio) :
  exists rho rho',
    fok (targetRatio (num := float) t)
    /\ fvalue (targetRatio (num := float) t) = rho * U
    /\ fok (ratioBelow t)
    /\ fvalue (ratioBelow t) = rho' * U
    /\ rho' < rho
    /\ 5066549580791808 <= rho <= 16012798675095096
    /\ (forall W H, 1 <= W < 2 ^ 32 -> 1 <= H < 2 ^ 32 ->
          W * 2 ^ 53 < H * rho -> W * 2 ^ 53 <= H * rho').
Proof.
  destruct t;
    [ exists 9007199254740992, 9007199254740991
    | exists 6755399441055744, 6755399441055743
    | exists 12009599006321322, 12009599006321320
    | exists 16012798675095096, 16012798675095094
    | exists 5066549580791808, 5066549580791807 ];
    (split; [split; vm_compute; reflexivity|]);
    (split; [vm_compute; reflexivity|]);
    (split; [split; vm_compute; reflexivity|]);
    (split; [vm_compute; reflexivity|]);
    (split; [lia|]); (split; [lia|]); intros W H HW HH Hlt; lia.
Qed.


Lemma window_ratio (rho : Z) :
  5066549580791808 <= rho <= 16012798675095096 -> window (rho * U).
Proof. unfold window, U. lia. Qed.

Lemma window_dimension (S : Z) : 1 <= S < 2 ^ 32 -> window (S * B).
Proof. unfold window, B. lia. Qed.

(** The comparison of line 126 decides the exact comparison of the ratios. *)
Lemma imgRatio_decides (W H rho rho' : Z) (R Rp : float) :
  1 <= W < 2 ^ 32 -> 1 <= H < 2 ^ 32 ->
  fok R -> fvalue R = rho * U -> fok Rp -> fvalue Rp = rho' * U -> rho' < rho ->
  5066549580791808 <= rho <= 16012798675095096 ->
  (W * 2 ^ 53 < H * rho -> W * 2 ^ 53 <= H * rho') ->
  let r := (ofInt (num := float) W / ofInt (num := float) H)%float in
  (PrimFloat.ltb r R = true -> W * 2 ^ 53 < H * rho)
  /\ (PrimFloat.ltb r R = false -> H * rho <= W * 2 ^ 53).
Proof.
  intros HW HH HR VR HRp VRp Hlt Hrho Hgap r.
  destruct (ofInt_value W ltac:(lia)) as [Hw Vw].
  destruct (ofInt_value H ltac:(lia)) as [Hh Vh].
  assert (roundsQ (fvalue (ofInt (num := float) W) * B)
            (fvalue (ofInt (num := float) H)) (Prim2SF r)) as (Hr & Hlo & Hhi).
  { apply fdiv_rounds; try assumption.
    - rewrite Vw. apply window_dimension. exact HW.
    - rewrite Vh. apply window_dimension. exact HH. }
  rewrite Vw, Vh in Hlo, Hhi.
  rewrite (fltb_value r R Hr HR), VR.
  pose proof U_pos as HU. pose proof B_U as HB.
  split; intro Hcmp.
  - apply Z.ltb_lt in Hcmp.
    destruct (Z.lt_ge_cases (W * 2 ^ 53) (H * rho)) as [|Hge]; [assumption|].
    exfalso.
    specialize (Hlo (Prim2SF R) (ok_good _ HR)).
    change (value (Prim2SF R)) with (fvalue R) in Hlo.
    change (value (Prim2SF r)) with (fvalue r) in Hlo.
    rewrite VR in Hlo.
    assert (rho * U * (H * B) <= W * B * B); [|lia].
    replace (rho * U * (H * B)) with (H * rho * (U * B)) by ring.
    replace (W * B * B) with (W * 2 ^ 53 * (U * B)) by (rewrite HB; ring).
    apply Z.mul_le_mono_nonneg_r; [|exact Hge]. pose proof B_pos. nia.
  - apply Z.ltb_ge in Hcmp.
    destruct (Z.le_gt_cases (H * rho) (W * 2 ^ 53)) as [|Hgt]; [assumption|].
    exfalso. specialize (Hgap Hgt).
    specialize (Hhi (Prim2SF Rp) (ok_good _ HRp)).
    change (value (Prim2SF Rp)) with (fvalue Rp) in Hhi.
    change (value (Prim2SF r)) with (fvalue r) in Hhi.
    rewrite VRp in Hhi.
    assert (W * B * B <= rho' * U * (H * B)); [|nia].
    replace (rho' * U * (H * B)) with (H * rho' * (U * B)) by ring.
    replace (W * B * B) with (W * 2 ^ 53 * (U * B)) by (rewrite HB; ring).
    apply Z.mul_le_mono_nonneg_r; [|exact Hgap]. pose proof B_pos. nia.
Qed.


(** The integer part of a float that is not negative. *)
Lemma integerPart_value (x : float) :
  fok x -> integerPart x = fvalue x / B.
Proof.
  unfold fok, fvalue, integerPart, B. intros Hx.
  destruct (Prim2SF x) as [s|s| |[] m e]; try (exfalso; destruct Hx as [_ F]; exact F).
  - reflexivity.
  - apply ok_finite_inv in Hx as (He & _ & _). rewrite value_finite.
    destruct (Z.leb_spec 0 e) as [Hpos | Hneg].
    + rewrite (pow2_add e 1074) by lia. rewrite Z.mul_assoc.
      rewrite Z.div_mul by (pose proof (pow2_pos 1074 ltac:(lia)); lia). reflexivity.
    + replace 1074 with ((- e) + (e + 1074)) at 2 by lia.
      rewrite (pow2_add (- e) (e + 1074)) by lia.
      rewrite Z.div_mul_cancel_r;
        [reflexivity | pose proof (pow2_pos (- e) ltac:(lia)); lia
                     | pose proof (pow2_pos (e + 1074) ltac:(lia)); lia].
Qed.

(** The size the canvas element keeps of a computed size below [2^31]: its
    integer part, which is less than one pixel short. *)
Lemma reflectedSize_floor (default S : Z) (cs : float) :
  fok cs -> S * B <= fvalue cs <= (2 ^ 31 - 1) * B -> 0 <= S ->
  let n := reflectedSize default cs in
  S <= n <= 2 ^ 31 - 1 /\ n * B <= fvalue cs < (n + 1) * B.
Proof.
  intros Hcs Hrange HS. unfold reflectedSize, toUnsignedLong.
  rewrite (integerPart_value cs Hcs).
  pose proof B_pos as HB.
  assert (S <= fvalue cs / B) as Hlo by (apply Z.div_le_lower_bound; lia).
  assert (fvalue cs / B <= 2 ^ 31 - 1) as Hhi.
  { apply Z.lt_succ_r. apply Z.div_lt_upper_bound; lia. }
  rewrite Z.mod_small by lia.
  assert ((fvalue cs / B <=? 2147483647) = true) as -> by (apply Z.leb_le; lia).
  cbv zeta. split; [lia|].
  pose proof (Z.mul_div_le (fvalue cs) B HB).
  pose proof (Z.mul_succ_div_gt (fvalue cs) B HB). lia.
Qed.


Lemma element_axis (default S : Z) (cs : float) :
  fok cs -> S * B <= fvalue cs <= (2 ^ 31 - 1) * B -> 0 <= S ->
  let n := reflectedSize default cs in
  S <= n
  /\ PrimFloat.leb (ofInt (num := float) n) cs = true
  /\ PrimFloat.ltb cs (ofInt (num := float) (n + 1)) = true.
Proof.
  intros Hcs Hrange HS n.
  destruct (reflectedSize_floor default S cs Hcs Hrange HS) as [Hn Hfloor].
  fold n in Hn, Hfloor.
  destruct (ofInt_value n ltac:(lia)) as [Hn1 Vn1].
  destruct (ofInt_value (n + 1) ltac:(lia)) as [Hn2 Vn2].
  split; [lia|].
  rewrite (fleb_value _ _ Hn1 Hcs), (fltb_value _ _ Hcs Hn2), Vn1, Vn2.
  split; [apply Z.leb_le | apply Z.ltb_lt]; lia.
Qed.

Lemma padded_axis_holds (default S : Z) (cs : float) :
  1 <= S <= 2 ^ 30 -> fok cs -> S * B <= fvalue cs <= (2 ^ 31 - 1) * B ->
  axisHolds S cs ((cs - ofInt (num := float) S) / ofInt (num := float) 2)%float
            (reflectedSize default cs).
Proof.
  intros HS Hcs Hrange. pose proof B_pos as HB.
  assert (S * B <= fvalue cs <= 2 ^ 33 * B) as Hrange'.
  { split; [lia|]. apply Z.le_trans with ((2 ^ 31 - 1) * B); [lia|].
    apply Z.mul_le_mono_nonneg_r; lia. }
  destruct (padded_axis S cs ltac:(lia) Hcs Hrange') as (_ & H7 & H1 & H2 & H3).
  destruct (element_axis default S cs Hcs Hrange ltac:(lia)) as (H4 & H5 & H6).
  repeat split; assumption.
Qed.

Lemma kept_axis_holds (default S : Z) :
  1 <= S <= 2 ^ 30 ->
  axisHolds S (ofInt (num := float) S) (ofInt (num := float) 0)
            (reflectedSize default (ofInt (num := float) S))
  /\ reflectedSize default (ofInt (num := float) S) = S.
Proof.
  intros HS. pose proof B_pos as HB.
  destruct (ofInt_value S ltac:(lia)) as [Hs Vs].
  destruct (ofInt_value 0 ltac:(lia)) as [Hz Vz].
  destruct fzero as [H0 V0].
  assert (window (fvalue (ofInt (num := float) S))) as Ws
    by (rewrite Vs; apply window_dimension; lia).
  assert (rounds (fvalue (ofInt (num := float) 0) + fvalue (ofInt (num := float) S))
            (Prim2SF (ofInt (num := float) 0 + ofInt (num := float) S))) as Hadd
    by (apply fadd_rounds; try assumption; left; exact Vz).
  rewrite Vz, Z.add_0_l in Hadd.
  assert (fvalue (ofInt (num := float) 0 + ofInt (num := float) S)
          = fvalue (ofInt (num := float) S)) as Vsum.
  { apply (rounds_exact _ _ (Prim2SF (ofInt (num := float) S)) Hadd);
      [apply ok_good; exact Hs | reflexivity]. }
  destruct Hadd as (Hsum & _).
  assert (S * B <= fvalue (ofInt (num := float) S) <= (2 ^ 31 - 1) * B) as Hrange.
  { rewrite Vs. split; [lia | apply Z.mul_le_mono_nonneg_r; lia]. }
  destruct (element_axis default S (ofInt (num := float) S) Hs Hrange ltac:(lia))
    as (H4 & H5 & H6).
  destruct (reflectedSize_floor default S (ofInt (num := float) S) Hs Hrange ltac:(lia))
    as [Hn Hfloor].
  split.
  - unfold axisHolds. rewrite !fleb_value by assumption. rewrite Vsum, Vz, V0.
    repeat split; try (apply Z.leb_le; lia); try assumption. lia.
  - rewrite Vs in Hfloor. nia.
Qed.

Lemma createExpansionCanvas_float (W H : Z) (t : AspectRatio) :
  let w := ofInt (num := float) W in
  let h := ofInt (num := float) H in
  let R := targetRatio (num := float) t in
  createExpansionCanvas (num := float) W H t
  = if PrimFloat.ltb (w / h) R
    then {| canvasWidth := (h * R)%float; canvasHeight := h;
            offsetX := ((h * R - w) / ofInt (num := float) 2)%float;
            offsetY := ofInt (num := float) 0 |}
    else {| canvasWidth := w; canvasHeight := (w / R)%float;
            offsetX := ofInt (num := float) 0;
            offsetY := ((w / R - h) / ofInt (num := float) 2)%float |}.
Proof. reflexivity. Qed.

(** The canvas of every image of up to [2^30] pixels a side, in binary64. *)
Lemma createExpansionCanvas_axes (W H : Z) (t : AspectRatio) :
  1 <= W <= 2 ^ 30 -> 1 <= H <= 2 ^ 30 ->
  let c := createExpansionCanvas (num := float) W H t in
  let e := canvasElement c in
  axisHolds W (canvasWidth c) (offsetX c) (elementWidth e)
  /\ axisHolds H (canvasHeight c) (offsetY c) (elementHeight e)
  /\ (elementWidth e = W \/ elementHeight e = H).
Proof.
  intros HW HH.
  destruct (ratio_facts t) as (rho & rho' & HR & VR & HRp & VRp & Hlt & Hrho & Hgap).
  destruct (imgRatio_decides W H rho rho' _ _ ltac:(lia) ltac:(lia) HR VR HRp VRp Hlt Hrho
              (Hgap W H ltac:(lia) ltac:(lia))) as [Hwide Htall].
  destruct (ofInt_value W ltac:(lia)) as [Hw Vw].
  destruct (ofInt_value H ltac:(lia)) as [Hh Vh].
  pose proof (window_ratio rho Hrho) as WR. rewrite <- VR in WR.
  pose proof (window_dimension W ltac:(lia)) as Ww. rewrite <- Vw in Ww.
  pose proof (window_dimension H ltac:(lia)) as Wh. rewrite <- Vh in Wh.
  destruct (ofInt_value (2 ^ 31 - 1) ltac:(lia)) as [Hmax Vmax].
  pose proof U_pos as HU. pose proof B_pos as HBpos. pose proof B_U as HB.
  cbv zeta. unfold canvasElement. rewrite createExpansionCanvas_float. cbv zeta.
  destruct (PrimFloat.ltb _ _) eqn:Hcmp;
    cbn [canvasWidth canvasHeight offsetX offsetY elementWidth elementHeight].
  - (* wider than image *)
    specialize (Hwide eq_refl).
    assert (roundsQ (fvalue (ofInt (num := float) H) * fvalue (targetRatio (num := float) t)) B
              (Prim2SF (ofInt (num := float) H * targetRatio (num := float) t)))
      as (Hcw & Hlo & Hhi) by (apply fmul_rounds; assumption).
    rewrite Vh, VR in Hlo, Hhi.
    assert (W * B <= fvalue (ofInt (num := float) H * targetRatio (num := float) t)
            <= (2 ^ 31 - 1) * B) as Hrange.
    { split.
      - rewrite <- Vw. apply (Hlo _ (ok_good _ Hw)).
        change (value (Prim2SF (ofInt (num := float) W))) with (fvalue (ofInt (num := float) W)).
        rewrite Vw.
        replace (H * B * (rho * U)) with (H * rho * (U * B)) by ring.
        replace (W * B * B) with (W * 2 ^ 53 * (U * B)) by (rewrite HB; ring).
        apply Z.mul_le_mono_nonneg_r; [nia | lia].
      - rewrite <- Vmax. apply (Hhi _ (ok_good _ Hmax)).
        change (value (Prim2SF (ofInt (num := float) (2 ^ 31 - 1))))
          with (fvalue (ofInt (num := float) (2 ^ 31 - 1))).
        rewrite Vmax.
        replace (H * B * (rho * U)) with (H * rho * (U * B)) by ring.
        replace ((2 ^ 31 - 1) * B * B) with ((2 ^ 31 - 1) * 2 ^ 53 * (U * B))
          by (rewrite HB; ring).
        apply Z.mul_le_mono_nonneg_r; [nia | nia]. }
    destruct (kept_axis_holds 150 H HH) as [Hkept Hsame].
    split; [apply padded_axis_holds; assumption|]. split; [exact Hkept|].
    right. exact Hsame.
  - (* taller than image *)
    specialize (Htall eq_refl).
    assert (roundsQ (fvalue (ofInt (num := float) W) * B) (fvalue (targetRatio (num := float) t))
              (Prim2SF (ofInt (num := float) W / targetRatio (num := float) t)))
      as (Hch & Hlo & Hhi) by (apply fdiv_rounds; assumption).
    rewrite Vw, VR in Hlo, Hhi.
    assert (H * B <= fvalue (ofInt (num := float) W / targetRatio (num := float) t)
            <= (2 ^ 31 - 1) * B) as Hrange.
    { split.
      - rewrite <- Vh. apply (Hlo _ (ok_good _ Hh)).
        change (value (Prim2SF (ofInt (num := float) H))) with (fvalue (ofInt (num := float) H)).
        rewrite Vh.
        replace (H * B * (rho * U)) with (H * rho * (U * B)) by ring.
        replace (W * B * B) with (W * 2 ^ 53 * (U * B)) by (rewrite HB; ring).
        apply Z.mul_le_mono_nonneg_r; [nia | lia].
      - rewrite <- Vmax. apply (Hhi _ (ok_good _ Hmax)).
        change (value (Prim2SF (ofInt (num := float) (2 ^ 31 - 1))))
          with (fvalue (ofInt (num := float) (2 ^ 31 - 1))).
        rewrite Vmax.
        replace ((2 ^ 31 - 1) * B * (rho * U)) with ((2 ^ 31 - 1) * rho * (U * B)) by ring.
        replace (W * B * B) with (W * 2 ^ 53 * (U * B)) by (rewrite HB; ring).
        apply Z.mul_le_mono_nonneg_r; [nia | nia]. }
    destruct (kept_axis_holds 300 W HW) as [Hkept Hsame].
    split; [exact Hkept|]. split; [apply padded_axis_holds; assumption|].
    left. exact Hsame.
Qed.

(** C10, as the code has it.  For a source image of 1 to [2^30] pixels a side
    and each of the five ratios, in binary64: the computed canvas is at least
    as wide and as high as the source, both offsets are non-negative, and
    [offsetX + width <= canvasWidth] and [offsetY + height <= canvasHeight]
    hold of the computed numbers.  The canvas element, which keeps the
    integer part of the computed size, is at least as wide and as high as the
    source as well, and less than one pixel smaller than the computed size;
    on one axis it has exactly the size of the source. *)
Theorem createExpansionCanvas_contains_image :
  forall (sourceWidth sourceHeight : Z) (t : AspectRatio),
    0 < sourceWidth <= 2 ^ 30 -> 0 < sourceHeight <= 2 ^ 30 ->
    let w := ofInt (num := float) sourceWidth in
    let h := ofInt (num := float) sourceHeight in
    let c := createExpansionCanvas (num := float) sourceWidth sourceHeight t in
    let e := canvasElement c in
    PrimFloat.leb w (canvasWidth c) = true
    /\ PrimFloat.leb h (canvasHeight c) = true
    /\ PrimFloat.leb 0 (offsetX c) = true
    /\ PrimFloat.leb 0 (offsetY c) = true
    /\ PrimFloat.leb (offsetX c + w) (canvasWidth c) = true
    /\ PrimFloat.leb (offsetY c + h) (canvasHeight c) = true
    /\ sourceWidth <= elementWidth e
    /\ sourceHeight <= elementHeight e
    /\ PrimFloat.leb (ofInt (num := float) (elementWidth e)) (canvasWidth c) = true
    /\ PrimFloat.ltb (canvasWidth c) (ofInt (num := float) (elementWidth e + 1)) = true
    /\ PrimFloat.leb (ofInt (num := float) (elementHeight e)) (canvasHeight c) = true
    /\ PrimFloat.ltb (canvasHeight c) (ofInt (num := float) (elementHeight e + 1)) = true
    /\ (elementWidth e = sourceWidth \/ elementHeight e = sourceHeight).
Proof.
  intros W H t HW HH w h c e.
  destruct (createExpansionCanvas_axes W H t ltac:(lia) ltac:(lia))
    as ((X1 & X2 & X3 & X4 & X5 & X6 & _) & (Y1 & Y2 & Y3 & Y4 & Y5 & Y6 & _) & Hkept).
  repeat split; assumption.
Qed.

Lemma createExpansionCanvas_contains_image_witness :
  let c := createExpansionCanvas (num := float) 1000 1333 R3_4 in
  let e := canvasElement c in
  PrimFloat.leb 1000 (canvasWidth c) = true
  /\ PrimFloat.leb 1333 (canvasHeight c) = true
  /\ PrimFloat.leb 0 (offsetX c) = true
  /\ PrimFloat.leb 0 (offsetY c) = true
  /\ PrimFloat.leb (offsetX c + 1000) (canvasWidth c) = true
  /\ PrimFloat.leb (offsetY c + 1333) (canvasHeight c) = true
  /\ 1000 <= elementWidth e
  /\ 1333 <= elementHeight e
  /\ PrimFloat.leb (ofInt (num := float) (elementWidth e)) (canvasWidth c) = true
  /\ PrimFloat.ltb (canvasWidth c) (ofInt (num := float) (elementWidth e + 1)) = true
  /\ PrimFloat.leb (ofInt (num := float) (elementHeight e)) (canvasHeight c) = true
  /\ PrimFloat.ltb (canvasHeight c) (ofInt (num := float) (elementHeight e + 1)) = true
  /\ (elementWidth e = 1000 \/ elementHeight e = 1333).
Proof.
  exact (createExpansionCanvas_contains_image 1000 1333 R3_4
           ltac:(lia) ltac:(lia)).
Defined.

(** X8. In binary64 the source is centred exactly: for an image of up to
    [2^30] pixels a side, twice each offset is the padding of its axis, the
    computed size less the size of the source.  The subtraction and the
    halving of lines 130 and 135 lose no bits. *)
Theorem createExpansionCanvas_centred :
  forall (sourceWidth sourceHeight : Z) (t : AspectRatio),
    0 < sourceWidth <= 2 ^ 30 -> 0 < sourceHeight <= 2 ^ 30 ->
    let c := createExpansionCanvas (num := float) sourceWidth sourceHeight t in
    fvalue (offsetX c) * 2 = fvalue (canvasWidth c) - sourceWidth * B
    /\ fvalue (offsetY c) * 2 = fvalue (canvasHeight c) - sourceHeight * B.
Proof.
  intros W H t HW HH c.
  destruct (createExpansionCanvas_axes W H t ltac:(lia) ltac:(lia))
    as ((_ & _ & _ & _ & _ & _ & X) & (_ & _ & _ & _ & _ & _ & Y) & _).
  split; assumption.
Qed.

Lemma createExpansionCanvas_centred_witness :
  let c := createExpansionCanvas (num := float) 400 400 R16_9 in
  fvalue (offsetX c) * 2 = fvalue (canvasWidth c) - 400 * B
  /\ fvalue (offsetY c) * 2 = fvalue (canvasHeight c) - 400 * B.
Proof.
  exact (createExpansionCanvas_centred 400 400 R16_9 ltac:(lia) ltac:(lia)).
Defined.

End Binary64Facts.

Set Implicit Arguments.

(** ** Strings *)

Section StringFacts.

Local Open Scope string_scope.

Lemma startsWith_app (p s : string) : Str.startsWith p (p ++ s) = true.
Proof.
  induction p as [|c p IH]; simpl; [reflexivity|].
  rewrite Ascii.eqb_refl. exact IH.
Qed.

Lemma includes_of_startsWith (p s : string) :
  Str.startsWith p s = true -> Str.includes p s = true.
Proof. intro Hs. destruct s; simpl in *; rewrite Hs; reflexivity. Qed.

Lemma includes_app (pre p post : string) :
  Str.includes p (pre ++ p ++ post) = true.
Proof.
  induction pre as [|c pre IH]; simpl.
  - apply includes_of_startsWith, startsWith_app.
  - rewrite IH. apply orb_true_r.
Qed.

Lemma append_empty_r (s : string) : s ++ "" = s.
Proof. induction s as [|c s IH]; simpl; congruence. Qed.

(** The generic message contains the text of the error it wraps. *)
Lemma genericMessage_includes (m : string) :
  Str.includes m (App.genericMessage m) = true.
Proof.
  unfold App.genericMessage.
  rewrite <- (append_empty_r m) at 2. apply includes_app.
Qed.

Lemma quotaMessage_not_generic (m : string) :
  App.quotaMessage <> App.genericMessage m.
Proof. unfold App.quotaMessage, App.genericMessage. simpl. discriminate. Qed.

(** The two signatures [isRateLimitError] looks for. *)
Example isRateLimitError_samples :
  map App.isRateLimitError
    ["429 Too Many Requests"; "status: RESOURCE_EXHAUSTED";
     "Resource_Exhausted: quota"; "got 4290 items"; "Network error";
     "A IA não retornou uma imagem editada."; ""]
  = [true; true; true; true; false; false; false].
Proof. reflexivity. Qed.

(** Interpolated numbers, and [Number] reading them back. *)
Example showInt_samples :
  map Str.showInt [0; 7; 10; 4000; 1700000000000]
  = ["0"; "7"; "10"; "4000"; "1700000000000"]
  /\ map (fun n => Str.Number (Str.showInt n)) [0; 7; 10; 4000; 1700000000000]
    = map Some [0; 7; 10; 4000; 1700000000000]
  /\ map Str.showDiv1000 [2000; 4000; 1500; 250; 16000]
    = ["2"; "4"; "1.5"; "0.25"; "16"].
Proof. repeat split. Qed.

End StringFacts.

(** ** The task runner *)

Section RunnerFacts.

Import App.
Local Open Scope list_scope.

Lemma scheduleOf_effects (effects : list Effect) :
  scheduleOf (map TaskEffect effects) = [].
Proof. induction effects; simpl; auto. Qed.

Lemma attemptsOf_scheduleOf (events : list Event) :
  attemptsOf (scheduleOf events) = attemptsOf events.
Proof.
  induction events as [|ev events IH]; [reflexivity|].
  destruct ev; simpl; rewrite ?IH; reflexivity.
Qed.

Lemma backoffsOf_scheduleOf (events : list Event) :
  backoffsOf (scheduleOf events) = backoffsOf events.
Proof.
  induction events as [|ev events IH]; [reflexivity|].
  destruct ev; simpl; rewrite ?IH; reflexivity.
Qed.

Lemma progressOf_scheduleOf (events : list Event) :
  progressOf (scheduleOf events) = progressOf events.
Proof.
  induction events as [|ev events IH]; [reflexivity|].
  destruct ev; simpl; rewrite ?IH; reflexivity.
Qed.

Lemma retries_S (d : Z) (a n : nat) :
  retries d a (S n) =
  [Attempt a; Progress (retryMessage (d * 2 ^ Z.of_nat a));
   Backoff (d * 2 ^ Z.of_nat a)] ++ retries d (S a) n.
Proof. reflexivity. Qed.

Lemma attemptsOf_retries (d : Z) (n a j : nat) :
  attemptsOf (retries d a n ++ [Attempt j]) = seq a n ++ [j].
Proof.
  revert a. induction n as [|n IH]; intro a; [reflexivity|].
  rewrite retries_S. simpl. f_equal. apply IH.
Qed.

Lemma backoffsOf_retries (d : Z) (n a j : nat) :
  backoffsOf (retries d a n ++ [Attempt j])
  = map (fun attempt => d * 2 ^ Z.of_nat attempt) (seq a n).
Proof.
  revert a. induction n as [|n IH]; intro a; [reflexivity|].
  rewrite retries_S. simpl. f_equal. apply IH.
Qed.

Lemma progressOf_retries (d : Z) (n a j : nat) :
  progressOf (retries d a n ++ [Attempt j])
  = map (fun attempt => retryMessage (d * 2 ^ Z.of_nat attempt)) (seq a n).
Proof.
  revert a. induction n as [|n IH]; intro a; [reflexivity|].
  rewrite retries_S. simpl. f_equal. apply IH.
Qed.

Variable maxRetries : nat.
Variable initialDelay : Z.

(** One iteration of the loop, case by case. *)
Lemma attemptLoop_step (task : Task) (attempt : nat) (later : list nat)
    (s s' : State) (events : list Event) :
  attemptLoop maxRetries initialDelay task (attempt :: later) s = Some (s', events) ->
  exists r s1 effects,
    task attempt s = Some (r, s1, effects) /\
    match r with
    | inr _ => s' = setIsLoading false s1 /\ scheduleOf events = [Attempt attempt]
    | inl e =>
        if isRateLimitError (errorMessage e) && (attempt <? maxRetries)%nat then
          exists rest,
            attemptLoop maxRetries initialDelay task later
              (setLoadingMessage
                 (retryMessage (initialDelay * 2 ^ Z.of_nat attempt)) s1)
              = Some (s', rest)
            /\ scheduleOf events = retries initialDelay attempt 1 ++ scheduleOf rest
        else
          s' = setIsLoading false
                 (setError (if isRateLimitError (errorMessage e) then quotaMessage
                            else genericMessage (errorMessage e)) s1)
          /\ scheduleOf events = [Attempt attempt]
    end.
Proof.
  cbn [attemptLoop].
  destruct (task attempt s) as [[[r s1] effects]|]; [|discriminate].
  intros Hrun. exists r, s1, effects. split; [reflexivity|].
  destruct r as [e|u].
  - destruct (isRateLimitError (errorMessage e) && (attempt <? maxRetries)%nat).
    + destruct (attemptLoop _ _ _ later _) as [[s3 rest]|]; [|discriminate].
      injection Hrun as <- <-. exists rest. split; [reflexivity|].
      unfold scheduleOf. simpl. rewrite !filter_app. simpl.
      fold (scheduleOf (map TaskEffect effects)). rewrite scheduleOf_effects.
      reflexivity.
    + injection Hrun as <- <-. split.
      * destruct (isRateLimitError (errorMessage e)); reflexivity.
      * unfold scheduleOf. simpl. rewrite !filter_app. simpl.
        fold (scheduleOf (map TaskEffect effects)). rewrite scheduleOf_effects.
        reflexivity.
  - injection Hrun as <- <-. split; [reflexivity|].
    unfold scheduleOf. simpl.
    fold (scheduleOf (map TaskEffect effects)). rewrite scheduleOf_effects.
    reflexivity.
Qed.

(** Every run of the loop that returns has cleared the loading flag and has
    the shape: some retries from attempt 0 on, each with its message and its
    wait, then one last attempt. *)
Lemma attemptLoop_schedule (task : Task) :
  forall (n a : nat) (s s' : State) (events : list Event),
    (a + n = S maxRetries)%nat -> n <> O ->
    attemptLoop maxRetries initialDelay task (seq a n) s = Some (s', events) ->
    isLoading s' = false
    /\ exists j, (a <= j <= maxRetries)%nat
         /\ scheduleOf events = retries initialDelay a (j - a) ++ [Attempt j].
Proof.
  induction n as [|n IH]; intros a s s' events Hlen Hn Hrun; [congruence|].
  cbn [seq] in Hrun.
  destruct (attemptLoop_step _ _ _ _ Hrun) as (r & s1 & effects & Htask & Hcase).
  destruct r as [e|u].
  - destruct (isRateLimitError (errorMessage e) && (a <? maxRetries)%nat) eqn:Eretry.
    + destruct Hcase as (rest & Hrest & Hsched).
      apply andb_true_iff in Eretry. destruct Eretry as [_ Hlt].
      apply Nat.ltb_lt in Hlt.
      destruct (IH (S a) _ _ _ ltac:(lia) ltac:(lia) Hrest) as (Hload & j & Hj & Hj').
      split; [exact Hload|]. exists j. split; [lia|].
      rewrite Hsched, Hj'.
      replace (j - a)%nat with (S (j - S a)) by lia.
      rewrite retries_S. unfold retries at 1. simpl. reflexivity.
    + destruct Hcase as [-> Hsched]. split; [reflexivity|].
      exists a. split; [lia|]. rewrite Nat.sub_diag. exact Hsched.
  - destruct Hcase as [-> Hsched]. split; [reflexivity|].
    exists a. split; [lia|]. rewrite Nat.sub_diag. exact Hsched.
Qed.

(** The loop returns whenever every call of the task settles. *)
Lemma attemptLoop_returns (task : Task) :
  (forall k s, task k s <> None) ->
  forall (attempts : list nat) (s : State),
    attemptLoop maxRetries initialDelay task attempts s <> None.
Proof.
  intros Hsettles attempts.
  induction attempts as [|attempt later IH]; intro s; cbn [attemptLoop]; [discriminate|].
  specialize (Hsettles attempt s).
  destruct (task attempt s) as [[[[e|u] s1] effects]|]; [| discriminate | congruence].
  destruct (isRateLimitError (errorMessage e) && (attempt <? maxRetries)%nat);
    [|discriminate].
  specialize (IH (setLoadingMessage
                    (retryMessage (initialDelay * 2 ^ Z.of_nat attempt)) s1)).
  destruct (attemptLoop _ _ _ later _) as [[s3 rest]|]; [discriminate | congruence].
Qed.

End RunnerFacts.

Section RetryFacts.

Import App.
Local Open Scope list_scope.

Variable maxRetries : nat.
Variable initialDelay : Z.

(** A task that is rate-limited on every call uses up every attempt. *)
Lemma attemptLoop_exhaustion (task : Task) :
  (forall k s0, exists e s1 effects,
      task k s0 = Some (inl e, s1, effects)
      /\ isRateLimitError (errorMessage e) = true) ->
  forall (n a : nat) (s : State),
    (a + n = S maxRetries)%nat -> n <> O ->
    exists s' events,
      attemptLoop maxRetries initialDelay task (seq a n) s = Some (s', events)
      /\ error s' = quotaMessage
      /\ isLoading s' = false
      /\ scheduleOf events
         = retries initialDelay a (maxRetries - a) ++ [Attempt maxRetries].
Proof.
  intros Hlimited.
  assert (forall k s, task k s <> None) as Hsettles.
  { intros k s. destruct (Hlimited k s) as (e & s1 & effects & -> & _). discriminate. }
  induction n as [|n IH]; intros a s Hlen Hn; [congruence|].
  destruct (attemptLoop maxRetries initialDelay task (seq a (S n)) s)
    as [[s' events]|] eqn:Hrun;
    [| exfalso; eapply attemptLoop_returns; [exact Hsettles | exact Hrun]].
  exists s', events. split; [reflexivity|].
  cbn [seq] in Hrun.
  apply attemptLoop_step in Hrun as (r & s1 & effects & Htask & Hcase).
  destruct (Hlimited a s) as (e & s1' & effects' & Htask' & Hshape).
  rewrite Htask in Htask'. injection Htask' as -> -> ->.
  rewrite Hshape in Hcase. cbn [andb] in Hcase.
  destruct (a <? maxRetries)%nat eqn:Hlt.
  - apply Nat.ltb_lt in Hlt.
    destruct Hcase as (rest & Hrest & Hsched).
    destruct (IH (S a)
                (setLoadingMessage
                   (retryMessage (initialDelay * 2 ^ Z.of_nat a)) s1')
                ltac:(lia) ltac:(lia))
      as (s'' & events'' & Hrun'' & Herr & Hload & Hsched'').
    rewrite Hrest in Hrun''. injection Hrun'' as <- <-.
    repeat split; try assumption.
    rewrite Hsched, Hsched''.
    replace (maxRetries - a)%nat with (S (maxRetries - S a)) by lia.
    rewrite retries_S. unfold retries at 1. simpl. reflexivity.
  - apply Nat.ltb_ge in Hlt. destruct Hcase as [-> Hsched].
    assert (a = maxRetries) as Hlast by lia.
    repeat split.
    rewrite Hsched, Hlast, Nat.sub_diag. reflexivity.
Qed.

End RetryFacts.

Section RunAIFacts.

Import App.
Local Open Scope string_scope.
Local Open Scope list_scope.

(** C2. With the client configured, a task whose every call fails with a
    rate-limit-shaped error is called by [runAI] (maxRetries = 2) exactly
    2 + 1 = 3 times, attempts 0, 1 and 2, after which the error slot holds the
    quota-exceeded message, which is not the generic message of any error. *)
Theorem runAI_rate_limit_exhaustion :
  forall (r : Render) (task : Task) (message : string) (s : State),
    ai r <> None ->
    (forall k s0, exists e s1 effects,
        task k s0 = Some (inl e, s1, effects)
        /\ isRateLimitError (errorMessage e) = true) ->
    exists s' events,
      runAI r task message s = Some (s', events)
      /\ attemptsOf events = [0; 1; 2]%nat
      /\ length (attemptsOf events) = (2 + 1)%nat
      /\ error s' = quotaMessage
      /\ (forall m, error s' <> genericMessage m)
      /\ isLoading s' = false.
Proof.
  intros r task message s Hai Hlimited. unfold runAI.
  destruct (ai r) as [client|]; [|congruence]. unfold runLoop.
  destruct (@attemptLoop_exhaustion 2 2000 task Hlimited 3 0
              (setResultVideoUrl None
                 (setResultImage None
                    (setError "" (setLoadingMessage message (setIsLoading true s)))))
              eq_refl ltac:(discriminate))
    as (s' & events & Hrun & Herr & Hload & Hsched).
  exists s', events.
  assert (attemptsOf events = [0; 1; 2]%nat) as Hattempts.
  { rewrite <- attemptsOf_scheduleOf, Hsched. apply attemptsOf_retries. }
  repeat split; try assumption.
  - rewrite Hattempts. reflexivity.
  - intro m. rewrite Herr. apply quotaMessage_not_generic.
Qed.

Lemma runAI_rate_limit_exhaustion_witness :
  exists s' events,
    runAI Samples.render Samples.alwaysRateLimited "Expandindo imagem..." initialState
      = Some (s', events)
    /\ attemptsOf events = [0; 1; 2]%nat
    /\ length (attemptsOf events) = (2 + 1)%nat
    /\ error s' = quotaMessage
    /\ (forall m, error s' <> genericMessage m)
    /\ isLoading s' = false.
Proof.
  apply (@runAI_rate_limit_exhaustion Samples.render Samples.alwaysRateLimited).
  - discriminate.
  - intros k s0. exists (ErrorObject "429 RESOURCE_EXHAUSTED"), s0, [].
    split; reflexivity.
Defined.

(** C3. With the client configured, a task whose every call fails with an
    error that is not rate-limit-shaped is called by [runAI] exactly once:
    the run is that one attempt, with no progress message and no wait, and the
    error slot holds the generic message, which contains the message text of
    the error that was caught. *)
Theorem runAI_terminal_failure :
  forall (r : Render) (task : Task) (message : string) (s : State),
    ai r <> None ->
    (forall k s0, exists e s1 effects,
        task k s0 = Some (inl e, s1, effects)
        /\ isRateLimitError (errorMessage e) = false) ->
    exists s' events e,
      runAI r task message s = Some (s', events)
      /\ scheduleOf events = [Attempt 0%nat]
      /\ attemptsOf events = [0%nat]
      /\ backoffsOf events = []
      /\ progressOf events = []
      /\ In (ConsoleError 1 e) events
      /\ error s' = genericMessage (errorMessage e)
      /\ Str.includes (errorMessage e) (error s') = true
      /\ isLoading s' = false.
Proof.
  intros r task message s Hai Hbroken. unfold runAI.
  destruct (ai r) as [client|]; [|congruence].
  unfold runLoop. cbn [seq attemptLoop].
  destruct (Hbroken 0%nat
              (setResultVideoUrl None
                 (setResultImage None
                    (setError "" (setLoadingMessage message (setIsLoading true s))))))
    as (e & s1 & effects & -> & Hshape).
  cbv zeta. rewrite Hshape. cbn [andb].
  eexists _, _, e. split; [reflexivity|].
  assert (scheduleOf (Attempt 0 :: map TaskEffect effects ++ [ConsoleError (0 + 1) e])
          = [Attempt 0%nat]) as Hsched.
  { unfold scheduleOf. simpl. rewrite filter_app. simpl.
    fold (scheduleOf (map TaskEffect effects)). rewrite scheduleOf_effects.
    reflexivity. }
  repeat split.
  - exact Hsched.
  - rewrite <- attemptsOf_scheduleOf, Hsched. reflexivity.
  - rewrite <- backoffsOf_scheduleOf, Hsched. reflexivity.
  - rewrite <- progressOf_scheduleOf, Hsched. reflexivity.
  - right. apply in_or_app. right. left. reflexivity.
  - apply genericMessage_includes.
Qed.

Lemma runAI_terminal_failure_witness :
  exists s' events e,
    runAI Samples.render Samples.alwaysBroken "Expandindo imagem..." initialState
      = Some (s', events)
    /\ scheduleOf events = [Attempt 0%nat]
    /\ attemptsOf events = [0%nat]
    /\ backoffsOf events = []
    /\ progressOf events = []
    /\ In (ConsoleError 1 e) events
    /\ error s' = genericMessage (errorMessage e)
    /\ Str.includes (errorMessage e) (error s') = true
    /\ isLoading s' = false.
Proof.
  apply (@runAI_terminal_failure Samples.render Samples.alwaysBroken).
  - discriminate.
  - intros k s0. exists (ErrorObject "Failed to fetch"), s0, [].
    split; reflexivity.
Defined.

(** C4. Every run of the loop that returns is a number [j <= maxRetries] of
    retries, attempts 0 to j-1, each followed by the progress message for its
    delay and by a wait of exactly [initialDelay * 2 ^ attempt] milliseconds,
    and then attempt [j].  With the constants of [runAI] (2000 ms, 2 retries)
    and a task that is rate-limited on every call, the waits are 2000 then
    4000, each announced as 2s and 4s, between attempts 0, 1 and 2. *)
Theorem runAI_backoff_schedule :
  (forall (maxRetries : nat) (initialDelay : Z) (task : Task)
          (s s' : State) (events : list Event),
      runLoop maxRetries initialDelay task s = Some (s', events) ->
      exists j, (j <= maxRetries)%nat
        /\ scheduleOf events = retries initialDelay 0 j ++ [Attempt j]
        /\ backoffsOf events
           = map (fun attempt => initialDelay * 2 ^ Z.of_nat attempt) (seq 0 j)
        /\ progressOf events
           = map (fun attempt =>
                    ("Limite de API atingido. Tentando novamente em "
                     ++ Str.showDiv1000 (initialDelay * 2 ^ Z.of_nat attempt)
                     ++ "s...")%string) (seq 0 j))
  /\ (forall (r : Render) (task : Task) (message : string) (s : State),
      ai r <> None ->
      (forall k s0, exists e s1 effects,
          task k s0 = Some (inl e, s1, effects)
          /\ isRateLimitError (errorMessage e) = true) ->
      exists s' events,
        runAI r task message s = Some (s', events)
        /\ scheduleOf events =
             [Attempt 0%nat;
              Progress "Limite de API atingido. Tentando novamente em 2s...";
              Backoff 2000;
              Attempt 1%nat;
              Progress "Limite de API atingido. Tentando novamente em 4s...";
              Backoff 4000;
              Attempt 2%nat]
        /\ backoffsOf events = [2000; 4000]).
Proof.
  split.
  - intros maxRetries initialDelay task s s' events Hrun. unfold runLoop in Hrun.
    destruct (@attemptLoop_schedule maxRetries initialDelay task
                (S maxRetries) 0%nat s s' events eq_refl ltac:(discriminate) Hrun)
      as (_ & j & Hj & Hsched).
    rewrite Nat.sub_0_r in Hsched.
    exists j. repeat split.
    + lia.
    + exact Hsched.
    + rewrite <- backoffsOf_scheduleOf, Hsched. apply backoffsOf_retries.
    + rewrite <- progressOf_scheduleOf, Hsched. apply progressOf_retries.
  - intros r task message s Hai Hlimited. unfold runAI.
    destruct (ai r) as [client|]; [|congruence]. unfold runLoop.
    destruct (@attemptLoop_exhaustion 2 2000 task Hlimited 3 0
                (setResultVideoUrl None
                   (setResultImage None
                      (setError "" (setLoadingMessage message (setIsLoading true s)))))
                eq_refl ltac:(discriminate))
      as (s' & events & Hrun & _ & _ & Hsched).
    exists s', events. repeat split.
    + exact Hrun.
    + exact Hsched.
    + rewrite <- backoffsOf_scheduleOf, Hsched. reflexivity.
Qed.

(** The retry scenario of the specification: two rate-limited calls, then a
    success, with waits of 2000 ms and 4000 ms in that order. *)
Lemma runAI_backoff_schedule_witness :
  exists s' events j,
    runLoop 2 2000 Samples.twiceRateLimited initialState = Some (s', events)
    /\ (j <= 2)%nat
    /\ scheduleOf events = retries 2000 0 j ++ [Attempt j]
    /\ backoffsOf events = [2000; 4000]
    /\ error s' = "".
Proof.
  eassert (runLoop 2 2000 Samples.twiceRateLimited initialState = Some (_, _))
    as Hrun by reflexivity.
  destruct (proj1 runAI_backoff_schedule _ _ _ _ _ _ Hrun)
    as (j & Hj & Hsched & _).
  eexists _, _, j. repeat split; try eassumption; reflexivity.
Defined.

(** The loading flag after [runAI], on each side of its guard. *)
Lemma runAI_idle (r : Render) (task : Task) (message : string)
    (s s' : State) (events : list Event) :
  runAI r task message s = Some (s', events) ->
  isLoading s' = match ai r with Some _ => false | None => isLoading s end.
Proof.
  unfold runAI. destruct (ai r) as [client|]; intro Hrun.
  - unfold runLoop in Hrun.
    apply attemptLoop_schedule in Hrun; [tauto | reflexivity | discriminate].
  - injection Hrun as <- _. reflexivity.
Qed.

Lemma runAI_returns (r : Render) (task : Task) (message : string) (s : State) :
  (forall k s0, task k s0 <> None) -> runAI r task message s <> None.
Proof.
  intro Hsettles. unfold runAI. destruct (ai r); [|discriminate].
  apply attemptLoop_returns. exact Hsettles.
Qed.

(** C9. Whenever [runAI] returns, the loading flag is clear: after a success
    on any attempt, after a terminal failure and after exhaustion alike.
    (If the client is not configured [runAI] returns at its guard without
    touching the flag, which no other code sets.)  And [runAI] does return
    whenever every call of the task settles. *)
Theorem runAI_clears_loading :
  forall (r : Render) (task : Task) (message : string) (s : State),
    ai r <> None \/ isLoading s = false ->
    (forall s' events,
        runAI r task message s = Some (s', events) -> isLoading s' = false)
    /\ ((forall k s0, task k s0 <> None) ->
        exists s' events, runAI r task message s = Some (s', events)).
Proof.
  intros r task message s Hguard. split.
  - intros s' events Hrun. rewrite (@runAI_idle _ _ _ _ _ _ Hrun).
    destruct (ai r); [reflexivity|]. destruct Hguard; congruence.
  - intro Hsettles.
    destruct (runAI r task message s) as [[s' events]|] eqn:Hrun.
    + exists s', events. reflexivity.
    + exfalso. eapply runAI_returns; [exact Hsettles | exact Hrun].
Qed.

Lemma runAI_clears_loading_witness :
  exists s' events,
    runAI Samples.render Samples.twiceRateLimited "Expandindo imagem..."
      (setIsLoading true initialState) = Some (s', events)
    /\ isLoading s' = false.
Proof.
  assert (ai Samples.render <> None) as Hai by discriminate.
  destruct (@runAI_clears_loading Samples.render Samples.twiceRateLimited
              "Expandindo imagem..." (setIsLoading true initialState)
              (or_introl Hai))
    as [Hclear _].
  destruct (runAI Samples.render Samples.twiceRateLimited "Expandindo imagem..."
              (setIsLoading true initialState)) as [[s' events]|] eqn:Hrun.
  - exists s', events. split; [reflexivity|]. exact (Hclear s' events eq_refl).
  - discriminate Hrun.
Defined.

(** From the first render on, the flag is clear between runs. *)
Lemma runAI_session_idle (r : Render) (runs : list (Task * string)) :
  forall s s',
    isLoading s = false ->
    fold_left (fun st run =>
                 match st with
                 | Some st => option_map fst (runAI r (fst run) (snd run) st)
                 | None => None
                 end) runs (Some s) = Some s' ->
    isLoading s' = false.
Proof.
  induction runs as [|[task message] runs IH]; intros s s' Hs Hruns; simpl in Hruns.
  - congruence.
  - destruct (runAI r task message s) as [[s1 events]|] eqn:Hrun; simpl in Hruns.
    + apply (IH s1 s'); [|exact Hruns].
      rewrite (@runAI_idle _ _ _ _ _ _ Hrun). destruct (ai r); congruence.
    + exfalso. clear -Hruns. induction runs; simpl in Hruns; [discriminate | auto].
Qed.

End RunAIFacts.

(** ** The history list *)

Section HistoryFacts.

Import App MonadNotation.
Local Open Scope string_scope.
Local Open Scope list_scope.



(** Case analysis of a handler call that settled. *)
Ltac settle H :=
  cbn [bind ret Monad_Async] in H;
  unfold Async_bind, Async_ret, await, set, throw, pending, effect in H;
  repeat match goal with
  | E : Some _ = Some _ |- _ => first [discriminate E | inversion E; subst; clear E]
  | E : None = Some _ |- _ => discriminate E
  | E : context [match ?x with _ => _ end] |- _ => destruct x eqn:?
  | E : context [if ?x then _ else _] |- _ => destruct x eqn:?
  end.

Lemma processImageWithPrompt_history (r : Render) (io : nat -> Services)
    (modelPrompt : string) :
  keepsHistoryInOrder r (processImageWithPrompt r io modelPrompt).
Proof.
  intros k s res s' effects Hcall. unfold processImageWithPrompt in Hcall.
  settle Hcall; cbn; eauto 10.
Qed.

Lemma handleImageExpander_history (r : Render) (io : nat -> Services) :
  keepsHistoryInOrder r (handleImageExpander r io).
Proof.
  intros k s res s' effects Hcall.
  unfold handleImageExpander, createExpansionCanvasPromise in Hcall.
  settle Hcall; cbn; eauto 10.
Qed.

Lemma pollLoop_history (io : Services) :
  forall fuel operation m s res s' effects,
    pollLoop fuel io operation m s = Some (res, s', effects) ->
    history s' = history s.
Proof.
  induction fuel as [|fuel IH]; intros operation m s res s' effects Hrun;
    cbn [pollLoop] in Hrun.
  - destruct (GenAI.done operation); [|discriminate].
    injection Hrun as <- <- <-. reflexivity.
  - destruct (GenAI.done operation).
    + injection Hrun as <- <- <-. reflexivity.
    + unfold showLoadingMessage in Hrun.
      cbn [bind ret Monad_Async Async_bind Async_ret await set effect] in Hrun.
      destruct (getVideosOperation io m) as [e|next].
      * injection Hrun as <- <- <-. reflexivity.
      * destruct (pollLoop fuel io next (S m) _) as [[[r1 s1] t1]|] eqn:Hrest;
          [|discriminate].
        injection Hrun as <- <- <-. apply IH in Hrest. exact Hrest.
Qed.

Lemma handleAnimateImage_history (fuel : nat) (r : Render) (io : nat -> Services) :
  keepsHistoryInOrder r (handleAnimateImage fuel r io).
Proof.
  intros k s res s' effects Hcall. unfold handleAnimateImage in Hcall.
  destruct (ai r); [|injection Hcall as <- <- <-; left; reflexivity].
  destruct (truthy (API_KEY r)); [|injection Hcall as <- <- <-; left; reflexivity].
  settle Hcall;
    repeat match goal with
    | E : pollLoop _ _ _ _ _ = Some _ |- _ => apply pollLoop_history in E
    end;
    cbn; try solve [eauto 10]; try congruence.
  all: right; do 4 eexists; cbn; f_equal; eassumption.
Qed.

(** A run of [runAI] around such a task adds at most one item, in front. *)
Lemma attemptLoop_history (maxRetries : nat) (initialDelay : Z)
    (r : Render) (task : Task) :
  keepsHistoryInOrder r task ->
  forall attempts s s' events,
    attemptLoop maxRetries initialDelay task attempts s = Some (s', events) ->
    history s' = history s
    \/ exists d1 d2 resultUrl resultType,
         history s' = newItem r d1 d2 resultUrl resultType :: history s.
Proof.
  intros Hkeeps attempts.
  induction attempts as [|attempt later IH]; intros s s' events Hrun;
    cbn [attemptLoop] in Hrun.
  - injection Hrun as <- _. left. reflexivity.
  - destruct (task attempt s) as [[[[e|u] s1] effects]|] eqn:Hcall; [| |discriminate].
    + pose proof (Hkeeps _ _ _ _ _ Hcall) as Hsame. cbv beta iota in Hsame.
      cbv zeta in Hrun.
      destruct (isRateLimitError (errorMessage e) && (attempt <? maxRetries)%nat).
      * destruct (attemptLoop _ _ _ later _) as [[s3 rest]|] eqn:Hrest; [|discriminate].
        injection Hrun as <- _. apply IH in Hrest. cbn in Hrest.
        rewrite Hsame in Hrest. exact Hrest.
      * injection Hrun as <- _. left.
        destruct (isRateLimitError (errorMessage e)); exact Hsame.
    + injection Hrun as <- _. exact (Hkeeps _ _ _ _ _ Hcall).
Qed.

(** Sessions are closed under runs of [runAI] around such tasks: a run makes
    at most one item. *)
Lemma Session_runAI (r : Render) (task : Task) (message : string)
    (made : list HistoryItem.HistoryItem) (s s' : State) (events : list Event) :
  keepsHistoryInOrder r task ->
  Session made s ->
  runAI r task message s = Some (s', events) ->
  Session made s' \/ exists item, Session (made ++ [item]) s'.
Proof.
  intros Hkeeps Hsession Hrun. unfold runAI in Hrun.
  destruct (ai r) as [client|].
  - unfold runLoop in Hrun.
    destruct (attemptLoop_history 2 2000 Hkeeps _ _ Hrun)
      as [Hsame | (d1 & d2 & resultUrl & resultType & Hnew)].
    + left. apply Session_other with (s := s); assumption.
    + right. exists (newItem r d1 d2 resultUrl resultType).
      apply Session_other with (s := addToHistory r d1 d2 resultUrl resultType s).
      * apply Session_generation. exact Hsession.
      * exact Hnew.
  - injection Hrun as <- _. left.
    apply Session_other with (s := s); [assumption | reflexivity].
Qed.



End HistoryFacts.

(** ** Failures of the generation tasks *)

Section FailureFacts.

Import App Compositor.
Local Open Scope string_scope.
Local Open Scope list_scope.




(** The lookup throws exactly when the response has a first candidate and
    that candidate has no content, or its content has no parts. *)
Lemma findInlineData_throws (io : Services)
    (response : GenAI.GenerateContentResponse) (e : Thrown) :
  findInlineData io response = inl e <->
  exists candidate rest,
    GenAI.candidates response = Some (candidate :: rest)
    /\ ((GenAI.content candidate = None
         /\ e = ErrorObject (typeErrorMessage io "parts"))
        \/ exists content,
             GenAI.content candidate = Some content
             /\ GenAI.parts content = None
             /\ e = ErrorObject (typeErrorMessage io "find")).
Proof.
  unfold findInlineData. split.
  - destruct (GenAI.candidates response) as [[|candidate rest]|];
      try discriminate.
    intro Hthrow. exists candidate, rest. split; [reflexivity|].
    destruct (GenAI.content candidate) as [content|].
    + right. exists content. split; [reflexivity|].
      destruct (GenAI.parts content) as [parts|].
      * destruct (find _ parts); discriminate.
      * split; [reflexivity | congruence].
    + left. split; [reflexivity | congruence].
  - intros (candidate & rest & -> & [(-> & ->) | (content & -> & -> & ->)]);
      reflexivity.
Qed.

(** Without candidates the lookup is [undefined] and nothing is thrown. *)
Lemma findInlineData_no_candidates (io : Services)
    (response : GenAI.GenerateContentResponse) :
  GenAI.candidates response = None \/ GenAI.candidates response = Some [] ->
  findInlineData io response = inr None.
Proof. unfold findInlineData. intros [-> | ->]; reflexivity. Qed.




End FailureFacts.

(** ** The polling loop of the animator *)

Section PollingFacts.

Import App MonadNotation.
Local Open Scope string_scope.
Local Open Scope list_scope.

Section PollingLoop.

Variable io : Services.

(** A done operation ends the loop at once. *)
Lemma pollLoop_done (fuel : nat) (operation : GenAI.Operation) (m : nat) (s : State) :
  GenAI.done operation = true ->
  pollLoop fuel io operation m s = Some (inr operation, s, []).
Proof. intro Hdone. destruct fuel; cbn [pollLoop]; rewrite Hdone; reflexivity. Qed.

(** One iteration: the message of this index, the wait, the poll. *)
Lemma pollLoop_iteration (fuel : nat) (operation next : GenAI.Operation)
    (m : nat) (s : State) :
  GenAI.done operation = false ->
  getVideosOperation io m = inr next ->
  pollLoop (S fuel) io operation m s =
  match pollLoop fuel io next (S m) (setLoadingMessage (videoMessage m) s) with
  | None => None
  | Some (r, s', effects) =>
      Some (r, s', [LoadingMessage (videoMessage m); SetTimeout 10000;
                    PollOperation m] ++ effects)
  end.
Proof.
  intros Hdone Hreply. cbn [pollLoop]. rewrite Hdone.
  unfold showLoadingMessage.
  cbn [bind ret Monad_Async Async_bind Async_ret await set effect].
  rewrite Hreply.
  destruct (pollLoop fuel io next (S m) _) as [[[r s'] effects]|]; reflexivity.
Qed.

(** An operation that is done at the [n]-th reply takes [n] iterations. *)
Lemma pollLoop_polls :
  forall (n fuel : nat) (operation : GenAI.Operation) (m : nat) (s : State),
    (n <= fuel)%nat ->
    GenAI.done operation = (n =? 0)%nat ->
    (forall i, (i < n)%nat -> exists reply,
        getVideosOperation io (m + i) = inr reply
        /\ GenAI.done reply = (S i =? n)%nat) ->
    exists final s',
      pollLoop fuel io operation m s
      = Some (inr final, s',
              flat_map (fun i => [LoadingMessage (videoMessage i);
                                  SetTimeout 10000; PollOperation i])
                       (seq m n))
      /\ GenAI.done final = true
      /\ history s' = history s.
Proof.
  induction n as [|n IH]; intros fuel operation m s Hfuel Hdone Hreplies.
  - exists operation, s. rewrite (@pollLoop_done fuel operation m s Hdone). repeat split. exact Hdone.
  - destruct fuel as [|fuel]; [lia|].
    destruct (Hreplies 0%nat ltac:(lia)) as (next & Hnext & Hnext_done).
    rewrite Nat.add_0_r in Hnext.
    rewrite (@pollLoop_iteration fuel operation next m s Hdone Hnext).
    destruct (IH fuel next (S m) (setLoadingMessage (videoMessage m) s))
      as (final & s' & Hrun & Hfinal & Hhist).
    + lia.
    + rewrite Hnext_done. destruct n; reflexivity.
    + intros i Hi. destruct (Hreplies (S i) ltac:(lia)) as (reply & Hreply & Hd).
      exists reply. split.
      * rewrite <- Hreply. f_equal. lia.
      * rewrite Hd. reflexivity.
    + exists final, s'. rewrite Hrun. repeat split; assumption.
Qed.

(** An operation that is never done keeps the loop going past any number
    of polls. *)
Lemma pollLoop_never_done :
  (forall i, exists reply,
      getVideosOperation io i = inr reply /\ GenAI.done reply = false) ->
  forall (fuel : nat) (operation : GenAI.Operation) (m : nat) (s : State),
    GenAI.done operation = false ->
    pollLoop fuel io operation m s = None.
Proof.
  intros Hnever. induction fuel as [|fuel IH]; intros operation m s Hdone.
  - cbn [pollLoop]. rewrite Hdone. reflexivity.
  - destruct (Hnever m) as (next & Hnext & Hnext_done).
    rewrite (@pollLoop_iteration fuel operation next m s Hdone Hnext), (IH _ _ _ Hnext_done).
    reflexivity.
Qed.
End PollingLoop.




Lemma videoMessage_wraps (i : nat) :
  videoMessage (i + length VIDEO_GENERATION_MESSAGES) = videoMessage i
  /\ In (videoMessage i) VIDEO_GENERATION_MESSAGES.
Proof.
  unfold videoMessage. split.
  - f_equal. rewrite <- (Nat.mul_1_l (length VIDEO_GENERATION_MESSAGES)) at 1.
    apply Nat.Div0.mod_add.
  - apply nth_In. apply Nat.mod_upper_bound. discriminate.
Qed.

(** C8. While the operation is reported not done, iteration [i] of the loop
    (from 0) shows message [i mod L] of the [L = 6] messages, wrapping around,
    then waits 10000 ms, then polls; an operation done at its [n]-th reply
    takes exactly [n] such iterations, for every [n].  Nothing local bounds
    the loop: if the operation is never done, it is still polling after any
    number of polls. *)
Theorem polling_progress_and_no_bound :
  (forall (io : Services) (operation : GenAI.Operation) (n fuel : nat) (s : State),
      (n <= fuel)%nat ->
      GenAI.done operation = (n =? 0)%nat ->
      (forall i, (i < n)%nat -> exists reply,
          getVideosOperation io i = inr reply
          /\ GenAI.done reply = (S i =? n)%nat) ->
      exists final s',
        pollLoop fuel io operation 0 s
        = Some (inr final, s',
                flat_map
                  (fun i =>
                     [LoadingMessage
                        (nth (i mod length VIDEO_GENERATION_MESSAGES)
                             VIDEO_GENERATION_MESSAGES "");
                      SetTimeout 10000;
                      PollOperation i])
                  (seq 0 n))
        /\ GenAI.done final = true)
  /\ length VIDEO_GENERATION_MESSAGES = 6%nat
  /\ (forall i,
        videoMessage (i + length VIDEO_GENERATION_MESSAGES) = videoMessage i
        /\ In (videoMessage i) VIDEO_GENERATION_MESSAGES)
  /\ (forall (io : Services) (operation : GenAI.Operation),
        GenAI.done operation = false ->
        (forall i, exists reply,
            getVideosOperation io i = inr reply /\ GenAI.done reply = false) ->
        forall (fuel : nat) (s : State), pollLoop fuel io operation 0 s = None).
Proof.
  split; [|split; [reflexivity | split]].
  - intros io operation n fuel s Hfuel Hdone Hreplies.
    destruct (@pollLoop_polls io n fuel operation 0%nat s Hfuel Hdone Hreplies)
      as (final & s' & Hrun & Hfinal & _).
    exists final, s'. split; [exact Hrun | exact Hfinal].
  - exact videoMessage_wraps.
  - intros io operation Hdone Hnever fuel s.
    apply pollLoop_never_done; assumption.
Qed.

Lemma polling_progress_and_no_bound_witness :
  exists final s',
    pollLoop 8 (Samples.service Samples.textOnly 8 0)
      {| GenAI.done := false; GenAI.uri := None |} 0 initialState
    = Some (inr final, s',
            flat_map
              (fun i =>
                 [LoadingMessage
                    (nth (i mod length VIDEO_GENERATION_MESSAGES)
                         VIDEO_GENERATION_MESSAGES "");
                  SetTimeout 10000;
                  PollOperation i])
              (seq 0 8))
    /\ GenAI.done final = true.
Proof.
  apply (proj1 polling_progress_and_no_bound
           (Samples.service Samples.textOnly 8 0)
           {| GenAI.done := false; GenAI.uri := None |} 8%nat 8%nat initialState
           (le_n 8) eq_refl).
  intros i Hi. eexists. split; [reflexivity|]. cbn [GenAI.done].
  do 8 (destruct i as [|i]; [reflexivity|]). lia.
Defined.

End PollingFacts.

(** ** Data URLs and file names *)

Section DataUrlFacts.

Import JsString DataUrl.
Local Open Scope list_scope.
Local Open Scope string_scope.

Lemma indexOf_absent (c : ascii) (s : string) :
  occurs c s = false -> indexOf c s = -1.
Proof.
  induction s as [|a s IH]; simpl; [reflexivity|].
  intro H. apply orb_false_iff in H. destruct H as [Ha Hs].
  rewrite Ha, (IH Hs). reflexivity.
Qed.

Lemma indexOf_first (c : ascii) (a b : string) :
  occurs c a = false -> indexOf c (a ++ String c b) = Z.of_nat (String.length a).
Proof.
  induction a as [|x a IH]; simpl; intro H.
  - rewrite Ascii.eqb_refl. reflexivity.
  - apply orb_false_iff in H. destruct H as [Hx Ha].
    rewrite Hx, (IH Ha).
    destruct (Z.of_nat (String.length a) <? 0)%Z eqn:E; lia.
Qed.

Lemma substring_middle (a m b : string) :
  String.substring (String.length a) (String.length m) (a ++ m ++ b) = m.
Proof.
  induction a as [|x a IH]; simpl.
  - induction m as [|y m IHm]; simpl.
    + destruct b; reflexivity.
    + rewrite IHm. reflexivity.
  - exact IH.
Qed.

Lemma length_append (a b : string) :
  String.length (a ++ b) = (String.length a + String.length b)%nat.
Proof. induction a; simpl; auto. Qed.

Lemma occurs_append (c : ascii) (a b : string) :
  occurs c (a ++ b) = occurs c a || occurs c b.
Proof.
  induction a as [|x a IH]; simpl; [reflexivity|].
  rewrite IH, orb_assoc. reflexivity.
Qed.

Lemma append_assoc (a b c : string) : (a ++ b) ++ c = a ++ b ++ c.
Proof. induction a; simpl; congruence. Qed.

Lemma substring_of_bounds (i j : nat) (s : string) :
  (i <= j)%nat -> (j <= String.length s)%nat ->
  substring (Z.of_nat i) (Z.of_nat j) s = String.substring i (j - i) s.
Proof.
  intros Hij Hj. unfold substring.
  rewrite !Z.max_l, !Z.min_l, Z.max_r by lia.
  rewrite Nat2Z.id. f_equal. lia.
Qed.

(** X1. [dataUrlToMimeType] reads back the MIME type of the data URL the
    handlers build from an inline image
    ([`data:${mimeType};base64,${data}`]), whenever the type has no colon and
    no semicolon of its own. *)
Theorem dataUrlToMimeType_dataUrl (d : GenAI.InlineData) :
  occurs ":" (GenAI.mimeType d) = false ->
  occurs ";" (GenAI.mimeType d) = false ->
  dataUrlToMimeType (App.dataUrl d) = GenAI.mimeType d.
Proof.
  intros Hcolon Hsemi. unfold dataUrlToMimeType, App.dataUrl.
  set (mime := GenAI.mimeType d) in *. set (rest := GenAI.data d).
  assert (indexOf ":" ("data:" ++ mime ++ ";base64," ++ rest) = 4) as ->
    by reflexivity.
  assert (indexOf ";" ("data:" ++ mime ++ ";base64," ++ rest)
          = Z.of_nat (5 + String.length mime)) as ->.
  { change ("data:" ++ mime ++ ";base64," ++ rest)
      with (("data:" ++ mime) ++ String ";" ("base64," ++ rest)).
    rewrite indexOf_first; [reflexivity|].
    rewrite occurs_append, Hsemi. reflexivity. }
  change (4 + 1) with (Z.of_nat 5).
  rewrite substring_of_bounds.
  - replace (5 + String.length mime - 5)%nat with (String.length mime) by lia.
    change 5%nat with (String.length "data:").
    apply substring_middle.
  - lia.
  - rewrite !length_append. simpl. lia.
Qed.

Lemma dataUrlToMimeType_dataUrl_witness :
  dataUrlToMimeType "data:image/png;base64,iVBORw0KGgo" = "image/png".
Proof.
  exact (@dataUrlToMimeType_dataUrl
           {| GenAI.data := "iVBORw0KGgo"; GenAI.mimeType := "image/png" |}
           eq_refl eq_refl).
Defined.

(** X2. [dataUrlToMimeType] on a string that is no data URL.  Without a
    semicolon, [indexOf] gives -1, [substring] clamps it to 0 and swaps its
    arguments: the result is the text before the first colon together with
    that colon, not a MIME type.  With neither character the result is
    empty. *)
Theorem dataUrlToMimeType_without_semicolon :
  (forall pre rest : string,
      occurs ":" pre = false ->
      occurs ";" (pre ++ String ":" rest) = false ->
      dataUrlToMimeType (pre ++ String ":" rest) = pre ++ ":")
  /\ (forall s : string,
        occurs ":" s = false -> occurs ";" s = false ->
        dataUrlToMimeType s = "").
Proof.
  split.
  - intros pre rest Hpre Hsemi. unfold dataUrlToMimeType.
    rewrite (@indexOf_first ":" pre rest Hpre), (@indexOf_absent ";" _ Hsemi).
    unfold substring.
    rewrite length_append. simpl String.length.
    rewrite (Z.max_l (Z.of_nat (String.length pre) + 1) 0) by lia.
    rewrite (Z.max_r (-1) 0) by lia.
    rewrite (Z.min_l (Z.of_nat (String.length pre) + 1)) by lia.
    rewrite (Z.min_l 0) by lia.
    rewrite Z.min_r, Z.max_l by lia.
    simpl Z.to_nat at 1.
    replace (Z.to_nat (Z.of_nat (String.length pre) + 1 - 0))
      with (String.length (pre ++ ":")) by (rewrite length_append; simpl; lia).
    pose proof (@substring_middle "" (pre ++ ":") rest) as Hmid.
    simpl in Hmid.
    replace (pre ++ String ":" rest) with ((pre ++ ":") ++ rest).
    + exact Hmid.
    + clear. induction pre; simpl; congruence.
  - intros s Hc Hs. unfold dataUrlToMimeType.
    rewrite (@indexOf_absent ":" s Hc), (@indexOf_absent ";" s Hs).
    unfold substring. simpl.
    rewrite Z.min_l by lia. simpl. destruct s; reflexivity.
Qed.

Lemma splitAcc_absent (sep : ascii) (a acc rest : string) :
  occurs sep a = false ->
  Str.splitAcc sep acc (a ++ rest) = Str.splitAcc sep (acc ++ a) rest.
Proof.
  revert acc. induction a as [|x a IH]; simpl; intros acc H.
  - f_equal. clear. induction acc; simpl; congruence.
  - apply orb_false_iff in H. destruct H as [Hx Ha].
    rewrite Hx, (IH (acc ++ String x "") Ha). rewrite append_assoc. reflexivity.
Qed.

Lemma split_first (sep : ascii) (a rest : string) :
  occurs sep a = false ->
  Str.split sep (a ++ String sep rest) = a :: Str.split sep rest.
Proof.
  intro Ha. unfold Str.split.
  rewrite (@splitAcc_absent sep a "" (String sep rest) Ha). simpl.
  rewrite Ascii.eqb_refl. reflexivity.
Qed.

Lemma split_whole (sep : ascii) (a : string) :
  occurs sep a = false -> Str.split sep a = [a].
Proof.
  intro Ha. unfold Str.split.
  rewrite <- (append_empty_r a) at 1.
  rewrite (@splitAcc_absent sep a "" "" Ha). reflexivity.
Qed.

Lemma payload_between_commas (head body : string) :
  occurs "," head = false ->
  occurs "," body = false ->
  payload (head ++ String "," body) = Some body
  /\ (forall tail, payload (head ++ String "," (body ++ String "," tail)) = Some body)
  /\ payload head = None.
Proof.
  intros Hhead Hbody. unfold payload. repeat split.
  - rewrite (@split_first _ _ _ Hhead), (@split_whole _ _ Hbody). reflexivity.
  - intros tail. rewrite (@split_first _ _ _ Hhead), (@split_first _ _ _ Hbody). reflexivity.
  - rewrite (@split_whole _ _ Hhead). reflexivity.
Qed.

Lemma dataUrlToMimeType_without_semicolon_witness :
  dataUrlToMimeType "https://example.org/a.png" = "https:"
  /\ dataUrlToMimeType "photo.png" = "".
Proof.
  split.
  - exact (proj1 dataUrlToMimeType_without_semicolon "https" "//example.org/a.png"
             eq_refl eq_refl).
  - exact (proj2 dataUrlToMimeType_without_semicolon "photo.png" eq_refl eq_refl).
Defined.

(** X3. [dataUrl.split(',')[1]], by which [fileToBase64] and
    [createExpansionCanvas] take the payload of a data URL, gives back the
    data of the data URL built from an inline image (base64 has no comma);
    on a string without a comma it gives [undefined]. *)
Theorem payload_dataUrl :
  (forall d : GenAI.InlineData,
      occurs "," (GenAI.mimeType d) = false ->
      occurs "," (GenAI.data d) = false ->
      payload (App.dataUrl d) = Some (GenAI.data d))
  /\ (forall s : string, occurs "," s = false -> payload s = None).
Proof.
  split.
  - intros d Hmime Hdata. unfold App.dataUrl.
    replace ("data:" ++ GenAI.mimeType d ++ ";base64," ++ GenAI.data d)
      with (("data:" ++ GenAI.mimeType d ++ ";base64") ++ String "," (GenAI.data d)).
    + apply payload_between_commas; [|exact Hdata].
      change ("data:" ++ GenAI.mimeType d ++ ";base64")
        with ("data:" ++ (GenAI.mimeType d ++ ";base64")).
      rewrite !occurs_append, Hmime. reflexivity.
    + simpl. rewrite append_assoc. reflexivity.
  - intros s Hs. unfold payload. rewrite (@split_whole _ _ Hs). reflexivity.
Qed.

Lemma payload_dataUrl_witness :
  payload "data:image/png;base64,iVBORw0KGgo" = Some "iVBORw0KGgo"
  /\ payload "blob:https://video/1" = None.
Proof.
  split.
  - exact (proj1 payload_dataUrl
             {| GenAI.data := "iVBORw0KGgo"; GenAI.mimeType := "image/png" |}
             eq_refl eq_refl).
  - exact (proj2 payload_dataUrl "blob:https://video/1" eq_refl).
Defined.

(** X4. The extension of the file [handleHistoryReuse] makes
    ([blob.type.split('/')[1] || 'png']) is never empty: it is the subtype of
    the blob's type, and [png] when the type has no slash or nothing behind
    it. *)
Theorem reuseExtension_cases :
  (forall blobType, reuseExtension blobType <> "")
  /\ (forall kind subtype,
        occurs "/" kind = false -> occurs "/" subtype = false ->
        reuseExtension (kind ++ String "/" subtype)
        = if String.eqb subtype "" then "png" else subtype)
  /\ (forall blobType, occurs "/" blobType = false -> reuseExtension blobType = "png").
Proof.
  repeat split.
  - intro blobType. unfold reuseExtension.
    destruct (nth_error _ 1) as [sub|]; [|discriminate].
    destruct (String.eqb sub "") eqn:E; [discriminate|].
    intros ->. discriminate.
  - intros kind subtype Hk Hs. unfold reuseExtension.
    rewrite (@split_first _ _ _ Hk), (@split_whole _ _ Hs). reflexivity.
  - intros blobType Hb. unfold reuseExtension. rewrite (@split_whole _ _ Hb). reflexivity.
Qed.

Lemma reuseExtension_cases_witness :
  reuseExtension "image/jpeg" = "jpeg"
  /\ reuseExtension "image/" = "png"
  /\ reuseExtension "" = "png".
Proof.
  pose proof reuseExtension_cases as (_ & Hsub & Hnone).
  split; [exact (Hsub "image" "jpeg" eq_refl eq_refl)|].
  split; [exact (Hsub "image" "" eq_refl eq_refl) | exact (Hnone "" eq_refl)].
Defined.

End DataUrlFacts.

(** ** Bounds on a run, and the classifier *)

Section RunnerBounds.

Import App.
Local Open Scope string_scope.
Local Open Scope list_scope.

(** X5. Whatever the task does, a run of [runAI] that returns called it at
    most three times and waited at most twice, for 2000 ms and then
    4000 ms: never more than 6000 ms in all. *)
Theorem runAI_attempts_and_waits_bounded :
  forall (r : Render) (task : Task) (message : string)
         (s s' : State) (events : list Event),
    runAI r task message s = Some (s', events) ->
    (length (attemptsOf events) <= 3)%nat
    /\ (backoffsOf events = [] \/ backoffsOf events = [2000]
        \/ backoffsOf events = [2000; 4000])
    /\ fold_right Z.add 0 (backoffsOf events) <= 6000.
Proof.
  intros r task message s s' events Hrun. unfold runAI in Hrun.
  destruct (ai r) as [client|].
  - unfold runLoop in Hrun.
    destruct (@attemptLoop_schedule 2 2000 task 3 0 _ _ _ eq_refl
                ltac:(discriminate) Hrun) as (_ & j & Hj & Hsched).
    rewrite <- (attemptsOf_scheduleOf events), <- (backoffsOf_scheduleOf events), Hsched.
    assert (j = 0 \/ j = 1 \/ j = 2)%nat as Hcases by lia.
    destruct Hcases as [-> | [-> | ->]]; cbn; repeat split; try lia; auto.
  - injection Hrun as _ <-. cbn. repeat split; try lia; auto.
Qed.

Lemma runAI_attempts_and_waits_bounded_witness :
  exists s' events,
    runAI Samples.render Samples.twiceRateLimited "Expandindo imagem..." initialState
    = Some (s', events)
    /\ (length (attemptsOf events) <= 3)%nat
    /\ fold_right Z.add 0 (backoffsOf events) <= 6000.
Proof.
  destruct (runAI Samples.render Samples.twiceRateLimited "Expandindo imagem..."
              initialState) as [[s' events]|] eqn:Hrun; [|discriminate].
  exists s', events. split; [reflexivity|].
  destruct (@runAI_attempts_and_waits_bounded _ _ _ _ _ _ Hrun) as (Ha & _ & Hw).
  split; assumption.
Defined.

Lemma toUpper_app (a b : string) :
  Str.toUpper (a ++ b)%string = (Str.toUpper a ++ Str.toUpper b)%string.
Proof. induction a as [|c a IH]; simpl; [reflexivity|]. rewrite IH. reflexivity. Qed.

(** X6. The classifier of line 607 looks anywhere in the message: a message
    with [429] somewhere in it, or with [RESOURCE_EXHAUSTED] in any mix of
    upper and lower case, is a rate-limit error, whatever stands around
    it. *)
Theorem isRateLimitError_anywhere :
  (forall pre post : string,
      isRateLimitError (pre ++ "429" ++ post)%string = true)
  /\ (forall pre marker post : string,
        Str.toUpper marker = "RESOURCE_EXHAUSTED" ->
        isRateLimitError (pre ++ marker ++ post)%string = true).
Proof.
  split.
  - intros pre post. unfold isRateLimitError.
    rewrite includes_app. reflexivity.
  - intros pre marker post Hmarker. unfold isRateLimitError, Str.testLiteralIgnoreCase.
    rewrite !toUpper_app, Hmarker.
    change (Str.toUpper "RESOURCE_EXHAUSTED") with "RESOURCE_EXHAUSTED".
    rewrite includes_app. apply orb_true_r.
Qed.

Lemma isRateLimitError_anywhere_witness :
  isRateLimitError "got status: 429 Too Many Requests" = true
  /\ isRateLimitError "Error: Resource_Exhausted (quota)" = true.
Proof.
  split.
  - exact (proj1 isRateLimitError_anywhere "got status: " " Too Many Requests").
  - exact (proj2 isRateLimitError_anywhere "Error: " "Resource_Exhausted" " (quota)"
             eq_refl).
Defined.

End RunnerBounds.

(** ** Ids and file names of history items *)

Section HistoryNames.

Import App JsString DataUrl.
Local Open Scope list_scope.
Local Open Scope string_scope.

Lemma digit_digitChar (d : Z) :
  0 <= d < 10 -> Str.digit (Str.digitChar d) = Some d.
Proof.
  intro Hd.
  assert (d = 0 \/ d = 1 \/ d = 2 \/ d = 3 \/ d = 4 \/ d = 5 \/ d = 6
          \/ d = 7 \/ d = 8 \/ d = 9) as Hcases by lia.
  repeat (destruct Hcases as [-> | Hcases]; [reflexivity|]). subst. reflexivity.
Qed.

Lemma digitChar_not_space (d : Z) :
  0 <= d < 10 -> Ascii.eqb (Str.digitChar d) " " = false.
Proof.
  intro Hd.
  assert (d = 0 \/ d = 1 \/ d = 2 \/ d = 3 \/ d = 4 \/ d = 5 \/ d = 6
          \/ d = 7 \/ d = 8 \/ d = 9) as Hcases by lia.
  repeat (destruct Hcases as [-> | Hcases]; [reflexivity|]). subst. reflexivity.
Qed.

Lemma showDigits_no_space :
  forall (fuel : nat) (n : Z) (acc : string),
    0 <= n -> occurs " " (Str.showDigits fuel n acc) = occurs " " acc.
Proof.
  induction fuel as [|fuel IH]; intros n acc Hn; [reflexivity|].
  cbn [Str.showDigits]. cbv zeta.
  assert (occurs " " (String (Str.digitChar (n mod 10)) acc) = occurs " " acc) as Hone.
  { cbn [occurs]. rewrite digitChar_not_space by (apply Z.mod_pos_bound; lia). reflexivity. }
  destruct (n <? 10)%Z; [exact Hone|].
  rewrite IH by (apply Z.div_pos; lia). exact Hone.
Qed.

(** Reading the digits written in front of [acc] continues from the number
    read so far, shifted. *)
Lemma NumberAcc_showDigits :
  forall (fuel : nat) (n : Z) (acc : string),
    0 <= n < 10 ^ Z.of_nat fuel ->
    exists m, 0 < m /\ forall a,
      Str.NumberAcc a (Str.showDigits fuel n acc) = Str.NumberAcc (a * m + n) acc.
Proof.
  induction fuel as [|fuel IH]; intros n acc Hn.
  - exists 1. split; [lia|]. intro a. cbn [Str.showDigits].
    change (10 ^ Z.of_nat 0) with 1 in Hn.
    replace n with 0 by lia. f_equal. lia.
  - cbn [Str.showDigits]. cbv zeta.
    destruct (n <? 10)%Z eqn:Hsmall.
    + apply Z.ltb_lt in Hsmall. exists 10. split; [lia|]. intro a.
      cbn [Str.NumberAcc]. rewrite Z.mod_small by lia.
      rewrite digit_digitChar by lia. f_equal. lia.
    + apply Z.ltb_ge in Hsmall.
      destruct (IH (n / 10) (String (Str.digitChar (n mod 10)) acc)) as (m & Hm & Hparse).
      { split; [apply Z.div_pos; lia|].
        apply Z.div_lt_upper_bound; [lia|].
        rewrite Nat2Z.inj_succ, Z.pow_succ_r in Hn by lia. lia. }
      exists (10 * m). split; [lia|]. intro a.
      rewrite Hparse. cbn [Str.NumberAcc].
      rewrite digit_digitChar by (apply Z.mod_pos_bound; lia).
      f_equal. pose proof (Z.div_mod n 10 ltac:(lia)). lia.
Qed.

Lemma fuel_enough (n : Z) : 0 <= n -> n < 10 ^ Z.of_nat (S (Z.to_nat (Z.log2 n))).
Proof.
  intro Hn. destruct (Z.eq_dec n 0) as [->|Hnz]; [reflexivity|].
  pose proof (Z.log2_spec n ltac:(lia)) as [_ Hup].
  pose proof (Z.log2_nonneg n) as Hlog.
  rewrite Nat2Z.inj_succ, Z2Nat.id by lia.
  eapply Z.lt_le_trans; [exact Hup|].
  apply Z.pow_le_mono_l. lia.
Qed.

(** The decimal digits of a number read back as that number. *)
Lemma Number_showInt (n : Z) : 0 <= n -> Str.Number (Str.showInt n) = Some n.
Proof.
  intro Hn. unfold Str.Number, Str.showInt.
  destruct (@NumberAcc_showDigits (S (Z.to_nat (Z.log2 n))) n "")
    as (m & _ & Hparse).
  - split; [exact Hn | apply fuel_enough; exact Hn].
  - rewrite Hparse. cbn [Str.NumberAcc]. f_equal; lia.
Qed.

(** X9. The id [addToHistory] gives an item is the millisecond clock, so two
    items have the same id exactly when they were made in the same
    millisecond, whatever else differs between them. *)
Theorem history_id_is_the_clock :
  forall (r r' : Render) (d1 d1' d2 d2' : Date.Date) (url url' : string)
         (kind kind' : ResultType),
    0 <= Date.getTime d1 -> 0 <= Date.getTime d1' ->
    (HistoryItem.id (newItem r d1 d2 url kind)
     = HistoryItem.id (newItem r' d1' d2' url' kind')
     <-> Date.getTime d1 = Date.getTime d1').
Proof.
  intros r r' d1 d1' d2 d2' url url' kind kind' H1 H1'. cbn [newItem HistoryItem.id].
  split.
  - intro Hid. apply (f_equal Str.Number) in Hid.
    rewrite !Number_showInt in Hid by assumption. congruence.
  - intros ->. reflexivity.
Qed.

Lemma history_id_is_the_clock_witness :
  HistoryItem.id (newItem Samples.render Samples.noon Samples.noon "data:a" image)
  = HistoryItem.id (newItem Samples.renderNoKey Samples.noon Samples.noon "blob:b" video).
Proof.
  apply (proj2 (@history_id_is_the_clock Samples.render Samples.renderNoKey
                  Samples.noon Samples.noon Samples.noon Samples.noon
                  "data:a" "blob:b" image video
                  ltac:(cbn; lia) ltac:(cbn; lia))).
  reflexivity.
Defined.

Lemma occurs_replaceAll (c d : ascii) (s : string) :
  Ascii.eqb d c = false -> occurs c (replaceAll c d s) = false.
Proof.
  intro Hdc. induction s as [|a s IH]; [reflexivity|].
  cbn [replaceAll occurs]. rewrite IH, orb_false_r.
  destruct (Ascii.eqb a c) eqn:E; [exact Hdc | exact E].
Qed.

Lemma endsWith_append (a p : string) : endsWith p (a ++ p) = true.
Proof.
  unfold endsWith.
  assert (String.length (a ++ p) = (String.length a + String.length p)%nat) as Hlen
    by (clear; induction a; simpl; auto).
  rewrite Hlen.
  replace (String.length a + String.length p - String.length p)%nat
    with (String.length a) by lia.
  assert (String.substring (String.length a) (String.length p) (a ++ p) = p) as ->.
  { clear. induction a as [|x a IH]; simpl; [|exact IH].
    induction p as [|y p IHp]; simpl; [reflexivity|]. rewrite IHp. reflexivity. }
  rewrite String.eqb_refl. apply andb_true_iff. split; [|reflexivity].
  apply Nat.leb_le. lia.
Qed.

(** X10. The file name [handleHistoryDownload] offers for an item made by
    [addToHistory] has no space in it (the spaces of the tool's name are
    replaced and the id is a number) and ends in [.png] for an image and
    [.mp4] for a video. *)
Theorem downloadName_of_made_item :
  forall (r : Render) (d1 d2 : Date.Date) (url : string) (kind : ResultType),
    0 <= Date.getTime d1 ->
    let item := newItem r d1 d2 url kind in
    occurs " " (downloadName item) = false
    /\ endsWith (match kind with image => ".png" | video => ".mp4" end)
                (downloadName item) = true.
Proof.
  intros r d1 d2 url kind Htime item. subst item.
  unfold downloadName. cbn [newItem HistoryItem.id HistoryItem.tool HistoryItem.type].
  split.
  - rewrite !occurs_append.
    rewrite occurs_replaceAll by reflexivity.
    unfold Str.showInt. rewrite showDigits_no_space by assumption.
    destruct kind; reflexivity.
  - destruct kind.
    + change (replaceAll " " "_" (toolName (tool r)) ++ "-"
              ++ Str.showInt (Date.getTime d1) ++ "." ++ "png")
        with (replaceAll " " "_" (toolName (tool r)) ++ "-"
              ++ Str.showInt (Date.getTime d1) ++ ".png").
      rewrite <- !append_assoc. apply endsWith_append.
    + change (replaceAll " " "_" (toolName (tool r)) ++ "-"
              ++ Str.showInt (Date.getTime d1) ++ "." ++ "mp4")
        with (replaceAll " " "_" (toolName (tool r)) ++ "-"
              ++ Str.showInt (Date.getTime d1) ++ ".mp4").
      rewrite <- !append_assoc. apply endsWith_append.
Qed.

Lemma downloadName_of_made_item_witness :
  let item := newItem Samples.render Samples.noon Samples.noon "data:a" image in
  occurs " " (downloadName item) = false
  /\ endsWith ".png" (downloadName item) = true.
Proof.
  exact (@downloadName_of_made_item Samples.render Samples.noon Samples.noon
           "data:a" image ltac:(cbn; lia)).
Defined.

End HistoryNames.
